(** * Workout-time: superset execution engine (V3) and group validator

    Shallow embedding of
    - [SupersetExecutorV3] (src/scripts/simulate-group2-with-echo.mjs,
      second document, the class exported as superset-executor-v3.js), and
    - [validateGroupConfiguration] (src/unnamed/part_001, second document,
      the module imported by the tests as js/group-validation.js),
    and, for the further results, of [formatGroupValidationMessage] of the
    same module and of [buildPlanTimeline], [findTimelineIndexFor] and the
    class [SupersetExecutorV2Sim] of the simulation script
    (src/scripts/simulate-group2-with-echo.mjs, first document).

    The JavaScript values that occur in plan items are modelled by the
    type [Js.value]; numbers are the integers together with [NaN]
    (fractions and infinities are outside the model), strings are
    sequences of code units below 256 (the pictographs in the literals of
    the formatter lie above and are held as the bytes the source file has
    for them).  The engine is written in a small state-and-exception monad
    over the engine object, so that what a method mutates and whether it can
    throw are theorems and not typing facts. *)

From Stdlib Require Import ZArith String Ascii DecimalString Sorted.
From stdpp Require Import base option list gmap strings.

Local Open Scope string_scope.
Local Open Scope list_scope.
Local Open Scope Z_scope.

(** ** The fragment of JavaScript the two components use *)

Module Js.

Inductive number : Type :=
| NaN
| Int (z : Z).

Inductive value : Type :=
| Undefined
| Null
| Bool (b : bool)
| Num (n : number)
| Str (s : string).

(* WhiteSpace and LineTerminator code units below 256:
   TAB, LF, VT, FF, CR, SP, NBSP. *)
Definition isWhiteSpace (a : ascii) : bool :=
  let n := nat_of_ascii a in
  (Nat.eqb n 9 || Nat.eqb n 10 || Nat.eqb n 11 || Nat.eqb n 12
   || Nat.eqb n 13 || Nat.eqb n 32 || Nat.eqb n 160)%bool.

Fixpoint trimStart (s : string) : string :=
  match s with
  | EmptyString => EmptyString
  | String a r => if isWhiteSpace a then trimStart r else s
  end.

Fixpoint trimEnd (s : string) : string :=
  match s with
  | EmptyString => EmptyString
  | String a r =>
      match trimEnd r with
      | EmptyString => if isWhiteSpace a then EmptyString else String a EmptyString
      | r' => String a r'
      end
  end.

(* String.prototype.trim *)
Definition trim (s : string) : string := trimEnd (trimStart s).

(* Number::toString, radix 10, on the integers of the model. *)
Definition NumberToString (n : number) : string :=
  match n with
  | NaN => "NaN"
  | Int z => NilZero.string_of_int (Z.to_int z)
  end.

(* String(v) *)
Definition ToString (v : value) : string :=
  match v with
  | Undefined => "undefined"
  | Null => "null"
  | Bool true => "true"
  | Bool false => "false"
  | Num n => NumberToString n
  | Str s => s
  end.

Definition numberTruthy (n : number) : bool :=
  match n with
  | NaN => false
  | Int z => negb (z =? 0)
  end.

(* ToBoolean *)
Definition ToBoolean (v : value) : bool :=
  match v with
  | Undefined | Null => false
  | Bool b => b
  | Num n => numberTruthy n
  | Str s => negb (String.eqb s "")
  end.

(* a && b and a || b on values *)
Definition and_ (a b : value) : value := if ToBoolean a then b else a.
Definition or_ (a b : value) : value := if ToBoolean a then a else b.

(* [Number(v) || d] for a non-zero integer literal [d]: the left operand
   when it is a truthy number, the literal otherwise.  The result is
   never NaN, so it is an integer of the model. *)
Definition numberOr (n : number) (d : Z) : Z :=
  match n with
  | NaN => d
  | Int z => if z =? 0 then d else z
  end.

Section Conversions.
(* StringToNumber of ECMA-262 (the numeric value of a string, NaN when
   it is not a StringNumericLiteral).  It is left open: every result
   below holds whatever number a string converts to. *)
Variable StringToNumber : string -> number.

(* Number(v) *)
Definition ToNumber (v : value) : number :=
  match v with
  | Undefined => NaN
  | Null => Int 0
  | Bool true => Int 1
  | Bool false => Int 0
  | Num n => n
  | Str s => StringToNumber s
  end.
End Conversions.

(* A StringToNumber for decimal integer literals, used to run examples:
   optional sign and digits between white space; the empty string is 0. *)
Fixpoint digits (s : string) (acc : Z) : option Z :=
  match s with
  | EmptyString => Some acc
  | String a r =>
      let n := nat_of_ascii a in
      if (Nat.leb 48 n && Nat.leb n 57)%bool
      then digits r (10 * acc + Z.of_nat (n - 48))
      else None
  end.

Definition decimalToNumber (s : string) : number :=
  match trim s with
  | EmptyString => Int 0
  | String "-" (String a r) => match digits (String a r) 0 with Some z => Int (- z) | None => NaN end
  | String "+" (String a r) => match digits (String a r) 0 with Some z => Int z | None => NaN end
  | t => match digits t 0 with Some z => Int z | None => NaN end
  end.

End Js.

(** ** Plan items and the engine object *)

(* A plan item is an object literal; a key that is not written reads as
   [undefined]. *)
Record PlanItem : Type := mkPlanItem {
  name : Js.value;
  type : Js.value;
  sets : Js.value;
  restSec : Js.value;
  groupNumber : Js.value;
}.

(* [this] of a SupersetExecutorV3: the plan array it was built from and the
   Map exerciseIndex -> number of completed sets. *)
Record SupersetExecutorV3 : Type := mkExecutor {
  planItems : list PlanItem;
  completedSets : gmap Z Z;
}.

(* One entry of [groupExercises] in a group-superset-start action. *)
Record GroupMember : Type := mkMember {
  m_index : Z;
  m_name : Js.value;
  m_totalSets : Z;
  m_completedSets : Z;
  m_remainingSets : Z;
}.

(* The objects the engine returns, by their [action] tag. *)
Inductive Action : Type :=
| Complete
| ExerciseStart (exerciseIndex setNumber : Z) (isSingleExercise : bool) (groupSize : Z)
| GroupSupersetStart (groupNumber : string) (groupExercises : list GroupMember)
                     (currentExerciseIndex : Z)
| NextExerciseInGroup (exerciseIndex setNumber : Z)
| RestThenContinue (exerciseIndex : option Z) (restSeconds : Z) (lastExerciseIndex : Z)
| GroupComplete.

(* [a[i]] for a JavaScript number [i]: undefined outside 0 .. length-1. *)
Definition at_ {A : Type} (a : list A) (i : Z) : option A :=
  if i <? 0 then None else a !! Z.to_nat i.

(** ** A state-and-exception monad over [this] *)

Inductive outcome (A : Type) : Type :=
| Returns (a : A)
| Throws (e : string).
Arguments Returns {A} a.
Arguments Throws {A} e.

Definition M (A : Type) : Type :=
  SupersetExecutorV3 -> outcome A * SupersetExecutorV3.

Definition ret {A : Type} (a : A) : M A := fun this => (Returns a, this).

Definition bind {A B : Type} (m : M A) (k : A -> M B) : M B :=
  fun this =>
    match m this with
    | (Returns a, this') => k a this'
    | (Throws e, this') => (Throws e, this')
    end.

Definition throw {A : Type} (e : string) : M A := fun this => (Throws e, this).

Declare Scope js_scope.
Delimit Scope js_scope with js.
Notation "x <- m ;; k" := (bind m (fun x => k))
  (at level 100, m at next level, right associativity) : js_scope.
Notation "m ;;; k" := (bind m (fun _ => k))
  (at level 100, right associativity) : js_scope.

(* this.planItems *)
Definition this_planItems : M (list PlanItem) :=
  fun this => (Returns (planItems this), this).

(* this.completedSets.get(k) *)
Definition completedSets_get (k : Z) : M (option Z) :=
  fun this => (Returns (completedSets this !! k), this).

(* this.completedSets.set(k, v) *)
Definition completedSets_set (k v : Z) : M unit :=
  fun this =>
    (Returns tt, mkExecutor (planItems this) (<[k:=v]> (completedSets this))).

(* a.forEach((item, index) => f(item, index)), from [index] on *)
Fixpoint forEach {A : Type} (a : list A) (index : Z) (f : A -> Z -> M unit) : M unit :=
  match a with
  | [] => ret tt
  | item :: rest => (f item index ;;; forEach rest (index + 1) f)%js
  end.

(* for (const x of a) accumulating into [acc] *)
Fixpoint forOf {A B : Type} (a : list A) (acc : B) (f : B -> A -> M B) : M B :=
  match a with
  | [] => ret acc
  | x :: rest => (acc' <- f acc x ;; forOf rest acc' f)%js
  end.

(* a.map(f) with a callback that reads [this] *)
Fixpoint mapM {A B : Type} (f : A -> M B) (a : list A) : M (list B) :=
  match a with
  | [] => ret []
  | x :: rest => (y <- f x ;; ys <- mapM f rest ;; ret (y :: ys))%js
  end.

(** ** SupersetExecutorV3 *)

Section Executor.
Variable StringToNumber : string -> Js.number.

Local Abbreviation Number := (Js.ToNumber StringToNumber).

Local Open Scope js_scope.

Definition initializeCompletionState : M unit :=
  items <- this_planItems ;;
  forEach items 0 (fun _ index => completedSets_set index 0).

(* new SupersetExecutorV3(planItems) *)
Definition new (planItems : list PlanItem) : SupersetExecutorV3 :=
  snd (initializeCompletionState (mkExecutor planItems ∅)).

(* The for loop of findNextIncompleteExercise with [n] iterations left,
   at index [i].  [item.sets] of an undefined item is a TypeError. *)
Fixpoint findNextIncompleteExercise_from (n : nat) (i : Z) : M (option Z) :=
  match n with
  | O => ret None
  | S n' =>
      items <- this_planItems ;;
      match at_ items i with
      | None => throw "TypeError"
      | Some item =>
          let totalSets := Js.numberOr (Number (sets item)) 1 in
          c <- completedSets_get i ;;
          let completed := default 0 c in
          if completed <? totalSets then ret (Some i)
          else findNextIncompleteExercise_from n' (i + 1)
      end
  end.

Definition findNextIncompleteExercise : M (option Z) :=
  items <- this_planItems ;;
  findNextIncompleteExercise_from (length items) 0.

(* (item && item.groupNumber) ? String(item.groupNumber).trim() : '' *)
Definition itemGroupId (item : option PlanItem) : string :=
  match item with
  | Some it =>
      if Js.ToBoolean (groupNumber it)
      then Js.trim (Js.ToString (groupNumber it))
      else ""
  | None => ""
  end.

Fixpoint getGroupExercises_from (groupId : string) (n : nat) (i : Z)
    (indices : list Z) : M (list Z) :=
  match n with
  | O => ret indices
  | S n' =>
      items <- this_planItems ;;
      let item := at_ items i in
      if String.eqb (itemGroupId item) groupId
      then getGroupExercises_from groupId n' (i + 1) (indices ++ [i])
      else getGroupExercises_from groupId n' (i + 1) indices
  end.

Definition getGroupExercises (groupNumber : Js.value) : M (list Z) :=
  match groupNumber with
  | Js.Null | Js.Undefined => ret []
  | _ =>
      let groupId := Js.trim (Js.ToString groupNumber) in
      if String.eqb groupId "" then ret []
      else
        items <- this_planItems ;;
        getGroupExercises_from groupId (length items) 0 []
  end.

Definition isGrouped (itemIndex : Z) : M bool :=
  items <- this_planItems ;;
  match at_ items itemIndex with
  | None => ret false
  | Some item =>
      let groupId :=
        Js.and_ (groupNumber item)
                (Js.Str (Js.trim (Js.ToString (groupNumber item)))) in
      ret (Js.ToBoolean groupId)
  end.

Definition getTotalSets (itemIndex : Z) : M Z :=
  items <- this_planItems ;;
  match at_ items itemIndex with
  | Some item => ret (Js.numberOr (Number (sets item)) 1)
  | None => ret 0
  end.

Definition getCompletedSets (itemIndex : Z) : M Z :=
  c <- completedSets_get itemIndex ;;
  ret (default 0 c).

Definition getRemainingSets (itemIndex : Z) : M Z :=
  total <- getTotalSets itemIndex ;;
  completed <- getCompletedSets itemIndex ;;
  ret (Z.max 0 (total - completed)).

Definition completeSet (itemIndex : Z) : M unit :=
  c <- completedSets_get itemIndex ;;
  let current := default 0 c in
  total <- getTotalSets itemIndex ;;
  if current <? total then completedSets_set itemIndex (current + 1)
  else ret tt.

(* One element of groupInfo; [this.planItems[idx].name] of an undefined
   item is a TypeError. *)
Definition groupInfoOf (idx : Z) : M GroupMember :=
  items <- this_planItems ;;
  match at_ items idx with
  | None => throw "TypeError"
  | Some it =>
      total <- getTotalSets idx ;;
      completed <- getCompletedSets idx ;;
      remaining <- getRemainingSets idx ;;
      ret (mkMember idx (Js.or_ (name it) (Js.Str "Exercise"))
                    total completed remaining)
  end.

Definition getNextAction : M Action :=
  nextIncomplete <- findNextIncompleteExercise ;;
  match nextIncomplete with
  | None => ret Complete
  | Some nextIncomplete =>
      items <- this_planItems ;;
      let item := at_ items nextIncomplete in
      grouped <- isGrouped nextIncomplete ;;
      if negb grouped then
        completed <- getCompletedSets nextIncomplete ;;
        let setNumber := completed + 1 in
        ret (ExerciseStart nextIncomplete setNumber true 1)
      else
        match item with
        | None => throw "TypeError"
        | Some item =>
            let groupNumber := groupNumber item in
            groupExercises <- getGroupExercises groupNumber ;;
            groupInfo <- mapM groupInfoOf groupExercises ;;
            ret (GroupSupersetStart (Js.trim (Js.ToString groupNumber))
                                    groupInfo nextIncomplete)
        end
  end.

(* for (const idx of groupExercises) { if (remaining > 0) anyRemaining = true } *)
Definition anyRemaining_scan (groupExercises : list Z) : M bool :=
  forOf groupExercises false (fun anyRemaining idx =>
    remaining <- getRemainingSets idx ;;
    if 0 <? remaining then ret true else ret anyRemaining).

(* The second loop of getNextGroupAction: the first member with sets left. *)
Fixpoint nextInGroup (groupExercises : list Z) : M Action :=
  match groupExercises with
  | [] => ret GroupComplete
  | idx :: rest =>
      remaining <- getRemainingSets idx ;;
      if 0 <? remaining then
        completed <- getCompletedSets idx ;;
        let setNumber := completed + 1 in
        ret (NextExerciseInGroup idx setNumber)
      else nextInGroup rest
  end.

Definition getNextGroupAction (groupNumber : Js.value) : M Action :=
  groupExercises <- getGroupExercises groupNumber ;;
  anyRemaining <- anyRemaining_scan groupExercises ;;
  if negb anyRemaining then ret GroupComplete
  else nextInGroup groupExercises.

(* The loop of completeGroupRound, which breaks at the first member with
   sets left. *)
Fixpoint anyRemaining_break (groupExercises : list Z) : M bool :=
  match groupExercises with
  | [] => ret false
  | idx :: rest =>
      remaining <- getRemainingSets idx ;;
      if 0 <? remaining then ret true else anyRemaining_break rest
  end.

Definition completeGroupRound (lastExerciseIndex : Z) (groupNumber : Js.value)
    : M Action :=
  groupExercises <- getGroupExercises groupNumber ;;
  anyRemaining <- anyRemaining_break groupExercises ;;
  if negb anyRemaining then ret GroupComplete
  else
    items <- this_planItems ;;
    let lastItem := at_ items lastExerciseIndex in
    (* lastItem?.restSec *)
    let lastRest := match lastItem with
                    | Some it => restSec it
                    | None => Js.Undefined
                    end in
    let restSeconds := Js.numberOr (Number lastRest) 60 in
    let firstExerciseInGroup := head groupExercises in
    ret (RestThenContinue firstExerciseInGroup restSeconds lastExerciseIndex).

Definition reset : M unit := initializeCompletionState.

(** *** Reading an engine object *)

(* What getTotalSets, getCompletedSets and getRemainingSets return. *)
Definition totalSetsAt (this : SupersetExecutorV3) (i : Z) : Z :=
  match at_ (planItems this) i with
  | Some item => Js.numberOr (Number (sets item)) 1
  | None => 0
  end.

Definition completedAt (this : SupersetExecutorV3) (i : Z) : Z :=
  default 0 (completedSets this !! i).

Definition remainingAt (this : SupersetExecutorV3) (i : Z) : Z :=
  Z.max 0 (totalSetsAt this i - completedAt this i).

(* The test of findNextIncompleteExercise. *)
Definition incompleteAt (this : SupersetExecutorV3) (i : Z) : Prop :=
  completedAt this i < totalSetsAt this i.

(* The trimmed group identifier of the item at [i]; empty when the item is
   ungrouped or absent. *)
Definition groupIdAt (this : SupersetExecutorV3) (i : Z) : string :=
  itemGroupId (at_ (planItems this) i).

(* [j] is the lowest index of an incomplete item. *)
Definition lowestIncomplete (this : SupersetExecutorV3) (j : Z) : Prop :=
  0 <= j < Z.of_nat (length (planItems this))
  /\ incompleteAt this j
  /\ forall k : Z, 0 <= k < j -> ~ incompleteAt this k.

(* The group identifier a caller asks for: String(groupNumber).trim(), and
   the empty string when the argument is null or undefined. *)
Definition requestedGroupId (groupNumber : Js.value) : string :=
  match groupNumber with
  | Js.Null | Js.Undefined => ""
  | _ => Js.trim (Js.ToString groupNumber)
  end.

(* What a reachable engine object looks like: the plan it was built from,
   one counter per plan index and no other, each counter between 0 and the
   item's total sets (0 when the total is negative). *)
Definition wellFormed (plan : list PlanItem) (this : SupersetExecutorV3) : Prop :=
  planItems this = plan
  /\ forall k : Z,
       match completedSets this !! k with
       | Some v =>
           0 <= k < Z.of_nat (length plan)
           /\ 0 <= v <= Z.max 0 (totalSetsAt this k)
       | None => ~ 0 <= k < Z.of_nat (length plan)
       end.

(* lastItem?.restSec *)
Definition restSecAt (this : SupersetExecutorV3) (i : Z) : Js.value :=
  match at_ (planItems this) i with
  | Some item => restSec item
  | None => Js.Undefined
  end.

(** *** Runs of the engine *)

Inductive Call : Type :=
| Call_findNextIncompleteExercise
| Call_getGroupExercises (groupNumber : Js.value)
| Call_isGrouped (itemIndex : Z)
| Call_getTotalSets (itemIndex : Z)
| Call_getCompletedSets (itemIndex : Z)
| Call_getRemainingSets (itemIndex : Z)
| Call_completeSet (itemIndex : Z)
| Call_getNextAction
| Call_getNextGroupAction (groupNumber : Js.value)
| Call_completeGroupRound (lastExerciseIndex : Z) (groupNumber : Js.value)
| Call_reset.

(* The engine object after a call. *)
Definition after (c : Call) (this : SupersetExecutorV3) : SupersetExecutorV3 :=
  match c with
  | Call_findNextIncompleteExercise => snd (findNextIncompleteExercise this)
  | Call_getGroupExercises g => snd (getGroupExercises g this)
  | Call_isGrouped i => snd (isGrouped i this)
  | Call_getTotalSets i => snd (getTotalSets i this)
  | Call_getCompletedSets i => snd (getCompletedSets i this)
  | Call_getRemainingSets i => snd (getRemainingSets i this)
  | Call_completeSet i => snd (completeSet i this)
  | Call_getNextAction => snd (getNextAction this)
  | Call_getNextGroupAction g => snd (getNextGroupAction g this)
  | Call_completeGroupRound i g => snd (completeGroupRound i g this)
  | Call_reset => snd (reset this)
  end.

(* The engine objects a caller can hold: a fresh one, or one on which a
   method has been called. *)
Inductive reachable (plan : list PlanItem) : SupersetExecutorV3 -> Prop :=
| reachable_new : reachable plan (new plan)
| reachable_call (c : Call) (this : SupersetExecutorV3) :
    reachable plan this -> reachable plan (after c this).

End Executor.

(** ** More of SupersetExecutorV3 *)

(* One entry of the array getState returns. *)
Record StateEntry : Type := mkStateEntry {
  s_index : Z;
  s_name : Js.value;
  s_groupNumber : Js.value;
  s_totalSets : Z;
  s_completedSets : Z;
  s_remainingSets : Z;
}.

Section ExecutorState.
Variable StringToNumber : string -> Js.number.

Local Open Scope js_scope.

(* The for loop of getState with [n] iterations left, at index [i];
   [item.name] of an undefined item is a TypeError. *)
Fixpoint getState_from (n : nat) (i : Z) (state : list StateEntry)
    : M (list StateEntry) :=
  match n with
  | O => ret state
  | S n' =>
      items <- this_planItems ;;
      total <- getTotalSets StringToNumber i ;;
      completed <- getCompletedSets i ;;
      match at_ items i with
      | None => throw "TypeError"
      | Some item =>
          getState_from n' (i + 1)
            (state ++ [mkStateEntry i
                         (Js.or_ (name item) (Js.Str "Exercise"))
                         (Js.or_ (groupNumber item) Js.Null)
                         total completed (total - completed)])
      end
  end.

Definition getState : M (list StateEntry) :=
  items <- this_planItems ;;
  getState_from (length items) 0 [].

(* The sets still to do over the indices i, i+1, ..., i+n-1, as
   getRemainingSets counts them. *)
Fixpoint remainingFrom (this : SupersetExecutorV3) (n : nat) (i : Z) : Z :=
  match n with
  | O => 0
  | S n' => remainingAt StringToNumber this i + remainingFrom this n' (i + 1)
  end.

Definition totalRemaining (this : SupersetExecutorV3) : Z :=
  remainingFrom this (length (planItems this)) 0.

(* The sets counted as completed over the indices i, i+1, ..., i+n-1, as
   getCompletedSets reports them. *)
Fixpoint completedFrom (this : SupersetExecutorV3) (n : nat) (i : Z) : Z :=
  match n with
  | O => 0
  | S n' => completedAt this i + completedFrom this n' (i + 1)
  end.

Definition totalCompleted (this : SupersetExecutorV3) : Z :=
  completedFrom this (length (planItems this)) 0.

(* completeSet called for each index of [indices] in turn. *)
Fixpoint completeSet_each (indices : list Z) (this : SupersetExecutorV3)
    : SupersetExecutorV3 :=
  match indices with
  | [] => this
  | i :: rest => completeSet_each rest (snd (completeSet StringToNumber i this))
  end.

(* How many of these calls counted a set: the calls that moved the counter
   of their index. *)
Fixpoint countedCompletions (indices : list Z) (this : SupersetExecutorV3) : Z :=
  match indices with
  | [] => 0
  | i :: rest =>
      let this' := snd (completeSet StringToNumber i this) in
      (if decide (completedAt this' i = completedAt this i) then 0 else 1)
      + countedCompletions rest this'
  end.

(* completeSet(itemIndex) called [n] times in a row. *)
Fixpoint completeSet_times (n : nat) (itemIndex : Z) (this : SupersetExecutorV3)
    : SupersetExecutorV3 :=
  match n with
  | O => this
  | S n' =>
      completeSet_times n' itemIndex (snd (completeSet StringToNumber itemIndex this))
  end.

End ExecutorState.

(** ** validateGroupConfiguration *)

(* The value of the groupMap: { firstIndex, lastIndex, indices }. *)
Record GroupInfo : Type := mkGroupInfo {
  firstIndex : Z;
  lastIndex : Z;
  indices : list Z;
}.

Record IssueDetails : Type := mkDetails {
  span : string;
  groupItemCount : Z;
  spaceOccupied : Z;
  interleavedItems : list string;
}.

Record Issue : Type := mkIssue {
  severity : string;
  groupId : string;
  message : string;
  details : IssueDetails;
}.

Record ValidationResult : Type := mkResult {
  isValid : bool;
  issues : list Issue;
  resultMessage : string;
}.

(* A Map from group id to group info in insertion order: [for ... of]
   visits the keys in the order in which they were first set. *)
Definition GroupMap : Type := list (string * GroupInfo).

Fixpoint groupMap_has (m : GroupMap) (k : string) : bool :=
  match m with
  | [] => false
  | (k', _) :: r => if String.eqb k' k then true else groupMap_has r k
  end.

(* group = groupMap.get(k); group.lastIndex = i; group.indices.push(i) *)
Fixpoint groupMap_extend (m : GroupMap) (k : string) (i : Z) : GroupMap :=
  match m with
  | [] => []
  | (k', g) :: r =>
      if String.eqb k' k
      then (k', mkGroupInfo (firstIndex g) i (indices g ++ [i])) :: r
      else (k', g) :: groupMap_extend r k i
  end.

(* groupMap.set(k, v) for a key that is not in the map *)
Definition groupMap_set (m : GroupMap) (k : string) (v : GroupInfo) : GroupMap :=
  m ++ [(k, v)].

(* item.groupNumber && String(item.groupNumber).trim() *)
Definition groupIdOf (item : PlanItem) : Js.value :=
  Js.and_ (groupNumber item) (Js.Str (Js.trim (Js.ToString (groupNumber item)))).

(* The callback of the first pass. *)
Definition recordItem (groupMap : GroupMap) (item : PlanItem) (timelineIndex : Z)
    : GroupMap :=
  let groupId := groupIdOf item in
  if Js.ToBoolean groupId then
    let key := Js.ToString groupId in
    if negb (groupMap_has groupMap key)
    then groupMap_set groupMap key
           (mkGroupInfo timelineIndex timelineIndex [timelineIndex])
    else groupMap_extend groupMap key timelineIndex
  else groupMap.

(* planItems.forEach((item, timelineIndex) => ...), from [timelineIndex] on *)
Fixpoint firstPass (planItems : list PlanItem) (timelineIndex : Z)
    (groupMap : GroupMap) : GroupMap :=
  match planItems with
  | [] => groupMap
  | item :: rest =>
      firstPass rest (timelineIndex + 1) (recordItem groupMap item timelineIndex)
  end.

(* indices.includes(i) *)
Definition includes (indices : list Z) (i : Z) : bool :=
  existsb (Z.eqb i) indices.

(* The UTF-8 bytes of the bullet literal as the source file has them. *)
Definition bullet : string :=
  string_of_list_ascii
    (map ascii_of_nat [195; 162; 226; 130; 172; 194; 162]%nat).

(* The template literal pushed on [gaps] for a non-member index [i]. *)
Definition gapLine (planItems : list PlanItem) (i : Z) : string :=
  let item := at_ planItems i in
  let field (f : PlanItem -> Js.value) :=
    match item with Some it => f it | None => Js.Undefined end in
  let itemName :=
    Js.or_ (Js.or_ (field name) (field type))
           (Js.Str ("Item " +:+ Js.NumberToString (Js.Int i))) in
  "  " +:+ bullet +:+ " Timeline index " +:+ Js.NumberToString (Js.Int i)
  +:+ ": " +:+ Js.ToString itemName
  +:+ " (group: " +:+ Js.ToString (Js.or_ (field groupNumber) (Js.Str "none"))
  +:+ ")".

(* for (let i = firstIndex; i <= lastIndex; i++) with [n] iterations left *)
Fixpoint gapsFrom (planItems : list PlanItem) (indices : list Z) (n : nat) (i : Z)
    : list string :=
  match n with
  | O => []
  | S n' =>
      if negb (includes indices i)
      then gapLine planItems i :: gapsFrom planItems indices n' (i + 1)
      else gapsFrom planItems indices n' (i + 1)
  end.

Definition issueFor (planItems : list PlanItem) (groupId : string)
    (groupInfo : GroupInfo) : Issue :=
  let expectedContiguousLength := lastIndex groupInfo - firstIndex groupInfo + 1 in
  let gaps := gapsFrom planItems (indices groupInfo)
                (Z.to_nat expectedContiguousLength) (firstIndex groupInfo) in
  mkIssue "warning" groupId
    ("Group " +:+ groupId
     +:+ " is interleaved with other items. Items must be contiguous.")
    (mkDetails
       ("Timeline indices " +:+ Js.NumberToString (Js.Int (firstIndex groupInfo))
        +:+ "-" +:+ Js.NumberToString (Js.Int (lastIndex groupInfo)))
       (Z.of_nat (length (indices groupInfo)))
       expectedContiguousLength
       gaps).

(* for (const [groupId, groupInfo] of groupMap) *)
Fixpoint secondPass (planItems : list PlanItem) (groupMap : GroupMap)
    (issues : list Issue) : list Issue :=
  match groupMap with
  | [] => issues
  | (groupId, groupInfo) :: rest =>
      let expectedContiguousLength :=
        lastIndex groupInfo - firstIndex groupInfo + 1 in
      if negb (Z.of_nat (length (indices groupInfo)) =? expectedContiguousLength)
      then secondPass planItems rest (issues ++ [issueFor planItems groupId groupInfo])
      else secondPass planItems rest issues
  end.

Definition validateGroupConfiguration (planItems : list PlanItem)
    : ValidationResult :=
  if (length planItems =? 0)%nat then mkResult true [] ""
  else
    let groupMap := firstPass planItems 0 [] in
    let issues := secondPass planItems groupMap [] in
    mkResult (length issues =? 0)%nat issues
      (if (length issues =? 0)%nat then "Group configuration is valid"
       else "Found " +:+ Js.NumberToString (Js.Int (Z.of_nat (length issues)))
            +:+ " group configuration issue(s)").

(** ** formatGroupValidationMessage *)

(* "\n" *)
Definition LF : string := String (ascii_of_nat 10) EmptyString.

(* The UTF-8 bytes of the three pictographs as the source file has them. *)
Definition checkMark : string :=
  string_of_list_ascii (map ascii_of_nat [195; 162; 197; 147; 226; 128; 156]%nat).

Definition warningSign : string :=
  string_of_list_ascii
    (map ascii_of_nat [195; 162; 197; 161; 194; 160; 195; 175; 194; 184]%nat).

Definition lightBulb : string :=
  string_of_list_ascii
    (map ascii_of_nat [195; 176; 197; 184; 226; 128; 153; 194; 161]%nat).

(* a.join(sep) on an array of strings *)
Fixpoint join (sep : string) (a : list string) : string :=
  match a with
  | [] => ""
  | x :: rest =>
      match rest with
      | [] => x
      | _ => x +:+ sep +:+ join sep rest
      end
  end.

(* The lines pushed for one issue. *)
Definition issueLines (issue : Issue) : list string :=
  [ "Group " +:+ groupId issue +:+ ":";
    "  " +:+ message issue;
    "  " +:+ span (details issue);
    "  Items in group: "
      +:+ Js.NumberToString (Js.Int (groupItemCount (details issue)))
      +:+ ", Space occupied: "
      +:+ Js.NumberToString (Js.Int (spaceOccupied (details issue)));
    "  Interleaved items:";
    join LF (interleavedItems (details issue));
    LF +:+ lightBulb
      +:+ " Tip: Reorder your exercises so all items in a group appear consecutively.";
    "" ].

(* validationResult.issues.forEach((issue) => { lines.push(...) ... }) *)
Fixpoint pushIssues (issues : list Issue) (lines : list string) : list string :=
  match issues with
  | [] => lines
  | issue :: rest => pushIssues rest (lines ++ issueLines issue)
  end.

Definition successText : string := checkMark +:+ " Group configuration is valid".

Definition warningHeader : string :=
  warningSign +:+ " Warning: Improper group configuration detected:" +:+ LF.

Definition formatGroupValidationMessage (validationResult : ValidationResult)
    : string :=
  if isValid validationResult then successText
  else join LF (pushIssues (issues validationResult) [warningHeader]).

(* [x] occurs in [s], as s.includes(x) tests. *)
Definition occursIn (x s : string) : Prop :=
  exists pre post : string, s = pre +:+ x +:+ post.

(** ** buildPlanTimeline and findTimelineIndexFor *)

Record TimelineEntry : Type := mkEntry {
  itemIndex : Z;
  set : Z;
}.

(* a.findIndex(p), counting from [i]; -1 when no element satisfies [p] *)
Fixpoint findIndex_from {A : Type} (p : A -> bool) (a : list A) (i : Z) : Z :=
  match a with
  | [] => -1
  | x :: rest => if p x then i else findIndex_from p rest (i + 1)
  end.

(* findTimelineIndexFor, with the script's global timeline as a parameter *)
Definition findTimelineIndexFor (timeline : list TimelineEntry)
    (itemIdx setNumber : Z) : Z :=
  findIndex_from (fun e => (itemIndex e =? itemIdx) && (set e =? setNumber))%bool
                 timeline 0.

Section Timeline.
Variable StringToNumber : string -> Js.number.

(* Math.max(1, Number(it.sets) || 1) *)
Definition timelineSets (it : PlanItem) : Z :=
  Z.max 1 (Js.numberOr (Js.ToNumber StringToNumber (sets it)) 1).

(* for (let s = ...; s <= sets; s++) timeline.push({ itemIndex: i, set: s }),
   with [n] iterations left *)
Fixpoint pushSets (i : Z) (n : nat) (s : Z) (timeline : list TimelineEntry)
    : list TimelineEntry :=
  match n with
  | O => timeline
  | S n' => pushSets i n' (s + 1) (timeline ++ [mkEntry i s])
  end.

(* items.forEach((it, i) => ...), from index [i] on *)
Fixpoint buildPlanTimeline_from (items : list PlanItem) (i : Z)
    (timeline : list TimelineEntry) : list TimelineEntry :=
  match items with
  | [] => timeline
  | it :: rest =>
      buildPlanTimeline_from rest (i + 1)
        (pushSets i (Z.to_nat (timelineSets it)) 1 timeline)
  end.

Definition buildPlanTimeline (items : list PlanItem) : list TimelineEntry :=
  buildPlanTimeline_from items 0 [].

(* The number of timeline entries of the items before index [i]. *)
Fixpoint timelineOffset (items : list PlanItem) (i : nat) : Z :=
  match i, items with
  | S i', it :: rest => timelineSets it + timelineOffset rest i'
  | _, _ => 0
  end.

End Timeline.

(** ** SupersetExecutorV2Sim *)

(* { index, item } *)
Record GroupItem : Type := mkGroupItem {
  gi_index : Z;
  gi_item : PlanItem;
}.

(* An element of [groups] while they are built: its [items] is the address
   of an array, which the groupMap may hold as well. *)
Record GroupRef : Type := mkGroupRef {
  r_id : string;
  r_items : nat;
  r_isGroup : bool;
}.

(* An element of [groups] once built: { id, items, isGroup }. *)
Record Group : Type := mkGroup {
  g_id : string;
  g_items : list GroupItem;
  g_isGroup : bool;
}.

(* The state of buildGroups: the arrays allocated so far, by address; the
   groupMap, from group id to the address of the group's array; and the
   groups array. *)
Record BuildState : Type := mkBuildState {
  b_arrays : list (list GroupItem);
  b_groupMap : list (string * nat);
  b_groups : list GroupRef;
}.

(* map.get(k) on a Map kept as an insertion-ordered list of entries *)
Fixpoint entries_get {K V : Type} (eqb : K -> K -> bool) (m : list (K * V)) (k : K)
    : option V :=
  match m with
  | [] => None
  | (k', v) :: rest => if eqb k' k then Some v else entries_get eqb rest k
  end.

(* map.set(k, v): the entry of an existing key is overwritten in place, a
   new key comes last *)
Fixpoint entries_set {K V : Type} (eqb : K -> K -> bool) (m : list (K * V)) (k : K)
    (v : V) : list (K * V) :=
  match m with
  | [] => [(k, v)]
  | (k', v') :: rest =>
      if eqb k' k then (k', v) :: rest else (k', v') :: entries_set eqb rest k v
  end.

(* array.push(x) on the array at [address] *)
Definition array_push {A : Type} (arrays : list (list A)) (address : nat) (x : A)
    : list (list A) :=
  alter (fun a => a ++ [x]) address arrays.

(* The callback of planItems.forEach in buildGroups.  [None] stands for
   the TypeError of groupMap.get(groupId).push on undefined. *)
Definition buildGroups_step (st : BuildState) (item : PlanItem) (index : Z)
    : option BuildState :=
  let groupId := groupIdOf item in
  if Js.ToBoolean groupId then
    let key := Js.ToString groupId in
    let st1 :=
      match entries_get String.eqb (b_groupMap st) key with
      | Some _ => st
      | None =>
          (* groupMap.set(groupId, []); groups.push({ id, items, isGroup }) *)
          let address := length (b_arrays st) in
          mkBuildState (b_arrays st ++ [[]])
                       (entries_set String.eqb (b_groupMap st) key address)
                       (b_groups st ++ [mkGroupRef key address true])
      end in
    match entries_get String.eqb (b_groupMap st1) key with
    | Some address =>
        Some (mkBuildState (array_push (b_arrays st1) address (mkGroupItem index item))
                           (b_groupMap st1) (b_groups st1))
    | None => None
    end
  else
    let address := length (b_arrays st) in
    Some (mkBuildState
            (b_arrays st ++ [[mkGroupItem index item]])
            (b_groupMap st)
            (b_groups st
             ++ [mkGroupRef ("standalone-" +:+ Js.NumberToString (Js.Int index))
                            address false])).

Fixpoint buildGroups_from (planItems : list PlanItem) (index : Z) (st : BuildState)
    : option BuildState :=
  match planItems with
  | [] => Some st
  | item :: rest =>
      match buildGroups_step st item index with
      | Some st' => buildGroups_from rest (index + 1) st'
      | None => None
      end
  end.

(* The groups array as its reader sees it: each element with the contents
   of its items array. *)
Definition readGroups (st : BuildState) : list Group :=
  map (fun r => mkGroup (r_id r) (default [] (b_arrays st !! r_items r)) (r_isGroup r))
      (b_groups st).

Definition buildGroups (planItems : list PlanItem) : option (list Group) :=
  option_map readGroups (buildGroups_from planItems 0 (mkBuildState [] [] [])).

(* [this] of a SupersetExecutorV2Sim.  groupState maps a group id to the
   group's setsRemaining map, from plan index to sets. *)
Record SupersetExecutorV2Sim : Type := mkV2 {
  v2_planItems : list PlanItem;
  v2_groups : list Group;
  v2_groupState : list (string * list (Z * Z));
}.

(* The objects getNextExercise returns. *)
Inductive V2Action : Type :=
| V2Complete
| V2NextExercise (itemIndex : Z)
| V2RestThenContinue (itemIndex restAfter : Z).

(* group.items.some((e) => e.index === itemIndex) *)
Definition holdsIndex (group : Group) (itemIdx : Z) : bool :=
  existsb (fun e => gi_index e =? itemIdx) (g_items group).

(* findGroupForItem; [None] is null *)
Definition findGroupForItem (this : SupersetExecutorV2Sim) (itemIdx : Z)
    : option Group :=
  List.find (fun group => g_isGroup group && holdsIndex group itemIdx)%bool
            (v2_groups this).

Definition v2_isGrouped (this : SupersetExecutorV2Sim) (itemIdx : Z) : bool :=
  existsb (fun group => g_isGroup group && holdsIndex group itemIdx)%bool
          (v2_groups this).

(* setsRemaining.get(i) || 0 *)
Definition setsRemaining_get (setsRemaining : list (Z * Z)) (i : Z) : Z :=
  default 0 (entries_get Z.eqb setsRemaining i).

(* getRemainingSets: the first groupState entry that knows the index *)
Fixpoint getRemainingSets_in (groupState : list (string * list (Z * Z))) (itemIdx : Z)
    : Z :=
  match groupState with
  | [] => 0
  | (_, setsRemaining) :: rest =>
      match entries_get Z.eqb setsRemaining itemIdx with
      | Some rem => rem
      | None => getRemainingSets_in rest itemIdx
      end
  end.

Definition v2_getRemainingSets (this : SupersetExecutorV2Sim) (itemIdx : Z) : Z :=
  getRemainingSets_in (v2_groupState this) itemIdx.

(* The first of [items] with sets remaining; [None] when there is none. *)
Definition firstRemaining (setsRemaining : list (Z * Z)) (items : list GroupItem)
    : option Z :=
  option_map gi_index
    (List.find (fun e => 0 <? setsRemaining_get setsRemaining (gi_index e)) items).

(* getNextExercise: the action and the engine after the call.  [None]
   stands for the TypeError of group.items[0].index on an empty group. *)
Definition getNextExercise (this : SupersetExecutorV2Sim) (completedItemIndex : Z)
    : option (V2Action * SupersetExecutorV2Sim) :=
  match findGroupForItem this completedItemIndex with
  | None => Some (V2Complete, this)
  | Some group =>
      match entries_get String.eqb (v2_groupState this) (g_id group) with
      | None => Some (V2Complete, this)
      | Some setsRemaining =>
          let currentRemaining := setsRemaining_get setsRemaining completedItemIndex in
          let setsRemaining' :=
            if 0 <? currentRemaining
            then entries_set Z.eqb setsRemaining completedItemIndex
                             (currentRemaining - 1)
            else setsRemaining in
          let this' :=
            mkV2 (v2_planItems this) (v2_groups this)
                 (entries_set String.eqb (v2_groupState this) (g_id group)
                              setsRemaining') in
          let currentPos :=
            findIndex_from (fun e => gi_index e =? completedItemIndex)
                           (g_items group) 0 in
          (* for (let i = currentPos + 1; i < group.items.length; i++) *)
          match firstRemaining setsRemaining'
                  (drop (Z.to_nat (currentPos + 1)) (g_items group)) with
          | Some nextIdx => Some (V2NextExercise nextIdx, this')
          | None =>
              let anyRemaining := existsb (fun kv => 0 <? snd kv) setsRemaining' in
              if negb anyRemaining then Some (V2Complete, this')
              else
                match g_items group with
                | [] => None
                | first :: _ =>
                    let firstIdx := gi_index first in
                    if 0 <? setsRemaining_get setsRemaining' firstIdx
                    then Some (V2RestThenContinue firstIdx completedItemIndex, this')
                    else
                      match firstRemaining setsRemaining' (g_items group) with
                      | Some index =>
                          Some (V2RestThenContinue index completedItemIndex, this')
                      | None => Some (V2Complete, this')
                      end
                end
          end
      end
  end.

Section V2Construction.
Variable StringToNumber : string -> Js.number.

(* group.items.forEach(({ index, item }) => setsRemaining.set(index, ...)) *)
Fixpoint initialSets (items : list GroupItem) (setsRemaining : list (Z * Z))
    : list (Z * Z) :=
  match items with
  | [] => setsRemaining
  | e :: rest =>
      initialSets rest
        (entries_set Z.eqb setsRemaining (gi_index e)
           (Js.numberOr (Js.ToNumber StringToNumber (sets (gi_item e))) 1))
  end.

(* this.groups.forEach((group) => { if (group.isGroup) ... }) *)
Fixpoint initializeAllGroupStates (groups : list Group)
    (groupState : list (string * list (Z * Z))) : list (string * list (Z * Z)) :=
  match groups with
  | [] => groupState
  | group :: rest =>
      initializeAllGroupStates rest
        (if g_isGroup group
         then entries_set String.eqb groupState (g_id group)
                          (initialSets (g_items group) [])
         else groupState)
  end.

(* new SupersetExecutorV2Sim(planItems) *)
Definition newV2 (planItems : list PlanItem) : option SupersetExecutorV2Sim :=
  match buildGroups planItems with
  | Some groups =>
      Some (mkV2 planItems groups (initializeAllGroupStates groups []))
  | None => None
  end.

End V2Construction.

(** ** Group membership, as a specification *)

(* The indices, from [i] on, of the items whose trimmed group identifier
   is [g]. *)
Fixpoint membersFrom (plan : list PlanItem) (i : Z) (g : string) : list Z :=
  match plan with
  | [] => []
  | item :: rest =>
      if String.eqb (itemGroupId (Some item)) g
      then i :: membersFrom rest (i + 1) g
      else membersFrom rest (i + 1) g
  end.

Definition membersOf (plan : list PlanItem) (g : string) : list Z :=
  membersFrom plan 0 g.

(* A group is interleaved when it has fewer members than its span has
   positions. *)
Definition interleaved (plan : list PlanItem) (g : string) : Prop :=
  match membersOf plan g with
  | [] => False
  | first :: rest =>
      Z.of_nat (length (first :: rest)) < List.last rest first - first + 1
  end.

(* Every group occupies a contiguous range of indices. *)
Definition contiguous (plan : list PlanItem) : Prop :=
  forall (g : string) (i j k : Z),
    g <> "" -> i <= j <= k ->
    itemGroupId (at_ plan i) = g -> itemGroupId (at_ plan k) = g ->
    itemGroupId (at_ plan j) = g.



(** ** The groups of a plan, as a specification *)

(* The { index, item } records, from index [i] on, of the items whose
   trimmed group identifier is [g]. *)
Fixpoint memberItemsFrom (plan : list PlanItem) (i : Z) (g : string)
    : list GroupItem :=
  match plan with
  | [] => []
  | item :: rest =>
      if String.eqb (itemGroupId (Some item)) g
      then mkGroupItem i item :: memberItemsFrom rest (i + 1) g
      else memberItemsFrom rest (i + 1) g
  end.

Definition memberItems (plan : list PlanItem) (g : string) : list GroupItem :=
  memberItemsFrom plan 0 g.

(* The state of buildGroups after the items [pre]. *)
Definition built (pre : list PlanItem) (st : BuildState) : Prop :=
  length (b_arrays st) = length (b_groups st)
  /\ NoDup (map fst (b_groupMap st))
  /\ (forall g address,
        In (g, address) (b_groupMap st) ->
        g <> ""
        /\ b_groups st !! address = Some (mkGroupRef g address true)
        /\ b_arrays st !! address = Some (memberItems pre g)
        /\ membersOf pre g <> [])
  /\ (forall g, g <> "" -> membersOf pre g <> [] ->
        exists address, In (g, address) (b_groupMap st))
  /\ (forall k r,
        b_groups st !! k = Some r ->
        r_items r = k
        /\ if r_isGroup r then In (r_id r, k) (b_groupMap st)
           else exists i item,
                  at_ pre i = Some item /\ itemGroupId (Some item) = ""
                  /\ r_id r = "standalone-" +:+ Js.NumberToString (Js.Int i)
                  /\ b_arrays st !! k = Some [mkGroupItem i item]).

(* A SupersetExecutorV2Sim for [plan], fresh or after calls of
   getNextExercise: the groups of the plan, and for every group a
   setsRemaining map whose keys are the group's members. *)
Definition runningV2 (plan : list PlanItem) (this : SupersetExecutorV2Sim) : Prop :=
  v2_planItems this = plan
  /\ buildGroups plan = Some (v2_groups this)
  /\ NoDup (map fst (v2_groupState this))
  /\ (forall g setsRemaining,
        In (g, setsRemaining) (v2_groupState this) ->
        g <> "" /\ membersOf plan g <> []
        /\ map fst setsRemaining = membersOf plan g)
  /\ (forall g, g <> "" -> membersOf plan g <> [] ->
        exists setsRemaining, In (g, setsRemaining) (v2_groupState this)).

(** ** The group map, as a specification *)

(* The entry of the group map for a group with members [ms]. *)
Definition infoOf (ms : list Z) : GroupInfo :=
  mkGroupInfo (List.hd 0 ms) (List.last ms 0) ms.

(* The group map after the first pass over [plan]: one entry per group
   identifier that occurs, holding the group's members. *)
Definition recorded (plan : list PlanItem) (groupMap : GroupMap) : Prop :=
  NoDup (map fst groupMap)
  /\ (forall g info, In (g, info) groupMap ->
        g <> "" /\ membersOf plan g <> [] /\ info = infoOf (membersOf plan g))
  /\ (forall g, g <> "" -> membersOf plan g <> [] ->
        groupMap_has groupMap g = true).

(* The test of the second pass. *)
Definition flagged (info : GroupInfo) : Prop :=
  Z.of_nat (length (indices info)) <> lastIndex info - firstIndex info + 1.

(* The issues of a plan that pertain to group [g]. *)
Definition issuesFor (g : string) (issues : list Issue) : list Issue :=
  List.filter (fun issue => String.eqb (groupId issue) g) issues.

(* i, i+1, ..., i+n-1 *)
Fixpoint zrange (n : nat) (i : Z) : list Z :=
  match n with
  | O => []
  | S n' => i :: zrange n' (i + 1)
  end.

(** ** The timeline, as a specification *)

(* Entries are ordered by item, then by set. *)
Definition entryLt (e f : TimelineEntry) : Prop :=
  itemIndex e < itemIndex f \/ (itemIndex e = itemIndex f /\ set e < set f).

Section TimelineSpec.
Variable StringToNumber : string -> Js.number.

(* The entries of the items from index [i] on: for each item, its sets
   1, 2, ... in order. *)
Fixpoint timelineOf (items : list PlanItem) (i : Z) : list TimelineEntry :=
  match items with
  | [] => []
  | it :: rest =>
      map (mkEntry i) (zrange (Z.to_nat (timelineSets StringToNumber it)) 1)
      ++ timelineOf rest (i + 1)
  end.

End TimelineSpec.

(** ** Plans to run the engine and the validator on *)

Definition exercise (n : string) (s r : Z) (g : Js.value) : PlanItem :=
  mkPlanItem (Js.Str n) (Js.Str "exercise") (Js.Num (Js.Int s))
             (Js.Num (Js.Int r)) g.

(* The plan of the superset rest test: A1 and A2 of group '1' around an
   ungrouped exercise. *)
Definition interleavedPlan : list PlanItem :=
  [ exercise "A1" 2 10 (Js.Str "1");
    exercise "Ungrouped-X" 1 5 Js.Undefined;
    exercise "A2" 2 20 (Js.Str "1") ].

(* { name, sets: 2, groupNumber } as the validation tests write their items *)
Definition grouped (n g : string) : PlanItem :=
  mkPlanItem (Js.Str n) Js.Undefined (Js.Num (Js.Int 2)) Js.Undefined (Js.Str g).

(* The plan of the test "format message for invalid plan": one item of
   group '2' between two items of group '1'. *)
Definition sandwichPlan : list PlanItem :=
  [grouped "test1" "1"] ++ [grouped "group2_item1" "2"] ++ [grouped "test2" "1"].

(* A superset whose first member asks for no rest: restSec: 0. *)
Definition zeroRestPlan : list PlanItem :=
  [ exercise "A1" 2 0 (Js.Str "1"); exercise "A2" 2 20 (Js.Str "1") ].

(* A plan with an item whose sets is -1. *)
Definition negativeSetsPlan : list PlanItem :=
  [ mkPlanItem (Js.Str "A") Js.Undefined (Js.Num (Js.Int (-1))) Js.Undefined
               Js.Undefined ].

(* A plan whose second item has sets: -3. *)
Definition mixedSetsPlan : list PlanItem :=
  [ exercise "A" 2 30 Js.Undefined; exercise "B" (-3) 30 Js.Undefined ].

(** * Facts *)

(** ** Array indexing *)

Lemma at_Some {A : Type} (a : list A) (i : Z) (x : A) :
  at_ a i = Some x -> 0 <= i < Z.of_nat (length a).
Proof.
  unfold at_. destruct (Z.ltb_spec i 0) as [Hneg | Hpos]; [discriminate |].
  intros H. apply lookup_lt_Some in H. lia.
Qed.

Lemma at_None {A : Type} (a : list A) (i : Z) :
  at_ a i = None <-> i < 0 \/ Z.of_nat (length a) <= i.
Proof.
  unfold at_. destruct (Z.ltb_spec i 0) as [Hneg | Hpos].
  - split; [intros _; lia | reflexivity].
  - rewrite lookup_ge_None. lia.
Qed.

Lemma at_in_range {A : Type} (a : list A) (i : Z) :
  0 <= i < Z.of_nat (length a) -> exists x, at_ a i = Some x.
Proof.
  intros Hi. destruct (at_ a i) as [x |] eqn:E; [eauto |].
  apply at_None in E. lia.
Qed.

Lemma at_cons_succ {A : Type} (x : A) (a : list A) (i : Z) :
  0 <= i -> at_ (x :: a) (i + 1) = at_ a i.
Proof.
  intros Hi. unfold at_.
  destruct (Z.ltb_spec (i + 1) 0); [lia |].
  destruct (Z.ltb_spec i 0); [lia |].
  replace (Z.to_nat (i + 1)) with (S (Z.to_nat i)) by lia. reflexivity.
Qed.

Lemma at_app_shift {A : Type} (a b : list A) (i : Z) :
  0 <= i -> at_ (a ++ b) (Z.of_nat (length a) + i) = at_ b i.
Proof.
  intros Hi. unfold at_.
  destruct (Z.ltb_spec (Z.of_nat (length a) + i) 0); [lia |].
  destruct (Z.ltb_spec i 0); [lia |].
  replace (Z.to_nat (Z.of_nat (length a) + i)) with (length a + Z.to_nat i)%nat by lia.
  rewrite lookup_app_r by lia. f_equal. lia.
Qed.

Lemma at_app_l {A : Type} (a b : list A) (i : Z) :
  i < Z.of_nat (length a) -> at_ (a ++ b) i = at_ a i.
Proof.
  intros Hi. unfold at_. destruct (Z.ltb_spec i 0); [reflexivity |].
  apply lookup_app_l. lia.
Qed.

(** ** Group membership *)

Lemma membersFrom_app (a b : list PlanItem) (i : Z) (g : string) :
  membersFrom (a ++ b) i g
  = membersFrom a i g ++ membersFrom b (i + Z.of_nat (length a)) g.
Proof.
  revert i. induction a as [| x a IH]; intros i; cbn [membersFrom app length].
  - f_equal. lia.
  - rewrite IH.
    replace (i + 1 + Z.of_nat (length a)) with (i + Z.of_nat (S (length a))) by lia.
    destruct (String.eqb (itemGroupId (Some x)) g); reflexivity.
Qed.


Lemma membersFrom_In (plan : list PlanItem) (i : Z) (g : string) (k : Z) :
  In k (membersFrom plan i g)
  <-> i <= k < i + Z.of_nat (length plan)
      /\ itemGroupId (at_ plan (k - i)) = g.
Proof.
  revert i. induction plan as [| x plan IH]; intros i; cbn [membersFrom length].
  - split; [intros [] | lia].
  - assert (Hstep : In k (membersFrom plan (i + 1) g)
                    <-> i + 1 <= k < i + 1 + Z.of_nat (length plan)
                        /\ itemGroupId (at_ (x :: plan) (k - i)) = g).
    { rewrite IH. split; intros [Hr Hg]; split; try exact Hr.
      - replace (k - i) with (k - (i + 1) + 1) by lia.
        rewrite at_cons_succ by lia. exact Hg.
      - replace (k - i) with (k - (i + 1) + 1) in Hg by lia.
        rewrite at_cons_succ in Hg by lia. exact Hg. }
    destruct (String.eqb_spec (itemGroupId (Some x)) g) as [Heq | Hne]; cbn [In].
    + rewrite Hstep. split.
      * intros [<- | [Hr Hg]]; [| split; [lia | exact Hg]].
        split; [lia |]. replace (i - i) with 0 by lia. exact Heq.
      * intros [Hr Hg]. destruct (Z.eq_dec i k) as [-> | Hik]; [left; reflexivity |].
        right. split; [lia | exact Hg].
    + rewrite Hstep. split.
      * intros [Hr Hg]. split; [lia | exact Hg].
      * intros [Hr Hg]. destruct (Z.eq_dec i k) as [-> | Hik].
        -- replace (k - k) with 0 in Hg by lia. contradiction.
        -- split; [lia | exact Hg].
Qed.

Lemma membersFrom_sorted (plan : list PlanItem) (i : Z) (g : string) :
  StronglySorted Z.lt (membersFrom plan i g).
Proof.
  revert i. induction plan as [| x plan IH]; intros i; cbn [membersFrom];
    [constructor |].
  destruct (String.eqb (itemGroupId (Some x)) g); [| apply IH].
  constructor; [apply IH |].
  apply Forall_forall. intros k Hk. apply list_elem_of_In, membersFrom_In in Hk. lia.
Qed.

Lemma membersOf_In (plan : list PlanItem) (g : string) (k : Z) :
  In k (membersOf plan g)
  <-> 0 <= k < Z.of_nat (length plan) /\ itemGroupId (at_ plan k) = g.
Proof.
  unfold membersOf. rewrite membersFrom_In. replace (k - 0) with k by lia.
  reflexivity.
Qed.

Lemma membersOf_grouped_In (plan : list PlanItem) (g : string) (k : Z) :
  g <> "" -> In k (membersOf plan g) <-> itemGroupId (at_ plan k) = g.
Proof.
  intros Hg. rewrite membersOf_In. split; [tauto |].
  intros Hk. split; [| exact Hk].
  destruct (at_ plan k) as [item |] eqn:E; [eapply at_Some; eauto |].
  simpl in Hk. congruence.
Qed.

(** ** The getters and the construction of the engine *)

Ltac mrun :=
  unfold bind, ret, throw, this_planItems, completedSets_get, completedSets_set;
  simpl.

Section ExecutorFacts.
Variable StringToNumber : string -> Js.number.

Lemma getTotalSets_run (i : Z) (this : SupersetExecutorV3) :
  getTotalSets StringToNumber i this
  = (Returns (totalSetsAt StringToNumber this i), this).
Proof.
  unfold getTotalSets, totalSetsAt. mrun.
  destruct (at_ (planItems this) i); reflexivity.
Qed.

Lemma getCompletedSets_run (i : Z) (this : SupersetExecutorV3) :
  getCompletedSets i this = (Returns (completedAt this i), this).
Proof. reflexivity. Qed.

Lemma getRemainingSets_run (i : Z) (this : SupersetExecutorV3) :
  getRemainingSets StringToNumber i this
  = (Returns (remainingAt StringToNumber this i), this).
Proof.
  unfold getRemainingSets, bind. rewrite getTotalSets_run.
  rewrite getCompletedSets_run. reflexivity.
Qed.

Lemma groupIdOf_itemGroupId (item : PlanItem) :
  itemGroupId (Some item)
  = if Js.ToBoolean (groupIdOf item) then Js.ToString (groupIdOf item) else "".
Proof.
  unfold itemGroupId, groupIdOf, Js.and_.
  destruct (Js.ToBoolean (groupNumber item)) eqn:E; simpl.
  - destruct (Js.trim (Js.ToString (groupNumber item))); reflexivity.
  - rewrite E. reflexivity.
Qed.

Lemma groupIdOf_truthy (item : PlanItem) :
  Js.ToBoolean (groupIdOf item) = negb (String.eqb (itemGroupId (Some item)) "").
Proof.
  unfold itemGroupId, groupIdOf, Js.and_.
  destruct (Js.ToBoolean (groupNumber item)) eqn:E; simpl; [reflexivity | exact E].
Qed.

Lemma isGrouped_run (i : Z) (this : SupersetExecutorV3) :
  isGrouped i this = (Returns (negb (String.eqb (groupIdAt this i) "")), this).
Proof.
  unfold isGrouped, groupIdAt. mrun.
  destruct (at_ (planItems this) i) as [item |]; [| reflexivity].
  fold (groupIdOf item). rewrite groupIdOf_truthy. reflexivity.
Qed.

(* The loop of initializeCompletionState writes 0 at the indices it visits
   and nothing else. *)
Lemma forEach_zero (items : list PlanItem) (i : Z) (this : SupersetExecutorV3) :
  exists m' : gmap Z Z,
    forEach items i (fun _ index => completedSets_set index 0) this
    = (Returns tt, mkExecutor (planItems this) m')
    /\ forall k : Z,
         m' !! k = if decide (i <= k < i + Z.of_nat (length items))
                   then Some 0 else completedSets this !! k.
Proof.
  revert i this. induction items as [| item rest IH]; intros i this.
  - exists (completedSets this). split; [destruct this; reflexivity |].
    intros k. case_decide; [simpl in *; lia | reflexivity].
  - destruct (IH (i + 1) (mkExecutor (planItems this) (<[i:=0]> (completedSets this))))
      as (m' & Hrun & Hlook).
    exists m'. split.
    + simpl. mrun. exact Hrun.
    + intros k. rewrite Hlook. simpl.
      repeat case_decide; try lia; try reflexivity.
      * assert (k = i) as -> by lia. apply lookup_insert_eq.
      * apply lookup_insert_ne. lia.
Qed.

Lemma initializeCompletionState_run (this : SupersetExecutorV3) :
  exists m' : gmap Z Z,
    initializeCompletionState this = (Returns tt, mkExecutor (planItems this) m')
    /\ forall k : Z,
         m' !! k = if decide (0 <= k < Z.of_nat (length (planItems this)))
                   then Some 0 else completedSets this !! k.
Proof.
  destruct (forEach_zero (planItems this) 0 this) as (m' & Hrun & Hlook).
  exists m'. split; [exact Hrun | exact Hlook].
Qed.

Lemma new_planItems (plan : list PlanItem) : planItems (new plan) = plan.
Proof.
  unfold new.
  destruct (initializeCompletionState_run (mkExecutor plan ∅)) as (m' & -> & _).
  reflexivity.
Qed.

Lemma new_completedSets (plan : list PlanItem) (k : Z) :
  completedSets (new plan) !! k
  = if decide (0 <= k < Z.of_nat (length plan)) then Some 0 else None.
Proof.
  unfold new.
  destruct (initializeCompletionState_run (mkExecutor plan ∅)) as (m' & -> & Hlook).
  simpl. rewrite Hlook. simpl. case_decide; [reflexivity | apply lookup_empty].
Qed.

Lemma completeSet_run (i : Z) (this : SupersetExecutorV3) :
  completeSet StringToNumber i this
  = (Returns tt,
     if completedAt this i <? totalSetsAt StringToNumber this i
     then mkExecutor (planItems this)
                     (<[i := completedAt this i + 1]> (completedSets this))
     else this).
Proof.
  unfold completeSet, bind at 1. simpl. unfold bind. rewrite getTotalSets_run.
  fold (completedAt this i).
  destruct (completedAt this i <? totalSetsAt StringToNumber this i); reflexivity.
Qed.

(** ** The loops over the plan *)

Lemma at_split_head {A : Type} (pre suf : list A) (x : A) :
  at_ (pre ++ x :: suf) (Z.of_nat (length pre)) = Some x.
Proof.
  replace (Z.of_nat (length pre)) with (Z.of_nat (length pre) + 0) by lia.
  rewrite at_app_shift by lia. reflexivity.
Qed.

Lemma getGroupExercises_from_run (g : string) (suf pre : list PlanItem)
    (acc : list Z) (this : SupersetExecutorV3) :
  planItems this = pre ++ suf ->
  getGroupExercises_from g (length suf) (Z.of_nat (length pre)) acc this
  = (Returns (acc ++ membersFrom suf (Z.of_nat (length pre)) g), this).
Proof.
  revert pre acc. induction suf as [| x suf IH]; intros pre acc Hplan.
  - cbn [length getGroupExercises_from membersFrom]. rewrite app_nil_r. reflexivity.
  - cbn [length getGroupExercises_from membersFrom]. unfold bind at 1.
    unfold this_planItems at 1. cbn [fst snd]. rewrite Hplan, at_split_head.
    specialize (IH (pre ++ [x])). rewrite length_app in IH. cbn [length] in IH.
    replace (Z.of_nat (length pre + 1)) with (Z.of_nat (length pre) + 1) in IH by lia.
    destruct (String.eqb (itemGroupId (Some x)) g).
    + rewrite IH by (rewrite Hplan, <- app_assoc; reflexivity).
      rewrite <- app_assoc. reflexivity.
    + rewrite IH by (rewrite Hplan, <- app_assoc; reflexivity). reflexivity.
Qed.

Lemma getGroupExercises_run (groupNumber : Js.value) (this : SupersetExecutorV3) :
  getGroupExercises groupNumber this
  = (Returns (if String.eqb (requestedGroupId groupNumber) ""
              then []
              else membersOf (planItems this) (requestedGroupId groupNumber)),
     this).
Proof.
  assert (Hloop : forall g,
            bind this_planItems
                 (fun items => getGroupExercises_from g (length items) 0 []) this
            = (Returns (membersOf (planItems this) g), this)).
  { intros g. unfold bind, this_planItems. cbn [fst snd].
    apply (getGroupExercises_from_run g (planItems this) [] [] this). reflexivity. }
  unfold getGroupExercises, requestedGroupId.
  destruct groupNumber as [| | b | n | s]; try reflexivity;
    match goal with
    | |- context [String.eqb ?t ""] => destruct (String.eqb t ""); [reflexivity | apply Hloop]
    end.
Qed.

Lemma findNextIncompleteExercise_from_run (suf pre : list PlanItem)
    (this : SupersetExecutorV3) :
  planItems this = pre ++ suf ->
  exists r : option Z,
    findNextIncompleteExercise_from StringToNumber (length suf)
      (Z.of_nat (length pre)) this = (Returns r, this)
    /\ match r with
       | Some j =>
           Z.of_nat (length pre) <= j < Z.of_nat (length pre) + Z.of_nat (length suf)
           /\ incompleteAt StringToNumber this j
           /\ forall k, Z.of_nat (length pre) <= k < j ->
                        ~ incompleteAt StringToNumber this k
       | None =>
           forall k, Z.of_nat (length pre) <= k
                     < Z.of_nat (length pre) + Z.of_nat (length suf) ->
                     ~ incompleteAt StringToNumber this k
       end.
Proof.
  revert pre. induction suf as [| x suf IH]; intros pre Hplan.
  - exists None. split; [reflexivity |]. cbn [length]. intros k Hk. lia.
  - cbn [length findNextIncompleteExercise_from]. unfold bind at 1.
    unfold this_planItems at 1. cbn [fst snd]. rewrite Hplan, at_split_head.
    unfold bind at 1. unfold completedSets_get at 1. cbn [fst snd].
    fold (completedAt this (Z.of_nat (length pre))).
    assert (Htotal : Js.numberOr (Js.ToNumber StringToNumber (sets x)) 1
                     = totalSetsAt StringToNumber this (Z.of_nat (length pre))).
    { unfold totalSetsAt. rewrite Hplan, at_split_head. reflexivity. }
    rewrite Htotal.
    destruct (Z.ltb_spec (completedAt this (Z.of_nat (length pre)))
                (totalSetsAt StringToNumber this (Z.of_nat (length pre))))
      as [Hlt | Hge].
    + exists (Some (Z.of_nat (length pre))). split; [reflexivity |].
      split; [lia |]. split; [exact Hlt |]. intros k Hk. lia.
    + destruct (IH (pre ++ [x])) as (r & Hrun & Hr).
      { rewrite Hplan, <- app_assoc. reflexivity. }
      rewrite length_app in Hrun, Hr. cbn [length] in Hrun, Hr.
      replace (Z.of_nat (length pre + 1)) with (Z.of_nat (length pre) + 1)
        in Hrun, Hr by lia.
      exists r. split; [exact Hrun |].
      assert (Hhere : forall k, Z.of_nat (length pre) <= k ->
                ~ Z.of_nat (length pre) + 1 <= k ->
                ~ incompleteAt StringToNumber this k).
      { intros k H1 H2. assert (k = Z.of_nat (length pre)) as -> by lia.
        unfold incompleteAt. lia. }
      destruct r as [j |].
      * destruct Hr as (Hj & Hinc & Hlow). split; [lia |]. split; [exact Hinc |].
        intros k Hk. destruct (Z_le_dec (Z.of_nat (length pre) + 1) k) as [Hk' | Hk'].
        -- apply Hlow. lia.
        -- apply Hhere; [lia | exact Hk'].
      * intros k Hk. destruct (Z_le_dec (Z.of_nat (length pre) + 1) k) as [Hk' | Hk'].
        -- apply Hr. lia.
        -- apply Hhere; [lia | exact Hk'].
Qed.

Lemma findNextIncompleteExercise_run (this : SupersetExecutorV3) :
  exists r : option Z,
    findNextIncompleteExercise StringToNumber this = (Returns r, this)
    /\ match r with
       | Some j => lowestIncomplete StringToNumber this j
       | None =>
           forall k, 0 <= k < Z.of_nat (length (planItems this)) ->
                     ~ incompleteAt StringToNumber this k
       end.
Proof.
  destruct (findNextIncompleteExercise_from_run (planItems this) [] this eq_refl)
    as (r & Hrun & Hr).
  exists r. split; [exact Hrun |].
  cbn [length] in Hr. destruct r as [j |]; [| exact Hr].
  destruct Hr as (Hj & Hinc & Hlow). repeat split; try lia; assumption.
Qed.

Lemma lowestIncomplete_unique (this : SupersetExecutorV3) (j j' : Z) :
  lowestIncomplete StringToNumber this j ->
  lowestIncomplete StringToNumber this j' -> j = j'.
Proof.
  intros (Hj & Hinc & Hlow) (Hj' & Hinc' & Hlow').
  destruct (Z.lt_trichotomy j j') as [Hlt | [Heq | Hgt]]; [| exact Heq |].
  - exfalso. apply (Hlow' j); [lia | exact Hinc].
  - exfalso. apply (Hlow j'); [lia | exact Hinc'].
Qed.

(* A group member as getNextAction reports it. *)
Lemma groupInfoOf_run (idx : Z) (item : PlanItem) (this : SupersetExecutorV3) :
  at_ (planItems this) idx = Some item ->
  groupInfoOf StringToNumber idx this
  = (Returns (mkMember idx (Js.or_ (name item) (Js.Str "Exercise"))
                (totalSetsAt StringToNumber this idx) (completedAt this idx)
                (remainingAt StringToNumber this idx)),
     this).
Proof.
  intros Hat. unfold groupInfoOf, bind at 1. unfold this_planItems at 1.
  cbn [fst snd]. rewrite Hat. unfold bind. rewrite getTotalSets_run.
  rewrite getCompletedSets_run, getRemainingSets_run. reflexivity.
Qed.

Lemma mapM_groupInfoOf_run (idxs : list Z) (this : SupersetExecutorV3) :
  (forall idx, In idx idxs -> 0 <= idx < Z.of_nat (length (planItems this))) ->
  exists ms : list GroupMember,
    mapM (groupInfoOf StringToNumber) idxs this = (Returns ms, this)
    /\ map m_index ms = idxs
    /\ Forall (fun m =>
                 m_totalSets m = totalSetsAt StringToNumber this (m_index m)
                 /\ m_completedSets m = completedAt this (m_index m)
                 /\ m_remainingSets m = remainingAt StringToNumber this (m_index m))
              ms.
Proof.
  induction idxs as [| idx idxs IH]; intros Hrange.
  - exists []. repeat split. constructor.
  - destruct IH as (ms & Hrun & Hidx & Hstats).
    { intros k Hk. apply Hrange. right. exact Hk. }
    destruct (at_in_range (planItems this) idx) as [item Hat].
    { apply Hrange. left. reflexivity. }
    eexists (_ :: ms). split; [| split].
    + cbn [mapM]. unfold bind at 1. rewrite (groupInfoOf_run idx item this Hat).
      unfold bind at 1. rewrite Hrun. reflexivity.
    + cbn [map m_index]. rewrite Hidx. reflexivity.
    + constructor; [| exact Hstats]. cbn. repeat split.
Qed.

(** ** getNextAction *)

Lemma getNextAction_complete (this : SupersetExecutorV3) :
  (forall k, 0 <= k < Z.of_nat (length (planItems this)) ->
             ~ incompleteAt StringToNumber this k) ->
  getNextAction StringToNumber this = (Returns Complete, this).
Proof.
  intros Hall. destruct (findNextIncompleteExercise_run this) as (r & Hrun & Hr).
  unfold getNextAction, bind at 1. rewrite Hrun.
  destruct r as [j |]; [| reflexivity].
  destruct Hr as (Hj & Hinc & _). exfalso. exact (Hall j Hj Hinc).
Qed.

Lemma getNextAction_at_lowest (this : SupersetExecutorV3) (j : Z) :
  lowestIncomplete StringToNumber this j ->
  findNextIncompleteExercise StringToNumber this = (Returns (Some j), this).
Proof.
  intros Hlow. destruct (findNextIncompleteExercise_run this) as (r & Hrun & Hr).
  rewrite Hrun. destruct r as [j' |].
  - rewrite (lowestIncomplete_unique this j j' Hlow Hr). reflexivity.
  - destruct Hlow as (Hj & Hinc & _). exfalso. exact (Hr j Hj Hinc).
Qed.

Lemma getNextAction_ungrouped (this : SupersetExecutorV3) (j : Z) :
  lowestIncomplete StringToNumber this j ->
  groupIdAt this j = "" ->
  getNextAction StringToNumber this
  = (Returns (ExerciseStart j (completedAt this j + 1) true 1), this).
Proof.
  intros Hlow Hg. unfold getNextAction, bind at 1.
  rewrite (getNextAction_at_lowest this j Hlow).
  unfold bind at 1. unfold this_planItems at 1. cbn [fst snd].
  unfold bind at 1. rewrite isGrouped_run, Hg. reflexivity.
Qed.

Lemma getNextAction_grouped (this : SupersetExecutorV3) (j : Z) :
  lowestIncomplete StringToNumber this j ->
  groupIdAt this j <> "" ->
  exists ms : list GroupMember,
    getNextAction StringToNumber this
    = (Returns (GroupSupersetStart (groupIdAt this j) ms j), this)
    /\ map m_index ms = membersOf (planItems this) (groupIdAt this j)
    /\ Forall (fun m =>
                 m_totalSets m = totalSetsAt StringToNumber this (m_index m)
                 /\ m_completedSets m = completedAt this (m_index m)
                 /\ m_remainingSets m = remainingAt StringToNumber this (m_index m))
              ms.
Proof.
  intros Hlow Hg.
  destruct (at_in_range (planItems this) j) as [item Hat]; [apply Hlow |].
  assert (Hid : groupIdAt this j = Js.trim (Js.ToString (groupNumber item))
                /\ requestedGroupId (groupNumber item) = groupIdAt this j).
  { unfold groupIdAt in *. rewrite Hat in *. unfold itemGroupId in *.
    destruct (Js.ToBoolean (groupNumber item)) eqn:Etruthy; [| congruence].
    split; [reflexivity |].
    destruct (groupNumber item); try reflexivity; discriminate. }
  destruct Hid as [Hid Hreq].
  destruct (mapM_groupInfoOf_run (membersOf (planItems this) (groupIdAt this j)) this)
    as (ms & Hrun & Hidx & Hstats).
  { intros k Hk. apply membersOf_In in Hk. tauto. }
  exists ms. split; [| split; assumption].
  unfold getNextAction, bind at 1. rewrite (getNextAction_at_lowest this j Hlow).
  unfold bind at 1. unfold this_planItems at 1. cbn [fst snd].
  unfold bind at 1. rewrite isGrouped_run.
  destruct (String.eqb_spec (groupIdAt this j) "") as [Heq | _]; [contradiction |].
  cbn [negb]. rewrite Hat. unfold bind at 1. rewrite getGroupExercises_run, Hreq.
  destruct (String.eqb_spec (groupIdAt this j) "") as [Heq | _]; [contradiction |].
  unfold bind at 1. rewrite Hrun. rewrite <- Hid. reflexivity.
Qed.

(* getNextAction always returns, and leaves the engine as it was. *)
Lemma getNextAction_returns (this : SupersetExecutorV3) :
  exists a : Action, getNextAction StringToNumber this = (Returns a, this).
Proof.
  destruct (findNextIncompleteExercise_run this) as ([j |] & Hrun & Hr).
  - destruct (String.eqb_spec (groupIdAt this j) "") as [Heq | Hne].
    + eexists. apply getNextAction_ungrouped; eassumption.
    + destruct (getNextAction_grouped this j Hr Hne) as (ms & H & _). eauto.
  - eexists. apply getNextAction_complete. exact Hr.
Qed.

Lemma getNextAction_complete_iff (this : SupersetExecutorV3) :
  fst (getNextAction StringToNumber this) = Returns Complete
  <-> forall k, 0 <= k < Z.of_nat (length (planItems this)) ->
                ~ incompleteAt StringToNumber this k.
Proof.
  split.
  - intros Hc. destruct (findNextIncompleteExercise_run this) as ([j |] & _ & Hr);
      [| exact Hr].
    exfalso. destruct (String.eqb_spec (groupIdAt this j) "") as [Heq | Hne].
    + rewrite (getNextAction_ungrouped this j Hr Heq) in Hc. discriminate.
    + destruct (getNextAction_grouped this j Hr Hne) as (ms & H & _).
      rewrite H in Hc. discriminate.
  - intros Hall. rewrite (getNextAction_complete this Hall). reflexivity.
Qed.

(** ** Rounds of a group *)

Lemma anyRemaining_break_run (idxs : list Z) (this : SupersetExecutorV3) :
  anyRemaining_break StringToNumber idxs this
  = (Returns (existsb (fun idx => 0 <? remainingAt StringToNumber this idx) idxs),
     this).
Proof.
  induction idxs as [| idx idxs IH]; [reflexivity |].
  cbn [anyRemaining_break existsb]. unfold bind. rewrite getRemainingSets_run.
  destruct (0 <? remainingAt StringToNumber this idx); [reflexivity | exact IH].
Qed.

Lemma anyRemaining_scan_returns (idxs : list Z) (b : bool)
    (this : SupersetExecutorV3) :
  exists b' : bool,
    forOf idxs b (fun anyRemaining idx =>
      bind (getRemainingSets StringToNumber idx) (fun remaining =>
        if 0 <? remaining then ret true else ret anyRemaining)) this
    = (Returns b', this).
Proof.
  revert b. induction idxs as [| idx idxs IH]; intros b; [eexists; reflexivity |].
  cbn [forOf]. unfold bind at 1. unfold bind at 1. rewrite getRemainingSets_run.
  destruct (0 <? remainingAt StringToNumber this idx); apply IH.
Qed.

Lemma nextInGroup_returns (idxs : list Z) (this : SupersetExecutorV3) :
  exists a : Action, nextInGroup StringToNumber idxs this = (Returns a, this).
Proof.
  induction idxs as [| idx idxs IH]; [eexists; reflexivity |].
  cbn [nextInGroup]. unfold bind at 1. rewrite getRemainingSets_run.
  destruct (0 <? remainingAt StringToNumber this idx); [| exact IH].
  eexists. reflexivity.
Qed.

Lemma getNextGroupAction_returns (g : Js.value) (this : SupersetExecutorV3) :
  exists a : Action, getNextGroupAction StringToNumber g this = (Returns a, this).
Proof.
  unfold getNextGroupAction, bind at 1. rewrite getGroupExercises_run.
  unfold bind at 1, anyRemaining_scan.
  match goal with
  | |- context [forOf ?l false ?f this] =>
      destruct (anyRemaining_scan_returns l false this) as (b & ->)
  end.
  destruct b; cbn [negb]; [apply nextInGroup_returns | eexists; reflexivity].
Qed.

Lemma completeGroupRound_run (last : Z) (g : Js.value) (this : SupersetExecutorV3) :
  forall members : list Z,
    getGroupExercises g this = (Returns members, this) ->
    completeGroupRound StringToNumber last g this
    = (Returns
         (if existsb (fun idx => 0 <? remainingAt StringToNumber this idx) members
          then RestThenContinue (head members)
                 (Js.numberOr (Js.ToNumber StringToNumber (restSecAt this last)) 60)
                 last
          else GroupComplete),
       this).
Proof.
  intros members Hmem. unfold completeGroupRound, bind at 1. rewrite Hmem.
  unfold bind at 1. rewrite anyRemaining_break_run.
  destruct (existsb _ members); reflexivity.
Qed.

(** ** Reachable engine objects *)

Lemma wellFormed_new (plan : list PlanItem) :
  wellFormed StringToNumber plan (new plan).
Proof.
  split; [apply new_planItems |].
  intros k. rewrite new_completedSets. case_decide; [| assumption].
  split; [assumption | lia].
Qed.

Lemma completedAt_nonneg (plan : list PlanItem) (this : SupersetExecutorV3) (k : Z) :
  wellFormed StringToNumber plan this -> 0 <= completedAt this k.
Proof.
  intros [_ Hwf]. specialize (Hwf k). unfold completedAt.
  destruct (completedSets this !! k); simpl; lia.
Qed.

Lemma completedAt_bounded (plan : list PlanItem) (this : SupersetExecutorV3) (k : Z) :
  wellFormed StringToNumber plan this ->
  completedAt this k <= Z.max 0 (totalSetsAt StringToNumber this k).
Proof.
  intros [_ Hwf]. specialize (Hwf k). unfold completedAt.
  destruct (completedSets this !! k); simpl; lia.
Qed.

Lemma totalSetsAt_absent (this : SupersetExecutorV3) (i : Z) :
  at_ (planItems this) i = None -> totalSetsAt StringToNumber this i = 0.
Proof. intros H. unfold totalSetsAt. rewrite H. reflexivity. Qed.

Lemma wellFormed_completeSet (plan : list PlanItem) (this : SupersetExecutorV3)
    (i : Z) :
  wellFormed StringToNumber plan this ->
  wellFormed StringToNumber plan (snd (completeSet StringToNumber i this)).
Proof.
  intros Hwf. rewrite completeSet_run. cbn [snd].
  destruct (Z.ltb_spec (completedAt this i) (totalSetsAt StringToNumber this i))
    as [Hlt | Hge]; [| exact Hwf].
  pose proof (completedAt_nonneg plan this i Hwf) as Hnn.
  destruct Hwf as [Hplan Hwf]. split; [exact Hplan |].
  assert (Hin : 0 <= i < Z.of_nat (length plan)).
  { destruct (at_ (planItems this) i) as [item |] eqn:E.
    - rewrite <- Hplan. eapply at_Some; eauto.
    - rewrite (totalSetsAt_absent this i E) in Hlt. lia. }
  intros k. cbn [completedSets]. destruct (Z.eq_dec i k) as [<- | Hne].
  - rewrite lookup_insert_eq. split; [exact Hin |].
    change (totalSetsAt StringToNumber
              (mkExecutor (planItems this)
                 (<[i:=completedAt this i + 1]> (completedSets this))) i)
      with (totalSetsAt StringToNumber this i).
    lia.
  - rewrite lookup_insert_ne by exact Hne. exact (Hwf k).
Qed.

Lemma reset_new (plan : list PlanItem) (this : SupersetExecutorV3) :
  wellFormed StringToNumber plan this -> snd (reset this) = new plan.
Proof.
  intros [Hplan Hwf]. unfold reset, new.
  destruct (initializeCompletionState_run this) as (m1 & -> & H1).
  destruct (initializeCompletionState_run (mkExecutor plan ∅)) as (m2 & -> & H2).
  cbn [snd planItems completedSets] in *. rewrite Hplan in *. f_equal.
  apply map_eq. intros k. rewrite H1, H2. case_decide; [reflexivity |].
  rewrite lookup_empty. specialize (Hwf k).
  destruct (completedSets this !! k); [tauto | reflexivity].
Qed.

(* Every call but completeSet and reset leaves the engine object as it was. *)
Lemma after_query (c : Call) (this : SupersetExecutorV3) :
  (forall i, c <> Call_completeSet i) -> c <> Call_reset ->
  after StringToNumber c this = this.
Proof.
  intros Hset Hreset.
  destruct c as [| g | i | i | i | i | i | | g | i g |]; cbn [after].
  - destruct (findNextIncompleteExercise_run this) as (r & -> & _). reflexivity.
  - rewrite getGroupExercises_run. reflexivity.
  - rewrite isGrouped_run. reflexivity.
  - rewrite getTotalSets_run. reflexivity.
  - reflexivity.
  - rewrite getRemainingSets_run. reflexivity.
  - exfalso. exact (Hset i eq_refl).
  - destruct (getNextAction_returns this) as (a & ->). reflexivity.
  - destruct (getNextGroupAction_returns g this) as (a & ->). reflexivity.
  - rewrite (completeGroupRound_run _ _ _ _ (getGroupExercises_run g this)).
    reflexivity.
  - exfalso. exact (Hreset eq_refl).
Qed.

Lemma reachable_wellFormed (plan : list PlanItem) (this : SupersetExecutorV3) :
  reachable StringToNumber plan this -> wellFormed StringToNumber plan this.
Proof.
  induction 1 as [| c this Hreach IH]; [apply wellFormed_new |].
  destruct c;
    try (rewrite after_query; [exact IH | intros i; discriminate | discriminate]).
  - apply wellFormed_completeSet. exact IH.
  - cbn [after]. rewrite (reset_new plan this IH). apply wellFormed_new.
Qed.

(** ** Results on the engine *)







(** C9.  On every reachable engine object, getNextAction,
    getGroupExercises, isGrouped, getNextGroupAction and completeGroupRound
    return the engine object unchanged; a call that changes the
    completedSets map is a completeSet or a reset; and after reset the map
    holds 0 at every plan index and nothing else, which is the state of a
    freshly constructed engine. *)
Theorem C9_only_completeSet_and_reset_write
    (plan : list PlanItem) (this : SupersetExecutorV3) :
  reachable StringToNumber plan this ->
  snd (getNextAction StringToNumber this) = this
  /\ (forall g, snd (getGroupExercises g this) = this)
  /\ (forall i, snd (isGrouped i this) = this)
  /\ (forall g, snd (getNextGroupAction StringToNumber g this) = this)
  /\ (forall i g, snd (completeGroupRound StringToNumber i g this) = this)
  /\ (forall c : Call,
        completedSets (after StringToNumber c this) <> completedSets this ->
        (exists i, c = Call_completeSet i) \/ c = Call_reset)
  /\ (forall k : Z,
        completedSets (snd (reset this)) !! k
        = if decide (0 <= k < Z.of_nat (length plan)) then Some 0 else None)
  /\ snd (reset this) = new plan.
Proof.
  intros Hreach. apply reachable_wellFormed in Hreach.
  split; [exact (after_query Call_getNextAction this
                   ltac:(intros; discriminate) ltac:(discriminate)) |].
  split; [intros g; exact (after_query (Call_getGroupExercises g) this
                             ltac:(intros; discriminate) ltac:(discriminate)) |].
  split; [intros i; exact (after_query (Call_isGrouped i) this
                             ltac:(intros; discriminate) ltac:(discriminate)) |].
  split; [intros g; exact (after_query (Call_getNextGroupAction g) this
                             ltac:(intros; discriminate) ltac:(discriminate)) |].
  split; [intros i g; exact (after_query (Call_completeGroupRound i g) this
                               ltac:(intros; discriminate) ltac:(discriminate)) |].
  split; [| split].
  - intros c Hchanged.
    destruct c as [| g | i | i | i | i | i | | g | i g |];
      try (exfalso; apply Hchanged; rewrite after_query;
           [reflexivity | intros; discriminate | discriminate]).
    + left. exists i. reflexivity.
    + right. reflexivity.
  - intros k. rewrite (reset_new plan this Hreach). apply new_completedSets.
  - apply reset_new. exact Hreach.
Qed.

(** C10.  On a reachable engine object, for an index at which the plan has
    no item (below 0, or at or beyond its length), getTotalSets returns 0 and
    completeSet returns without changing the engine object: the map has no
    entry for the index before the call and none after. *)
Theorem C10_completeSet_outside_plan
    (plan : list PlanItem) (this : SupersetExecutorV3) (i : Z) :
  reachable StringToNumber plan this ->
  at_ (planItems this) i = None ->
  getTotalSets StringToNumber i this = (Returns 0, this)
  /\ completeSet StringToNumber i this = (Returns tt, this)
  /\ completedSets this !! i = None
  /\ completedSets (snd (completeSet StringToNumber i this)) !! i = None.
Proof.
  intros Hreach Habsent. apply reachable_wellFormed in Hreach.
  assert (Hnone : completedSets this !! i = None).
  { destruct Hreach as [Hplan Hwf]. specialize (Hwf i).
    destruct (completedSets this !! i); [| reflexivity].
    apply at_None in Habsent. rewrite Hplan in Habsent. lia. }
  assert (Hrun : completeSet StringToNumber i this = (Returns tt, this)).
  { rewrite completeSet_run, (totalSetsAt_absent this i Habsent).
    unfold completedAt. rewrite Hnone. reflexivity. }
  split; [rewrite getTotalSets_run, (totalSetsAt_absent this i Habsent);
          reflexivity |].
  split; [exact Hrun |]. split; [exact Hnone |]. rewrite Hrun. exact Hnone.
Qed.

(** ** What the engine does on every plan *)

(* The counters of a reachable engine: never negative, never above a
   positive total, moved by completeSet one step at a time and only up. *)
Lemma completeSet_counts (plan : list PlanItem) (this : SupersetExecutorV3)
    (i k : Z) :
  reachable StringToNumber plan this ->
  0 <= completedAt this k <= Z.max 0 (totalSetsAt StringToNumber this k)
  /\ completedAt this k <= completedAt (snd (completeSet StringToNumber i this)) k
  /\ (completedAt this i < totalSetsAt StringToNumber this i ->
      completedAt (snd (completeSet StringToNumber i this)) i
      = completedAt this i + 1)
  /\ (~ completedAt this i < totalSetsAt StringToNumber this i ->
      completeSet StringToNumber i this = (Returns tt, this)).
Proof.
  intros Hreach. apply reachable_wellFormed in Hreach.
  split; [split; [eapply completedAt_nonneg | eapply completedAt_bounded];
          eassumption |].
  rewrite completeSet_run. cbn [snd].
  destruct (Z.ltb_spec (completedAt this i) (totalSetsAt StringToNumber this i))
    as [Hlt | Hge].
  - split; [| split; [| intros Hn; contradiction]].
    + unfold completedAt at 2. cbn [completedSets].
      destruct (Z.eq_dec i k) as [<- | Hne].
      * rewrite lookup_insert_eq. simpl. lia.
      * rewrite lookup_insert_ne by exact Hne. fold (completedAt this k). lia.
    + intros _. unfold completedAt at 1. cbn [completedSets].
      rewrite lookup_insert_eq. reflexivity.
  - split; [lia |]. split; [intros Hlt; lia | reflexivity].
Qed.

(* With totals of at least one set, the plan is reported complete exactly
   when every counter has reached its total. *)
Lemma getNextAction_complete_when_all_done (plan : list PlanItem)
    (this : SupersetExecutorV3) :
  reachable StringToNumber plan this ->
  (forall k, 0 <= k < Z.of_nat (length plan) ->
             1 <= totalSetsAt StringToNumber this k) ->
  fst (getNextAction StringToNumber this) = Returns Complete
  <-> forall k, 0 <= k < Z.of_nat (length plan) ->
                completedAt this k = totalSetsAt StringToNumber this k.
Proof.
  intros Hreach Hpos. apply reachable_wellFormed in Hreach.
  rewrite getNextAction_complete_iff. destruct Hreach as [Hplan Hwf].
  rewrite Hplan. split; intros Hall k Hk.
  - specialize (Hall k Hk). specialize (Hpos k Hk).
    pose proof (completedAt_bounded plan this k (conj Hplan Hwf)).
    unfold incompleteAt in Hall. lia.
  - unfold incompleteAt. rewrite (Hall k Hk). lia.
Qed.

(* The rest between two rounds is read from the item at
   [lastExerciseIndex] alone: its restSec as a number, and 60 when that
   number is NaN or 0. *)
Lemma completeGroupRound_restSeconds (this : SupersetExecutorV3)
    (lastExerciseIndex : Z) (groupNumber : Js.value) (action : Action) :
  fst (completeGroupRound StringToNumber lastExerciseIndex groupNumber this)
  = Returns action ->
  action <> GroupComplete ->
  exists first : option Z,
    action
    = RestThenContinue first
        (match Js.ToNumber StringToNumber (restSecAt this lastExerciseIndex) with
         | Js.NaN => 60
         | Js.Int z => if z =? 0 then 60 else z
         end)
        lastExerciseIndex.
Proof.
  rewrite (completeGroupRound_run _ _ _ _ (getGroupExercises_run groupNumber this)).
  cbn [fst]. destruct (existsb _ _); intros [= <-] Hne; [| contradiction].
  eexists. reflexivity.
Qed.

End ExecutorFacts.

(** ** The first pass of the validator *)

Lemma groupMap_has_In (m : GroupMap) (k : string) :
  groupMap_has m k = true <-> In k (map fst m).
Proof.
  induction m as [| [k' info] m IH]; cbn [groupMap_has map fst In].
  - split; [discriminate | tauto].
  - destruct (String.eqb_spec k' k) as [-> | Hne].
    + split; [intros _; left; reflexivity | reflexivity].
    + rewrite IH. split; [tauto |]. intros [Heq | Hin]; [contradiction | exact Hin].
Qed.

Lemma groupMap_has_app (m : GroupMap) (k k' : string) (info : GroupInfo) :
  groupMap_has (groupMap_set m k' info) k
  = (groupMap_has m k || String.eqb k' k)%bool.
Proof.
  unfold groupMap_set.
  induction m as [| [k0 info0] m IH]; cbn [groupMap_has app].
  - destruct (String.eqb k' k); reflexivity.
  - destruct (String.eqb k0 k); [reflexivity | exact IH].
Qed.

Lemma groupMap_extend_keys (m : GroupMap) (k : string) (i : Z) :
  map fst (groupMap_extend m k i) = map fst m.
Proof.
  induction m as [| [k' info] m IH]; cbn [groupMap_extend map fst]; [reflexivity |].
  destruct (String.eqb k' k); cbn [map fst]; [reflexivity | rewrite IH; reflexivity].
Qed.

Lemma groupMap_extend_In (m : GroupMap) (k : string) (i : Z) (g : string)
    (info' : GroupInfo) :
  NoDup (map fst m) ->
  In (g, info') (groupMap_extend m k i) ->
  (g <> k /\ In (g, info') m)
  \/ (g = k /\ exists info, In (k, info) m
                /\ info' = mkGroupInfo (firstIndex info) i (indices info ++ [i])).
Proof.
  induction m as [| [k' info] m IH]; cbn [groupMap_extend In map fst];
    [tauto |].
  intros Hnodup. apply NoDup_cons in Hnodup. destruct Hnodup as [Hfresh Hnodup].
  destruct (String.eqb_spec k' k) as [-> | Hne]; cbn [In].
  - intros [[= <- <-] | Hin].
    + right. split; [reflexivity |]. exists info. split; [left |]; reflexivity.
    + left. split; [| right; exact Hin].
      intros ->. apply Hfresh. apply list_elem_of_In.
      exact (in_map fst m (k, info') Hin).
  - intros [[= <- <-] | Hin].
    + left. split; [exact Hne | left; reflexivity].
    + destruct (IH Hnodup Hin) as [[Hgk Hold] | (-> & info0 & Hold & ->)].
      * left. split; [exact Hgk | right; exact Hold].
      * right. split; [reflexivity |]. exists info0. split; [right; exact Hold |].
        reflexivity.
Qed.

Lemma membersOf_snoc (pre : list PlanItem) (x : PlanItem) (g : string) :
  membersOf (pre ++ [x]) g
  = membersOf pre g
    ++ (if String.eqb (itemGroupId (Some x)) g then [Z.of_nat (length pre)] else []).
Proof.
  unfold membersOf. rewrite membersFrom_app. cbn [membersFrom].
  replace (0 + Z.of_nat (length pre)) with (Z.of_nat (length pre)) by lia.
  destruct (String.eqb (itemGroupId (Some x)) g); reflexivity.
Qed.

Lemma membersOf_snoc_other (pre : list PlanItem) (x : PlanItem) (g : string) :
  itemGroupId (Some x) <> g -> membersOf (pre ++ [x]) g = membersOf pre g.
Proof.
  intros Hne. rewrite membersOf_snoc.
  destruct (String.eqb_spec (itemGroupId (Some x)) g); [contradiction |].
  apply app_nil_r.
Qed.

Lemma membersOf_snoc_same (pre : list PlanItem) (x : PlanItem) :
  membersOf (pre ++ [x]) (itemGroupId (Some x))
  = membersOf pre (itemGroupId (Some x)) ++ [Z.of_nat (length pre)].
Proof. rewrite membersOf_snoc, String.eqb_refl. reflexivity. Qed.

Lemma infoOf_snoc (ms : list Z) (i : Z) :
  ms <> [] ->
  mkGroupInfo (firstIndex (infoOf ms)) i (indices (infoOf ms) ++ [i])
  = infoOf (ms ++ [i]).
Proof.
  intros Hne. unfold infoOf. cbn [firstIndex indices].
  rewrite List.last_last. destruct ms as [| a ms]; [contradiction | reflexivity].
Qed.

Lemma recorded_nil : recorded [] [].
Proof.
  split; [constructor |]. split; [intros g info [] |].
  intros g _ Hne. exfalso. apply Hne. reflexivity.
Qed.

Lemma recorded_step (pre : list PlanItem) (x : PlanItem) (groupMap : GroupMap) :
  recorded pre groupMap ->
  recorded (pre ++ [x]) (recordItem groupMap x (Z.of_nat (length pre))).
Proof.
  intros (Hnodup & Hentries & Hhas). unfold recordItem.
  rewrite groupIdOf_truthy.
  pose proof (groupIdOf_itemGroupId x) as Hkey. rewrite groupIdOf_truthy in Hkey.
  destruct (String.eqb_spec (itemGroupId (Some x)) "") as [Hblank | Hgrouped];
    cbn [negb] in *.
  - (* an ungrouped item: the map is not touched *)
    split; [exact Hnodup |]. split.
    + intros g info Hin. destruct (Hentries g info Hin) as (Hg & Hms & Hinfo).
      rewrite membersOf_snoc_other by congruence. auto.
    + intros g Hg Hms. apply Hhas; [exact Hg |].
      rewrite membersOf_snoc_other in Hms by congruence. exact Hms.
  - rewrite <- Hkey. set (k := itemGroupId (Some x)) in *.
    destruct (groupMap_has groupMap k) eqn:Ehas; cbn [negb].
    + (* a further member of a known group *)
      split; [rewrite groupMap_extend_keys; exact Hnodup |]. split.
      * intros g info' Hin.
        destruct (groupMap_extend_In _ _ _ _ _ Hnodup Hin)
          as [[Hgk Hold] | (-> & info & Hold & ->)].
        -- destruct (Hentries g info' Hold) as (Hg & Hms & Hinfo).
           rewrite membersOf_snoc_other by (subst k; congruence). auto.
        -- destruct (Hentries k info Hold) as (Hg & Hms & ->).
           split; [exact Hg |]. subst k. rewrite membersOf_snoc_same.
           split; [intros Hnil; apply app_eq_nil in Hnil; tauto |].
           apply infoOf_snoc. exact Hms.
      * intros g Hg Hms. apply groupMap_has_In. rewrite groupMap_extend_keys.
        apply groupMap_has_In. destruct (String.eqb_spec k g) as [<- | Hkg];
          [exact Ehas |].
        apply Hhas; [exact Hg |].
        rewrite membersOf_snoc_other in Hms by exact Hkg. exact Hms.
    + (* the first member of a new group *)
      assert (Hnone : membersOf pre k = []).
      { destruct (membersOf pre k) eqn:Em; [reflexivity |].
        rewrite Hhas in Ehas; [discriminate | exact Hgrouped |].
        rewrite Em. discriminate. }
      assert (Hfresh : ~ In k (map fst groupMap)).
      { rewrite <- groupMap_has_In, Ehas. discriminate. }
      split; [| split].
      * unfold groupMap_set. rewrite map_app. cbn [map fst].
        apply NoDup_app. split; [exact Hnodup |]. split; [| apply NoDup_singleton].
        intros g Hg Hg'. apply list_elem_of_In in Hg, Hg'.
        destruct Hg' as [<- | []]. contradiction.
      * intros g info Hin. unfold groupMap_set in Hin. apply in_app_or in Hin.
        destruct Hin as [Hold | [[= <- <-] | []]].
        -- destruct (Hentries g info Hold) as (Hg & Hms & Hinfo).
           assert (Hgk : k <> g).
           { intros <-. apply Hfresh. exact (in_map fst groupMap _ Hold). }
           rewrite membersOf_snoc_other by exact Hgk. auto.
        -- split; [exact Hgrouped |]. subst k. rewrite membersOf_snoc_same, Hnone.
           split; [discriminate | reflexivity].
      * intros g Hg Hms. rewrite groupMap_has_app.
        destruct (String.eqb_spec k g) as [<- | Hkg]; [apply orb_true_r |].
        rewrite Hhas; [reflexivity | exact Hg |].
        rewrite membersOf_snoc_other in Hms by exact Hkg. exact Hms.
Qed.

Lemma firstPass_recorded (suf pre : list PlanItem) (groupMap : GroupMap) :
  recorded pre groupMap ->
  recorded (pre ++ suf) (firstPass suf (Z.of_nat (length pre)) groupMap).
Proof.
  revert pre groupMap. induction suf as [| x suf IH]; intros pre groupMap Hrec.
  - rewrite app_nil_r. exact Hrec.
  - cbn [firstPass]. specialize (IH (pre ++ [x])). rewrite length_app in IH.
    cbn [length] in IH.
    replace (Z.of_nat (length pre + 1)) with (Z.of_nat (length pre) + 1) in IH by lia.
    replace (pre ++ x :: suf) with ((pre ++ [x]) ++ suf)
      by (rewrite <- app_assoc; reflexivity).
    apply IH, recorded_step, Hrec.
Qed.

Lemma firstPass_plan (plan : list PlanItem) : recorded plan (firstPass plan 0 []).
Proof. exact (firstPass_recorded plan [] [] recorded_nil). Qed.

(** ** The second pass of the validator *)

Lemma flagged_test (info : GroupInfo) :
  negb (Z.of_nat (length (indices info)) =? lastIndex info - firstIndex info + 1)
  = true <-> flagged info.
Proof.
  unfold flagged. rewrite negb_true_iff, Z.eqb_neq. reflexivity.
Qed.

Lemma secondPass_acc (plan : list PlanItem) (groupMap : GroupMap)
    (acc : list Issue) :
  secondPass plan groupMap acc = acc ++ secondPass plan groupMap [].
Proof.
  revert acc. induction groupMap as [| [g info] rest IH]; intros acc;
    cbn [secondPass].
  - rewrite app_nil_r. reflexivity.
  - destruct (negb _).
    + rewrite IH, (IH ([] ++ _)). cbn [app]. rewrite <- app_assoc. reflexivity.
    + apply IH.
Qed.

Lemma secondPass_cons (plan : list PlanItem) (g : string) (info : GroupInfo)
    (rest : GroupMap) :
  secondPass plan ((g, info) :: rest) []
  = (if negb (Z.of_nat (length (indices info))
              =? lastIndex info - firstIndex info + 1)
     then [issueFor plan g info] else [])
    ++ secondPass plan rest [].
Proof.
  cbn [secondPass]. destruct (negb _); [| reflexivity].
  cbn [app]. apply secondPass_acc.
Qed.

Lemma secondPass_In (plan : list PlanItem) (groupMap : GroupMap) (issue : Issue) :
  In issue (secondPass plan groupMap []) ->
  exists g info,
    In (g, info) groupMap /\ flagged info /\ issue = issueFor plan g info.
Proof.
  induction groupMap as [| [g info] rest IH]; [intros [] |].
  rewrite secondPass_cons. intros Hin. apply in_app_or in Hin.
  destruct Hin as [Hhere | Hrest].
  - destruct (negb _) eqn:E; [| destruct Hhere].
    destruct Hhere as [<- | []]. exists g, info.
    split; [left; reflexivity |]. split; [apply flagged_test; exact E | reflexivity].
  - destruct (IH Hrest) as (g' & info' & Hin & Hf & Heq).
    exists g', info'. split; [right; exact Hin | split; assumption].
Qed.

Lemma issuesFor_app (g : string) (a b : list Issue) :
  issuesFor g (a ++ b) = issuesFor g a ++ issuesFor g b.
Proof. unfold issuesFor. apply List.filter_app. Qed.

Lemma issuesFor_absent (plan : list PlanItem) (groupMap : GroupMap) (g : string) :
  ~ In g (map fst groupMap) -> issuesFor g (secondPass plan groupMap []) = [].
Proof.
  intros Habsent. unfold issuesFor.
  destruct (List.filter _ _) as [| issue rest] eqn:E; [reflexivity |].
  assert (Hin : In issue (List.filter
                            (fun issue => String.eqb (groupId issue) g)
                            (secondPass plan groupMap []))).
  { rewrite E. left. reflexivity. }
  apply List.filter_In in Hin. destruct Hin as [Hin Hg].
  apply String.eqb_eq in Hg.
  destruct (secondPass_In plan groupMap issue Hin) as (g' & info & Hentry & _ & ->).
  cbn [issueFor groupId] in Hg. subst g'. exfalso. apply Habsent.
  exact (in_map fst groupMap _ Hentry).
Qed.

Lemma issuesFor_present (plan : list PlanItem) (groupMap : GroupMap) (g : string)
    (info : GroupInfo) :
  NoDup (map fst groupMap) ->
  In (g, info) groupMap ->
  (flagged info ->
   issuesFor g (secondPass plan groupMap []) = [issueFor plan g info])
  /\ (~ flagged info -> issuesFor g (secondPass plan groupMap []) = []).
Proof.
  induction groupMap as [| [g' info'] rest IH]; [intros _ [] |].
  cbn [map fst]. intros Hnodup Hin. apply NoDup_cons in Hnodup.
  destruct Hnodup as [Hfresh Hnodup]. rewrite list_elem_of_In in Hfresh.
  rewrite secondPass_cons, issuesFor_app.
  destruct Hin as [[= -> ->] | Hin].
  - rewrite (issuesFor_absent plan rest g Hfresh), app_nil_r.
    split; intros Hf.
    + rewrite (proj2 (flagged_test info) Hf). unfold issuesFor.
      cbn [List.filter issueFor groupId]. rewrite String.eqb_refl. reflexivity.
    + destruct (negb _) eqn:E; [| reflexivity].
      exfalso. apply Hf, flagged_test. exact E.
  - assert (Hne : g' <> g).
    { intros ->. apply Hfresh. exact (in_map fst rest _ Hin). }
    assert (Hhere : issuesFor g
                      (if negb (Z.of_nat (length (indices info'))
                                =? lastIndex info' - firstIndex info' + 1)
                       then [issueFor plan g' info'] else []) = []).
    { destruct (negb _); [| reflexivity]. unfold issuesFor.
      cbn [List.filter issueFor groupId].
      destruct (String.eqb_spec g' g); [contradiction | reflexivity]. }
    rewrite Hhere. cbn [app]. exact (IH Hnodup Hin).
Qed.

(** ** Strictly increasing lists of indices *)

Lemma last_cons_default (a d : Z) (ms : list Z) :
  List.last (a :: ms) d = List.last ms a.
Proof.
  revert a d. induction ms as [| b ms IH]; intros a d; [reflexivity |].
  change (List.last (a :: b :: ms) d) with (List.last (b :: ms) d).
  rewrite (IH b d), (IH b a). reflexivity.
Qed.

Lemma sorted_last_ge (a : Z) (ms : list Z) :
  StronglySorted Z.lt (a :: ms) -> a <= List.last ms a.
Proof.
  revert a. induction ms as [| b ms IH]; intros a Hs; [cbn; lia |].
  apply StronglySorted_inv in Hs. destruct Hs as [Hs Hall].
  rewrite last_cons_default. specialize (IH b Hs). apply Forall_inv in Hall. lia.
Qed.

(* A strictly increasing list has at most as many elements as its span has
   positions. *)
Lemma sorted_length_le (a : Z) (ms : list Z) :
  StronglySorted Z.lt (a :: ms) ->
  Z.of_nat (length (a :: ms)) <= List.last ms a - a + 1.
Proof.
  revert a. induction ms as [| b ms IH]; intros a Hs; [cbn; lia |].
  apply StronglySorted_inv in Hs. destruct Hs as [Hs Hall].
  rewrite last_cons_default. specialize (IH b Hs). apply Forall_inv in Hall.
  cbn [length] in *. lia.
Qed.

(* It has exactly as many when it misses no position of its span. *)
Lemma sorted_length_full (a : Z) (ms : list Z) :
  StronglySorted Z.lt (a :: ms) ->
  (forall j, a <= j <= List.last ms a -> In j (a :: ms)) ->
  Z.of_nat (length (a :: ms)) = List.last ms a - a + 1.
Proof.
  revert a. induction ms as [| b ms IH]; intros a Hs Hfull; [cbn; lia |].
  apply StronglySorted_inv in Hs. destruct Hs as [Hs Hall].
  rewrite last_cons_default in *. pose proof (sorted_last_ge b ms Hs) as Hlast.
  pose proof (Forall_inv Hall) as Hab.
  assert (Hb : b = a + 1).
  { destruct (Hfull (a + 1)) as [Heq | [Heq | Hin]]; [lia | lia | lia |].
    apply StronglySorted_inv in Hs. destruct Hs as [_ Hall'].
    rewrite Forall_forall in Hall'. apply list_elem_of_In, Hall' in Hin. lia. }
  assert (IH' : Z.of_nat (length (b :: ms)) = List.last ms b - b + 1).
  { apply IH; [exact Hs |]. intros j Hj.
    destruct (Hfull j) as [Heq | Hin]; [lia | lia | exact Hin]. }
  cbn [length] in *. lia.
Qed.

Lemma zrange_In (n : nat) (i j : Z) :
  In j (zrange n i) <-> i <= j < i + Z.of_nat n.
Proof.
  revert i. induction n as [| n IH]; intros i; cbn [zrange In].
  - lia.
  - rewrite IH. lia.
Qed.



Lemma includes_In (l : list Z) (j : Z) : includes l j = true <-> In j l.
Proof.
  unfold includes. rewrite existsb_exists. split.
  - intros (x & Hin & Heq). apply Z.eqb_eq in Heq. subst x. exact Hin.
  - intros Hin. exists j. split; [exact Hin | apply Z.eqb_refl].
Qed.

Lemma gapsFrom_filter (plan : list PlanItem) (inds : list Z) (n : nat) (i : Z) :
  gapsFrom plan inds n i
  = map (gapLine plan)
        (List.filter (fun j => negb (includes inds j)) (zrange n i)).
Proof.
  revert i. induction n as [| n IH]; intros i; cbn [gapsFrom zrange List.filter];
    [reflexivity |].
  destruct (negb (includes inds i)); cbn [map]; rewrite IH; reflexivity.
Qed.

(** ** The issues of a plan *)

Lemma interleaved_flagged (plan : list PlanItem) (g : string) :
  membersOf plan g <> [] ->
  interleaved plan g <-> flagged (infoOf (membersOf plan g)).
Proof.
  intros Hne. unfold interleaved, flagged, infoOf.
  pose proof (membersFrom_sorted plan 0 g) as Hs. fold (membersOf plan g) in Hs.
  destruct (membersOf plan g) as [| a ms]; [contradiction |].
  cbn [firstIndex lastIndex indices List.hd]. rewrite last_cons_default.
  pose proof (sorted_length_le a ms Hs). lia.
Qed.

Lemma issues_unfold (plan : list PlanItem) :
  issues (validateGroupConfiguration plan)
  = secondPass plan (firstPass plan 0 []) []
  /\ isValid (validateGroupConfiguration plan)
     = (length (issues (validateGroupConfiguration plan)) =? 0)%nat.
Proof.
  unfold validateGroupConfiguration. destruct plan; split; reflexivity.
Qed.

Lemma validator_group (plan : list PlanItem) (g : string) :
  g <> "" ->
  (interleaved plan g ->
   issuesFor g (issues (validateGroupConfiguration plan))
   = [issueFor plan g (infoOf (membersOf plan g))])
  /\ (~ interleaved plan g ->
      issuesFor g (issues (validateGroupConfiguration plan)) = []).
Proof.
  intros Hg. rewrite (proj1 (issues_unfold plan)).
  destruct (firstPass_plan plan) as (Hnodup & Hentries & Hhas).
  destruct (membersOf plan g) as [| a ms] eqn:Em.
  - assert (Habsent : ~ In g (map fst (firstPass plan 0 []))).
    { intros Hin. apply in_map_iff in Hin. destruct Hin as ([g' info] & <- & Hin).
      destruct (Hentries g' info Hin) as (_ & Hms & _). cbn [fst] in Em.
      contradiction. }
    split; [| intros _; apply issuesFor_absent; exact Habsent].
    unfold interleaved. rewrite Em. intros [].
  - assert (Hne : membersOf plan g <> []) by (rewrite Em; discriminate).
    pose proof (Hhas g Hg Hne) as Hin. apply groupMap_has_In, in_map_iff in Hin.
    destruct Hin as ([g' info] & Hfst & Hin). cbn [fst] in Hfst. subst g'.
    destruct (Hentries g info Hin) as (_ & _ & Hinfo).
    destruct (issuesFor_present plan _ g info Hnodup Hin) as [Hyes Hno].
    rewrite (interleaved_flagged plan g Hne), <- Em, <- Hinfo.
    split; assumption.
Qed.

Lemma validator_issue (plan : list PlanItem) (issue : Issue) :
  In issue (issues (validateGroupConfiguration plan)) ->
  exists g,
    g <> "" /\ interleaved plan g
    /\ issue = issueFor plan g (infoOf (membersOf plan g)).
Proof.
  rewrite (proj1 (issues_unfold plan)). intros Hin.
  destruct (firstPass_plan plan) as (_ & Hentries & _).
  destruct (secondPass_In plan _ issue Hin) as (g & info & Hentry & Hf & ->).
  destruct (Hentries g info Hentry) as (Hg & Hne & ->).
  exists g. split; [exact Hg |]. split; [| reflexivity].
  apply interleaved_flagged; assumption.
Qed.


Lemma last_In (a : Z) (ms : list Z) : In (List.last ms a) (a :: ms).
Proof.
  rewrite <- (last_cons_default a a ms).
  destruct (@exists_last _ (a :: ms) ltac:(discriminate)) as (l' & z & Heq).
  rewrite Heq, List.last_last. apply in_or_app. right. left. reflexivity.
Qed.

Lemma contiguous_not_interleaved (plan : list PlanItem) (g : string) :
  g <> "" -> contiguous plan -> ~ interleaved plan g.
Proof.
  intros Hg Hcontig. unfold interleaved.
  pose proof (membersFrom_sorted plan 0 g) as Hs. fold (membersOf plan g) in Hs.
  pose proof (membersOf_grouped_In plan g) as Hmem.
  destruct (membersOf plan g) as [| a ms]; [tauto |].
  rewrite (sorted_length_full a ms Hs); [lia |].
  intros j Hj. apply (Hmem j Hg).
  apply (Hcontig g a j (List.last ms a) Hg Hj).
  - apply (Hmem a Hg). left. reflexivity.
  - apply (Hmem _ Hg). apply last_In.
Qed.

(** ** Interleaving, by positions *)

Lemma sorted_bounds (a : Z) (ms : list Z) (m : Z) :
  StronglySorted Z.lt (a :: ms) -> In m (a :: ms) -> a <= m <= List.last ms a.
Proof.
  revert a. induction ms as [| b ms IH]; intros a Hs Hm.
  - destruct Hm as [<- | []]. cbn. lia.
  - apply StronglySorted_inv in Hs. destruct Hs as [Hs Hall].
    pose proof (Forall_inv Hall) as Hab. rewrite last_cons_default.
    pose proof (sorted_last_ge b ms Hs).
    destruct Hm as [<- | Hm]; [lia |]. specialize (IH b Hs Hm). lia.
Qed.

(* A strictly increasing list as long as its span holds every position of
   the span. *)
Lemma sorted_full_In (a : Z) (ms : list Z) (j : Z) :
  StronglySorted Z.lt (a :: ms) ->
  Z.of_nat (length (a :: ms)) = List.last ms a - a + 1 ->
  a <= j <= List.last ms a -> In j (a :: ms).
Proof.
  revert a. induction ms as [| b ms IH]; intros a Hs Hlen Hj.
  - cbn in Hj. left. lia.
  - apply StronglySorted_inv in Hs. destruct Hs as [Hs Hall].
    pose proof (Forall_inv Hall) as Hab. rewrite last_cons_default in *.
    pose proof (sorted_length_le b ms Hs) as Hle. cbn [length] in *.
    destruct (Z.eq_dec j a) as [-> | Hja]; [left; reflexivity |].
    right. apply IH; [exact Hs | cbn [length]; lia | lia].
Qed.

(* A group with a foreign index between two of its members is interleaved. *)
Lemma foreign_interleaved (plan : list PlanItem) (g : string) (a b j : Z) :
  g <> "" ->
  itemGroupId (at_ plan a) = g -> itemGroupId (at_ plan b) = g ->
  a <= j <= b -> itemGroupId (at_ plan j) <> g ->
  interleaved plan g.
Proof.
  intros Hg Ha Hb Hj Hforeign. unfold interleaved.
  pose proof (membersFrom_sorted plan 0 g) as Hs. fold (membersOf plan g) in Hs.
  pose proof (membersOf_grouped_In plan g) as Hmem.
  apply (Hmem a Hg) in Ha. apply (Hmem b Hg) in Hb.
  assert (Hnot : ~ In j (membersOf plan g)).
  { intros Hin. apply Hforeign, (Hmem j Hg), Hin. }
  destruct (membersOf plan g) as [| first rest]; [destruct Ha |].
  pose proof (sorted_length_le first rest Hs) as Hle.
  destruct (Z.eq_dec (Z.of_nat (length (first :: rest)))
              (List.last rest first - first + 1)) as [Heq | Hne]; [| lia].
  exfalso. apply Hnot. apply (sorted_full_In first rest j Hs Heq).
  pose proof (sorted_bounds first rest a Hs Ha).
  pose proof (sorted_bounds first rest b Hs Hb). lia.
Qed.




Lemma at_Forall {A : Type} (P : A -> Prop) (l : list A) (k : Z) (x : A) :
  Forall P l -> at_ l k = Some x -> P x.
Proof.
  intros Hall Hat. unfold at_ in Hat. destruct (k <? 0); [discriminate |].
  rewrite Forall_forall in Hall. apply Hall. eapply list_elem_of_lookup_2, Hat.
Qed.





(** ** A group-2 item inside group 1 *)


(** * The engine and the validator on concrete plans *)


(** C2.  With restSec: 0 on the item at lastExerciseIndex, the
    rest-then-continue result of completeGroupRound carries restSeconds 60,
    not 0: [Number(0) || 60] takes the fallback. *)
Theorem C2_zero_rest_becomes_60 :
  let this :=
    after Js.decimalToNumber (Call_completeSet 1)
      (after Js.decimalToNumber (Call_completeSet 0) (new zeroRestPlan)) in
  restSecAt this 0 = Js.Num (Js.Int 0)
  /\ completeGroupRound Js.decimalToNumber 0 (Js.Str "1") this
     = (Returns (RestThenContinue (Some 0) 60 0), this).
Proof. vm_compute. split; reflexivity. Qed.

(** C3.  On a plan whose only item has sets: -1, getNextAction returns
    complete on the fresh engine, although the item's counter is 0 and its
    total, as getTotalSets returns it, is -1 (it is not coerced to 1). *)
Theorem C3_negative_sets_reported_complete :
  let this := new negativeSetsPlan in
  getNextAction Js.decimalToNumber this = (Returns Complete, this)
  /\ getCompletedSets 0 this = (Returns 0, this)
  /\ getTotalSets Js.decimalToNumber 0 this = (Returns (-1), this).
Proof. vm_compute. repeat split. Qed.

(** C5.  On a plan whose item 1 has sets: -3, the fresh engine has
    counter 0 and total -3 for that item, so the counter is not within
    0..totalSets, and completeSet(1) leaves the engine as it is. *)
Theorem C5_negative_sets_counter_above_total :
  let this := new mixedSetsPlan in
  getCompletedSets 1 this = (Returns 0, this)
  /\ getTotalSets Js.decimalToNumber 1 this = (Returns (-3), this)
  /\ ~ (0 <= completedAt this 1 <= totalSetsAt Js.decimalToNumber this 1)
  /\ completeSet Js.decimalToNumber 1 this = (Returns tt, this).
Proof.
  vm_compute. split; [reflexivity |]. split; [reflexivity |].
  split; [| reflexivity]. intros [_ H]. apply H. reflexivity.
Qed.




Lemma C9_witness :
  let this := after Js.decimalToNumber (Call_completeSet 0) (new interleavedPlan) in
  reachable Js.decimalToNumber interleavedPlan this
  /\ snd (getNextAction Js.decimalToNumber this) = this
  /\ snd (completeGroupRound Js.decimalToNumber 2 (Js.Str "1") this) = this
  /\ snd (reset this) = new interleavedPlan.
Proof.
  cbn zeta.
  assert (H : reachable Js.decimalToNumber interleavedPlan
                (after Js.decimalToNumber (Call_completeSet 0) (new interleavedPlan)))
    by (apply reachable_call, reachable_new).
  split; [exact H |].
  destruct (C9_only_completeSet_and_reset_write Js.decimalToNumber
              interleavedPlan _ H) as (Hnext & _ & _ & _ & Hround & _ & _ & Hreset).
  split; [exact Hnext |]. split; [apply Hround | exact Hreset].
Defined.

Lemma C10_witness :
  reachable Js.decimalToNumber interleavedPlan (new interleavedPlan)
  /\ at_ (planItems (new interleavedPlan)) 7 = None
  /\ completeSet Js.decimalToNumber 7 (new interleavedPlan)
     = (Returns tt, new interleavedPlan).
Proof.
  assert (H1 : reachable Js.decimalToNumber interleavedPlan (new interleavedPlan))
    by apply reachable_new.
  assert (H2 : at_ (planItems (new interleavedPlan)) 7 = None)
    by (vm_compute; reflexivity).
  split; [exact H1 |]. split; [exact H2 |].
  destruct (C10_completeSet_outside_plan Js.decimalToNumber interleavedPlan
              (new interleavedPlan) 7 H1 H2) as (_ & Hrun & _).
  exact Hrun.
Defined.

(** ** The repository's scenarios, run on the embedding *)

(* The test "rest duration equals last-executed member restSec for
   interleaved groups", step by step. *)
Example superset_rest_test :
  let exec0 := new interleavedPlan in
  let exec1 :=
    after Js.decimalToNumber (Call_completeSet 2)
      (after Js.decimalToNumber (Call_completeSet 0) exec0) in
  let exec2 :=
    after Js.decimalToNumber (Call_completeSet 2)
      (after Js.decimalToNumber (Call_completeSet 0) exec1) in
  fst (getNextAction Js.decimalToNumber exec0)
  = Returns (GroupSupersetStart "1"
               [ mkMember 0 (Js.Str "A1") 2 0 2; mkMember 2 (Js.Str "A2") 2 0 2 ] 0)
  /\ fst (completeGroupRound Js.decimalToNumber 2 (Js.Str "1") exec1)
     = Returns (RestThenContinue (Some 0) 20 2)
  /\ fst (completeGroupRound Js.decimalToNumber 2 (Js.Str "1") exec2)
     = Returns GroupComplete
  /\ fst (getNextAction Js.decimalToNumber exec2)
     = Returns (ExerciseStart 1 1 true 1).
Proof. vm_compute. repeat split. Qed.

(* The empty plan: nothing to do, nothing to report. *)
Example empty_plan :
  getNextAction Js.decimalToNumber (new []) = (Returns Complete, new [])
  /\ validateGroupConfiguration [] = mkResult true [] "".
Proof. vm_compute. split; reflexivity. Qed.

(* The test "interleaved groups detected": groups '1' and '2' are both
   flagged when each has a member of the other inside its span. *)
Example interleaved_groups_detected :
  let result :=
    validateGroupConfiguration
      [ grouped "test1" "1"; grouped "test2" "1"; grouped "group2_item1" "2";
        grouped "test3" "1"; grouped "group2_item2" "2" ] in
  isValid result = false /\ map groupId (issues result) = ["1"; "2"].
Proof. vm_compute. split; reflexivity. Qed.

(** * Further results *)

(** ** White space *)

Lemma trimEnd_cons (a : ascii) (r : string) :
  Js.trimEnd (String a r)
  = match Js.trimEnd r with
    | EmptyString => if Js.isWhiteSpace a then EmptyString else String a EmptyString
    | r' => String a r'
    end.
Proof. reflexivity. Qed.

Lemma trimEnd_idempotent (s : string) : Js.trimEnd (Js.trimEnd s) = Js.trimEnd s.
Proof.
  induction s as [| a r IH]; [reflexivity |]. rewrite trimEnd_cons.
  destruct (Js.trimEnd r) as [| b u] eqn:E.
  - destruct (Js.isWhiteSpace a) eqn:Ea; [reflexivity |].
    rewrite trimEnd_cons. cbn [Js.trimEnd]. rewrite Ea. reflexivity.
  - rewrite trimEnd_cons, IH. reflexivity.
Qed.

Lemma trimStart_head (s : string) :
  Js.trimStart s = ""
  \/ exists a r, Js.trimStart s = String a r /\ Js.isWhiteSpace a = false.
Proof.
  induction s as [| a r IH]; [left; reflexivity |]. cbn [Js.trimStart].
  destruct (Js.isWhiteSpace a) eqn:Ea; [exact IH |]. right. eauto.
Qed.

Lemma trimEnd_head (a : ascii) (r : string) :
  Js.isWhiteSpace a = false -> exists r', Js.trimEnd (String a r) = String a r'.
Proof.
  intros Ea. cbn [Js.trimEnd]. destruct (Js.trimEnd r); [| eauto].
  rewrite Ea. eauto.
Qed.

Lemma trim_idempotent (s : string) : Js.trim (Js.trim s) = Js.trim s.
Proof.
  unfold Js.trim. destruct (trimStart_head s) as [-> | (a & r & -> & Ea)];
    [reflexivity |].
  destruct (trimEnd_head a r Ea) as [r' Hr']. rewrite Hr'.
  cbn [Js.trimStart]. rewrite Ea, <- Hr'. apply trimEnd_idempotent.
Qed.

Section ExecutorMoreFacts.
Variable StringToNumber : string -> Js.number.

(** ** The remaining sets of a plan *)

Lemma remainingAt_nonneg (this : SupersetExecutorV3) (i : Z) :
  0 <= remainingAt StringToNumber this i.
Proof. unfold remainingAt. lia. Qed.

Lemma remainingFrom_nonneg (this : SupersetExecutorV3) (n : nat) (i : Z) :
  0 <= remainingFrom StringToNumber this n i.
Proof.
  revert i. induction n as [| n IH]; intros i; cbn [remainingFrom]; [lia |].
  pose proof (remainingAt_nonneg this i). specialize (IH (i + 1)). lia.
Qed.

Lemma remainingFrom_zero (this : SupersetExecutorV3) (n : nat) (i : Z) :
  remainingFrom StringToNumber this n i = 0
  <-> forall k, i <= k < i + Z.of_nat n -> remainingAt StringToNumber this k = 0.
Proof.
  revert i. induction n as [| n IH]; intros i; cbn [remainingFrom].
  - split; [intros _ k Hk; lia | reflexivity].
  - pose proof (remainingAt_nonneg this i).
    pose proof (remainingFrom_nonneg this n (i + 1)). split.
    + intros Hsum k Hk. destruct (Z.eq_dec k i) as [-> | Hne]; [lia |].
      apply (proj1 (IH (i + 1))); lia.
    + intros Hall. rewrite (Hall i) by lia.
      rewrite (proj2 (IH (i + 1))); [reflexivity |]. intros k Hk. apply Hall. lia.
Qed.

Lemma completeSet_remainingAt (this : SupersetExecutorV3) (i k : Z) :
  remainingAt StringToNumber (snd (completeSet StringToNumber i this)) k
  = if decide (k = i /\ completedAt this i < totalSetsAt StringToNumber this i)
    then remainingAt StringToNumber this k - 1
    else remainingAt StringToNumber this k.
Proof.
  rewrite completeSet_run. cbn [snd].
  destruct (Z.ltb_spec (completedAt this i) (totalSetsAt StringToNumber this i))
    as [Hlt | Hge].
  - set (this' := mkExecutor (planItems this)
                    (<[i:=completedAt this i + 1]> (completedSets this))).
    assert (Htotal : totalSetsAt StringToNumber this' k
                     = totalSetsAt StringToNumber this k) by reflexivity.
    unfold remainingAt. rewrite Htotal.
    destruct (Z.eq_dec i k) as [<- | Hne].
    + assert (Hc : completedAt this' i = completedAt this i + 1).
      { unfold completedAt at 1. subst this'. cbn [completedSets].
        rewrite lookup_insert_eq. reflexivity. }
      rewrite Hc.
      case_decide as Hd; [lia | exfalso; apply Hd; split; [reflexivity | exact Hlt]].
    + assert (Hc : completedAt this' k = completedAt this k).
      { unfold completedAt. subst this'. cbn [completedSets].
        rewrite lookup_insert_ne by exact Hne. reflexivity. }
      rewrite Hc.
      case_decide as Hd; [destruct Hd; congruence | reflexivity].
  - case_decide as Hd; [lia | reflexivity].
Qed.

Lemma completeSet_planItems (i : Z) (this : SupersetExecutorV3) :
  planItems (snd (completeSet StringToNumber i this)) = planItems this.
Proof. rewrite completeSet_run. cbn [snd]. destruct (_ <? _); reflexivity. Qed.

Lemma completeSet_completedAt (this : SupersetExecutorV3) (i k : Z) :
  completedAt (snd (completeSet StringToNumber i this)) k
  = if decide (k = i /\ completedAt this i < totalSetsAt StringToNumber this i)
    then completedAt this k + 1
    else completedAt this k.
Proof.
  rewrite completeSet_run. cbn [snd].
  destruct (Z.ltb_spec (completedAt this i) (totalSetsAt StringToNumber this i))
    as [Hlt | Hge].
  - unfold completedAt at 1. cbn [completedSets].
    destruct (Z.eq_dec i k) as [<- | Hne].
    + rewrite lookup_insert_eq. cbn [default].
      case_decide as Hd; [reflexivity | exfalso; apply Hd; split; [reflexivity | exact Hlt]].
    + rewrite lookup_insert_ne by exact Hne. fold (completedAt this k).
      case_decide as Hd; [destruct Hd; congruence | reflexivity].
  - case_decide as Hd; [lia | reflexivity].
Qed.

Lemma totalSetsAt_completeSet (this : SupersetExecutorV3) (i k : Z) :
  totalSetsAt StringToNumber (snd (completeSet StringToNumber i this)) k
  = totalSetsAt StringToNumber this k.
Proof. unfold totalSetsAt. rewrite completeSet_planItems. reflexivity. Qed.

(* What writing one counter does to the remaining sets of every index. *)
Lemma completeSet_remaining (plan : list PlanItem) (this : SupersetExecutorV3)
    (i : Z) :
  wellFormed StringToNumber plan this ->
  0 < remainingAt StringToNumber this i ->
  0 <= i < Z.of_nat (length plan)
  /\ forall k,
       remainingAt StringToNumber (snd (completeSet StringToNumber i this)) k
       = if decide (k = i) then Z.max 0 (remainingAt StringToNumber this i - 1)
         else remainingAt StringToNumber this k.
Proof.
  intros Hwf Hpos.
  pose proof (completedAt_nonneg StringToNumber plan this i Hwf) as Hnn.
  assert (Hlt : completedAt this i < totalSetsAt StringToNumber this i)
    by (unfold remainingAt in Hpos; lia).
  split.
  - destruct Hwf as [Hplan _]. rewrite <- Hplan.
    destruct (at_ (planItems this) i) as [item |] eqn:E;
      [eapply at_Some; eauto |].
    rewrite (totalSetsAt_absent StringToNumber this i E) in Hlt. lia.
  - intros k. rewrite completeSet_remainingAt.
    destruct (decide (k = i)) as [-> | Hne].
    + case_decide as Hd; [lia | exfalso; apply Hd; split; [reflexivity | exact Hlt]].
    + case_decide as Hd; [destruct Hd; contradiction | reflexivity].
Qed.

Lemma completeSet_nothing_left (this : SupersetExecutorV3) (i : Z) :
  ~ 0 < remainingAt StringToNumber this i ->
  snd (completeSet StringToNumber i this) = this.
Proof.
  intros Hnone. rewrite completeSet_run. cbn [snd].
  destruct (Z.ltb_spec (completedAt this i) (totalSetsAt StringToNumber this i));
    [unfold remainingAt in Hnone; lia | reflexivity].
Qed.

(** X1.  On a reachable engine, getNextAction returns complete exactly when
    no index has sets left, which is when the remaining sets summed over the
    plan are 0.  completeSet on an index with sets left, which then lies in
    the plan, takes one set off that index: what getRemainingSets reports
    for it becomes max(0, r - 1) for a report that was r, and the report for
    every other index stays as it was.  completeSet on any other index
    leaves the engine as it is. *)
Theorem X1_completeSet_takes_one_set
    (plan : list PlanItem) (this : SupersetExecutorV3) (i : Z) :
  reachable StringToNumber plan this ->
  (fst (getNextAction StringToNumber this) = Returns Complete
   <-> forall k, getRemainingSets StringToNumber k this = (Returns 0, this))
  /\ (fst (getNextAction StringToNumber this) = Returns Complete
      <-> totalRemaining StringToNumber this = 0)
  /\ (0 < remainingAt StringToNumber this i ->
      0 <= i < Z.of_nat (length plan)
      /\ forall k,
           getRemainingSets StringToNumber k (snd (completeSet StringToNumber i this))
           = (Returns (if decide (k = i)
                       then Z.max 0 (remainingAt StringToNumber this i - 1)
                       else remainingAt StringToNumber this k),
              snd (completeSet StringToNumber i this)))
  /\ (~ 0 < remainingAt StringToNumber this i ->
      snd (completeSet StringToNumber i this) = this).
Proof.
  intros Hreach. apply reachable_wellFormed in Hreach.
  assert (Hzero : fst (getNextAction StringToNumber this) = Returns Complete
                  <-> forall k, remainingAt StringToNumber this k = 0).
  { rewrite getNextAction_complete_iff. unfold incompleteAt, remainingAt. split.
    - intros H k.
      pose proof (completedAt_nonneg StringToNumber plan this k Hreach) as Hnn.
      destruct (at_ (planItems this) k) as [item |] eqn:E.
      + specialize (H k ltac:(eapply at_Some; eauto)). lia.
      + rewrite (totalSetsAt_absent StringToNumber this k E). lia.
    - intros H k _. specialize (H k). lia. }
  split; [| split; [| split]].
  - rewrite Hzero. split; intros H k; specialize (H k).
    + rewrite getRemainingSets_run, H. reflexivity.
    + rewrite getRemainingSets_run in H. injection H as H. exact H.
  - rewrite Hzero. unfold totalRemaining. rewrite remainingFrom_zero. split.
    + intros H k _. apply H.
    + intros H k.
      pose proof (completedAt_nonneg StringToNumber plan this k Hreach) as Hnn.
      destruct (at_ (planItems this) k) as [item |] eqn:E.
      * apply H. pose proof (at_Some _ _ _ E). lia.
      * unfold remainingAt. rewrite (totalSetsAt_absent StringToNumber this k E). lia.
  - intros Hpos. destruct (completeSet_remaining plan this i Hreach Hpos) as [Hin Hall].
    split; [exact Hin |]. intros k. rewrite getRemainingSets_run, Hall. reflexivity.
  - apply completeSet_nothing_left.
Qed.

(** ** The completed sets of a plan *)

(* Writing one counter changes the sum by what it changes at that index. *)
Lemma completedFrom_update (this this' : SupersetExecutorV3) (n : nat) (i j : Z) :
  (forall k, k <> j -> completedAt this' k = completedAt this k) ->
  completedFrom this' n i
  = completedFrom this n i
    + (if decide (i <= j < i + Z.of_nat n)
       then completedAt this' j - completedAt this j
       else 0).
Proof.
  intros Hother. revert i. induction n as [| n IH]; intros i; cbn [completedFrom].
  - case_decide; lia.
  - rewrite (IH (i + 1)). destruct (Z.eq_dec i j) as [-> | Hne].
    + repeat case_decide; lia.
    + rewrite (Hother i Hne). repeat case_decide; lia.
Qed.

(* With every counter between 0 and S, the sum is at most n * S, and it is
   n * S exactly when every counter is S. *)
Lemma completedFrom_bounded (this : SupersetExecutorV3) (n : nat) (i S : Z) :
  (forall k, i <= k < i + Z.of_nat n -> 0 <= completedAt this k <= S) ->
  0 <= completedFrom this n i <= Z.of_nat n * S
  /\ (completedFrom this n i = Z.of_nat n * S
      <-> forall k, i <= k < i + Z.of_nat n -> completedAt this k = S).
Proof.
  revert i. induction n as [| n IH]; intros i Hall; cbn [completedFrom].
  - split; [lia |]. split; [intros _ k Hk; lia | reflexivity].
  - destruct (IH (i + 1)) as [Hrange Hiff]; [intros k Hk; apply Hall; lia |].
    pose proof (Hall i ltac:(lia)) as Hi. split; [lia |]. split.
    + intros Hsum k Hk. destruct (Z.eq_dec k i) as [-> | Hne]; [lia |].
      apply (proj1 Hiff); lia.
    + intros Heq. rewrite (Heq i) by lia.
      rewrite (proj2 Hiff); [lia |]. intros k Hk. apply Heq. lia.
Qed.

Lemma wellFormed_completeSet_each (plan : list PlanItem) (indices : list Z)
    (this : SupersetExecutorV3) :
  wellFormed StringToNumber plan this ->
  wellFormed StringToNumber plan (completeSet_each StringToNumber indices this).
Proof.
  revert this. induction indices as [| i rest IH]; intros this Hwf;
    cbn [completeSet_each]; [exact Hwf |].
  apply IH, wellFormed_completeSet, Hwf.
Qed.

(* Every counted call adds one to the completed sets of the plan, and no
   other call adds anything. *)
Lemma totalCompleted_counts (plan : list PlanItem) (indices : list Z)
    (this : SupersetExecutorV3) :
  wellFormed StringToNumber plan this ->
  0 <= countedCompletions StringToNumber indices this
  /\ totalCompleted (completeSet_each StringToNumber indices this)
     = totalCompleted this + countedCompletions StringToNumber indices this.
Proof.
  revert this. induction indices as [| i rest IH]; intros this Hwf;
    cbn [completeSet_each countedCompletions]; [lia |].
  destruct (IH _ (wellFormed_completeSet StringToNumber plan this i Hwf))
    as [Hnn Hsum].
  split; [case_decide; lia |].
  rewrite Hsum. unfold totalCompleted. rewrite completeSet_planItems.
  rewrite (completedFrom_update this _ _ 0 i).
  - rewrite completeSet_completedAt.
    destruct (decide (i = i /\ completedAt this i < totalSetsAt StringToNumber this i))
      as [[_ Hlt] | Hno].
    + assert (Hin : 0 <= i < 0 + Z.of_nat (length (planItems this))).
      { destruct (at_ (planItems this) i) as [item |] eqn:E;
          [pose proof (at_Some _ _ _ E); lia |].
        rewrite (totalSetsAt_absent StringToNumber this i E) in Hlt.
        pose proof (completedAt_nonneg StringToNumber plan this i Hwf). lia. }
      repeat case_decide; lia.
    + repeat case_decide; lia.
  - intros k Hk. rewrite completeSet_completedAt.
    case_decide as Hd; [destruct Hd; contradiction | reflexivity].
Qed.

Lemma countedCompletions_app (a b : list Z) (this : SupersetExecutorV3) :
  countedCompletions StringToNumber (a ++ b) this
  = countedCompletions StringToNumber a this
    + countedCompletions StringToNumber b (completeSet_each StringToNumber a this).
Proof.
  revert this. induction a as [| i a IH]; intros this;
    cbn [app countedCompletions completeSet_each]; [lia |].
  rewrite IH. lia.
Qed.

(* A call counts a set exactly when its index has sets left. *)
Lemma countedCompletions_one (i : Z) (this : SupersetExecutorV3) :
  countedCompletions StringToNumber [i] this
  = if 0 <? remainingAt StringToNumber this i then 1 else 0.
Proof.
  cbn [countedCompletions]. rewrite completeSet_completedAt. unfold remainingAt.
  destruct (Z.ltb_spec 0
              (Z.max 0 (totalSetsAt StringToNumber this i - completedAt this i)));
    repeat case_decide; lia.
Qed.

(** X2.  On a plan of N items that all have sets: S, for an integer
    S >= 1, exactly N * S counted completions bring the fresh engine to
    completion: after any sequence of completeSet calls on the fresh engine,
    the number of calls that counted a set is the number of sets the engine
    holds as completed, it is at most N * S, and getNextAction returns
    complete exactly when it is N * S.  One more call counts a set exactly
    when its index has sets left. *)
Theorem X2_uniform_plan_completions
    (plan : list PlanItem) (S : Z) (indices : list Z) (i : Z) :
  1 <= S ->
  Forall (fun item => sets item = Js.Num (Js.Int S)) plan ->
  let this := completeSet_each StringToNumber indices (new plan) in
  let counted := countedCompletions StringToNumber indices (new plan) in
  totalCompleted this = counted
  /\ 0 <= counted <= Z.of_nat (length plan) * S
  /\ (fst (getNextAction StringToNumber this) = Returns Complete
      <-> counted = Z.of_nat (length plan) * S)
  /\ countedCompletions StringToNumber (indices ++ [i]) (new plan)
     = counted + (if 0 <? remainingAt StringToNumber this i then 1 else 0).
Proof.
  intros HS Hall. cbn zeta.
  pose proof (wellFormed_new StringToNumber plan) as Hnew.
  pose proof (wellFormed_completeSet_each plan indices _ Hnew) as Hwf.
  destruct (totalCompleted_counts plan indices _ Hnew) as [Hnn Hsum].
  assert (Hzero : totalCompleted (new plan) = 0).
  { unfold totalCompleted. rewrite new_planItems. generalize 0 at 1.
    induction (length plan) as [| n IH]; intros k; cbn [completedFrom];
      [reflexivity |].
    rewrite IH. unfold completedAt. rewrite new_completedSets.
    case_decide; reflexivity. }
  rewrite Hzero, Z.add_0_l in Hsum.
  rewrite countedCompletions_app, countedCompletions_one. rewrite <- Hsum.
  set (this := completeSet_each StringToNumber indices (new plan)) in *.
  pose proof Hwf as [Hplan _].
  assert (Htotal : forall k, 0 <= k < Z.of_nat (length plan) ->
            totalSetsAt StringToNumber this k = S).
  { intros k Hk. unfold totalSetsAt. rewrite Hplan.
    destruct (at_in_range plan k Hk) as [item Hitem]. rewrite Hitem.
    rewrite (at_Forall _ plan k item Hall Hitem). cbn.
    destruct (Z.eqb_spec S 0); lia. }
  assert (Hbound : forall k, 0 <= k < 0 + Z.of_nat (length plan) ->
            0 <= completedAt this k <= S).
  { intros k Hk.
    pose proof (completedAt_nonneg StringToNumber plan this k Hwf).
    pose proof (completedAt_bounded StringToNumber plan this k Hwf) as Hb.
    rewrite (Htotal k) in Hb by lia. lia. }
  destruct (completedFrom_bounded this (length plan) 0 S Hbound) as [Hrange Hiff].
  unfold totalCompleted. rewrite Hplan.
  split; [reflexivity |]. split; [exact Hrange |]. split; [| reflexivity].
  rewrite getNextAction_complete_iff, Hiff, Hplan. unfold incompleteAt.
  split; intros H k Hk.
  - specialize (H k ltac:(lia)). specialize (Hbound k ltac:(lia)).
    rewrite (Htotal k) in H by lia. lia.
  - rewrite (Htotal k Hk), (H k) by lia. lia.
Qed.

(** ** Single exercises *)

(** X3.  On a reachable engine whose lowest incomplete item [j] is not
    grouped, getNextAction returns exercise-start for [j] alone (groupSize 1,
    isSingleExercise true).  Its setNumber is one more than the sets
    completed of [j]: it is at least 1, and the set before it is below the
    item's total.  The engine is unchanged. *)
Theorem X3_getNextAction_exercise_start
    (plan : list PlanItem) (this : SupersetExecutorV3) (j : Z) :
  reachable StringToNumber plan this ->
  lowestIncomplete StringToNumber this j ->
  fst (isGrouped j this) = Returns false ->
  exists setNumber : Z,
    getNextAction StringToNumber this
    = (Returns (ExerciseStart j setNumber true 1), this)
    /\ getCompletedSets j this = (Returns (setNumber - 1), this)
    /\ 1 <= setNumber
    /\ exists total : Z,
         getTotalSets StringToNumber j this = (Returns total, this)
         /\ setNumber - 1 < total.
Proof.
  intros Hreach Hlow Hgrouped. apply reachable_wellFormed in Hreach.
  rewrite isGrouped_run in Hgrouped. cbn [fst] in Hgrouped.
  assert (Hg : groupIdAt this j = "").
  { destruct (String.eqb_spec (groupIdAt this j) ""); [assumption | discriminate]. }
  exists (completedAt this j + 1).
  split; [apply getNextAction_ungrouped; assumption |].
  split; [rewrite getCompletedSets_run; do 2 f_equal; lia |].
  pose proof (completedAt_nonneg StringToNumber plan this j Hreach).
  destruct Hlow as (_ & Hinc & _). unfold incompleteAt in Hinc.
  split; [lia |]. exists (totalSetsAt StringToNumber this j).
  split; [apply getTotalSets_run | lia].
Qed.

(** ** Inside a group *)

Lemma anyRemaining_scan_run (idxs : list Z) (b : bool) (this : SupersetExecutorV3) :
  forOf idxs b (fun anyRemaining idx =>
    bind (getRemainingSets StringToNumber idx) (fun remaining =>
      if 0 <? remaining then ret true else ret anyRemaining)) this
  = (Returns (b || existsb (fun idx => 0 <? remainingAt StringToNumber this idx) idxs)%bool,
     this).
Proof.
  revert b. induction idxs as [| idx idxs IH]; intros b; cbn [forOf existsb].
  - rewrite orb_false_r. reflexivity.
  - unfold bind at 1. unfold bind at 1. rewrite getRemainingSets_run.
    destruct (0 <? remainingAt StringToNumber this idx); cbn [ret].
    + rewrite IH. rewrite orb_true_r. reflexivity.
    + rewrite IH. reflexivity.
Qed.

Lemma nextInGroup_run (idxs : list Z) (this : SupersetExecutorV3) :
  nextInGroup StringToNumber idxs this
  = (Returns
       (match List.find (fun idx => 0 <? remainingAt StringToNumber this idx) idxs with
        | Some idx => NextExerciseInGroup idx (completedAt this idx + 1)
        | None => GroupComplete
        end),
     this).
Proof.
  induction idxs as [| idx idxs IH]; [reflexivity |].
  cbn [nextInGroup List.find]. unfold bind at 1. rewrite getRemainingSets_run.
  destruct (0 <? remainingAt StringToNumber this idx); [reflexivity | exact IH].
Qed.

Lemma find_sorted_least (f : Z -> bool) (l : list Z) (x : Z) :
  StronglySorted Z.lt l -> List.find f l = Some x ->
  In x l /\ f x = true /\ forall k, In k l -> f k = true -> x <= k.
Proof.
  induction 1 as [| a l Hs IH Hall]; cbn [List.find]; [discriminate |].
  rewrite Forall_forall in Hall.
  destruct (f a) eqn:Ea.
  - intros [= <-]. split; [left; reflexivity |]. split; [exact Ea |].
    intros k [<- | Hk] _; [lia |]. apply list_elem_of_In, Hall in Hk. lia.
  - intros Hfind. destruct (IH Hfind) as (Hin & Hfx & Hleast).
    split; [right; exact Hin |]. split; [exact Hfx |].
    intros k [<- | Hk] Hfk; [congruence | exact (Hleast k Hk Hfk)].
Qed.

Lemma find_first (f : Z -> bool) (l : list Z) (x : Z) :
  StronglySorted Z.lt l -> In x l -> f x = true ->
  (forall k, In k l -> k < x -> f k = false) ->
  List.find f l = Some x.
Proof.
  induction 1 as [| a l Hs IH Hall]; cbn [List.find]; [intros [] |].
  rewrite Forall_forall in Hall. intros Hin Hfx Hbefore.
  destruct (Z.eq_dec a x) as [-> | Hne]; [rewrite Hfx; reflexivity |].
  destruct Hin as [Heq | Hin]; [contradiction |].
  rewrite (Hbefore a (or_introl eq_refl)).
  - apply IH; [exact Hin | exact Hfx |]. intros k Hk. apply Hbefore. right. exact Hk.
  - apply list_elem_of_In, Hall in Hin. exact Hin.
Qed.

Lemma getNextGroupAction_run (g : Js.value) (this : SupersetExecutorV3) :
  forall members : list Z,
    getGroupExercises g this = (Returns members, this) ->
    getNextGroupAction StringToNumber g this
    = (Returns
         (match List.find (fun idx => 0 <? remainingAt StringToNumber this idx)
                  members with
          | Some idx => NextExerciseInGroup idx (completedAt this idx + 1)
          | None => GroupComplete
          end),
       this).
Proof.
  intros members Hmem. unfold getNextGroupAction, bind at 1. rewrite Hmem.
  unfold bind at 1, anyRemaining_scan. rewrite anyRemaining_scan_run. cbn [orb].
  destruct (existsb _ members) eqn:E; cbn [negb]; [apply nextInGroup_run |].
  destruct (List.find _ members) as [idx |] eqn:Ef; [| reflexivity].
  apply List.find_some in Ef. destruct Ef as [Hin Hpos].
  assert (existsb (fun idx => 0 <? remainingAt StringToNumber this idx) members = true)
    by (apply existsb_exists; eauto).
  congruence.
Qed.

(** X4.  getNextGroupAction returns group-complete exactly when no member
    of the group has sets left; otherwise it returns next-exercise-in-group
    for the lowest member that has sets left, with setNumber one more than
    that member's completed sets.  The engine is unchanged. *)
Theorem X4_getNextGroupAction (this : SupersetExecutorV3) (groupNumber : Js.value) :
  exists (members : list Z) (action : Action),
    getGroupExercises groupNumber this = (Returns members, this)
    /\ getNextGroupAction StringToNumber groupNumber this = (Returns action, this)
    /\ (action = GroupComplete
        <-> forall idx, In idx members -> ~ 0 < remainingAt StringToNumber this idx)
    /\ (action <> GroupComplete ->
        exists idx : Z,
          action = NextExerciseInGroup idx (completedAt this idx + 1)
          /\ In idx members
          /\ 0 < remainingAt StringToNumber this idx
          /\ forall k, In k members -> 0 < remainingAt StringToNumber this k ->
                       idx <= k).
Proof.
  pose proof (getGroupExercises_run groupNumber this) as Hmem.
  pose proof (getNextGroupAction_run groupNumber this _ Hmem) as Hrun.
  set (members := if String.eqb (requestedGroupId groupNumber) ""
                  then []
                  else membersOf (planItems this) (requestedGroupId groupNumber))
    in *.
  assert (Hsorted : StronglySorted Z.lt members).
  { subst members. destruct (String.eqb _ ""); [constructor | apply membersFrom_sorted]. }
  eexists members, _. split; [exact Hmem |]. split; [exact Hrun |].
  destruct (List.find _ members) as [idx |] eqn:Ef.
  - destruct (find_sorted_least _ _ _ Hsorted Ef) as (Hin & Hpos & Hleast).
    apply Z.ltb_lt in Hpos. split.
    + split; [discriminate |]. intros Hnone. exfalso. exact (Hnone idx Hin Hpos).
    + intros _. exists idx. split; [reflexivity |]. split; [exact Hin |].
      split; [exact Hpos |]. intros k Hk Hkpos. apply Hleast; [exact Hk |].
      apply Z.ltb_lt. exact Hkpos.
  - split; [| intros Hne; contradiction].
    split; [| reflexivity]. intros _ idx Hin Hpos.
    pose proof (List.find_none _ _ Ef idx Hin) as Hf. cbn beta in Hf.
    apply Z.ltb_ge in Hf. lia.
Qed.

(** X5.  The three group operations agree.  When the lowest incomplete
    item [j] is grouped and getNextAction has announced its group under the
    identifier [gid], then getNextGroupAction(gid) returns
    next-exercise-in-group for that same item [j], and completeGroupRound for
    [gid] returns rest-then-continue, never group-complete. *)
Theorem X5_group_operations_agree
    (this : SupersetExecutorV3) (j lastExerciseIndex : Z) :
  lowestIncomplete StringToNumber this j ->
  fst (isGrouped j this) = Returns true ->
  exists (gid : string) (members : list GroupMember) (first restSeconds : Z),
    getNextAction StringToNumber this
    = (Returns (GroupSupersetStart gid members j), this)
    /\ getNextGroupAction StringToNumber (Js.Str gid) this
       = (Returns (NextExerciseInGroup j (completedAt this j + 1)), this)
    /\ completeGroupRound StringToNumber lastExerciseIndex (Js.Str gid) this
       = (Returns (RestThenContinue (Some first) restSeconds lastExerciseIndex), this)
    /\ first <= j.
Proof.
  intros Hlow Hgrouped. rewrite isGrouped_run in Hgrouped. cbn [fst] in Hgrouped.
  assert (Hne : groupIdAt this j <> "").
  { intros Heq. rewrite Heq in Hgrouped. discriminate. }
  destruct (getNextAction_grouped StringToNumber this j Hlow Hne)
    as (ms & Hrun & _ & _).
  assert (Hreq : requestedGroupId (Js.Str (groupIdAt this j)) = groupIdAt this j).
  { destruct (at_in_range (planItems this) j) as [item Hat]; [apply Hlow |].
    unfold groupIdAt in *. rewrite Hat in *. cbn [requestedGroupId Js.ToString].
    unfold itemGroupId in *.
    destruct (Js.ToBoolean (groupNumber item)); [apply trim_idempotent | congruence]. }
  pose proof (getGroupExercises_run (Js.Str (groupIdAt this j)) this) as Hmem.
  rewrite Hreq in Hmem.
  destruct (String.eqb_spec (groupIdAt this j) "") as [| _]; [contradiction |].
  pose proof (membersFrom_sorted (planItems this) 0 (groupIdAt this j)) as Hsorted.
  fold (membersOf (planItems this) (groupIdAt this j)) in Hsorted.
  assert (Hj : In j (membersOf (planItems this) (groupIdAt this j))).
  { apply (membersOf_grouped_In _ _ _ Hne). reflexivity. }
  assert (Hpos : (0 <? remainingAt StringToNumber this j) = true).
  { apply Z.ltb_lt. destruct Hlow as (_ & Hinc & _).
    unfold incompleteAt in Hinc. unfold remainingAt. lia. }
  assert (Hfind : List.find (fun idx => 0 <? remainingAt StringToNumber this idx)
                    (membersOf (planItems this) (groupIdAt this j)) = Some j).
  { apply find_first; [exact Hsorted | exact Hj | exact Hpos |].
    intros k Hk Hkj. apply Z.ltb_ge. destruct Hlow as (_ & _ & Hbefore).
    apply membersOf_In in Hk. specialize (Hbefore k ltac:(lia)).
    unfold incompleteAt in Hbefore. unfold remainingAt. lia. }
  pose proof (getNextGroupAction_run _ _ _ Hmem) as Hnext. rewrite Hfind in Hnext.
  pose proof (completeGroupRound_run StringToNumber lastExerciseIndex _ _ _ Hmem)
    as Hround.
  assert (Hany : existsb (fun idx => 0 <? remainingAt StringToNumber this idx)
                   (membersOf (planItems this) (groupIdAt this j)) = true)
    by (apply existsb_exists; eauto).
  rewrite Hany in Hround.
  destruct (membersOf (planItems this) (groupIdAt this j)) as [| first rest] eqn:Em;
    [destruct Hj |].
  exists (groupIdAt this j), ms, first,
    (Js.numberOr (Js.ToNumber StringToNumber (restSecAt this lastExerciseIndex)) 60).
  split; [exact Hrun |]. split; [exact Hnext |]. split; [exact Hround |].
  destruct Hj as [-> | Hin]; [lia |].
  apply StronglySorted_inv in Hsorted. destruct Hsorted as [_ Hall].
  rewrite Forall_forall in Hall. apply list_elem_of_In, Hall in Hin. lia.
Qed.

(** ** isGrouped and getGroupExercises *)

(** X6.  isGrouped and getGroupExercises tell the same story: every index
    getGroupExercises returns is grouped; an item is grouped exactly when
    it is a member of the group named by its own groupNumber; and an index
    outside the plan is not grouped. *)
Theorem X6_isGrouped_iff_member (this : SupersetExecutorV3) :
  (forall (g : Js.value) (members : list Z) (k : Z),
     getGroupExercises g this = (Returns members, this) ->
     In k members -> isGrouped k this = (Returns true, this))
  /\ (forall (i : Z) (item : PlanItem),
        at_ (planItems this) i = Some item ->
        isGrouped i this = (Returns true, this)
        <-> exists members,
              getGroupExercises (groupNumber item) this = (Returns members, this)
              /\ In i members)
  /\ (forall i : Z,
        at_ (planItems this) i = None -> isGrouped i this = (Returns false, this)).
Proof.
  split; [| split].
  - intros g members k Hrun Hk. rewrite getGroupExercises_run in Hrun.
    injection Hrun as <-. rewrite isGrouped_run.
    destruct (String.eqb_spec (requestedGroupId g) "") as [| Hne]; [destruct Hk |].
    apply (membersOf_grouped_In _ _ _ Hne) in Hk. unfold groupIdAt. rewrite Hk.
    destruct (String.eqb_spec (requestedGroupId g) ""); [contradiction | reflexivity].
  - intros i item Hat. rewrite isGrouped_run, getGroupExercises_run.
    assert (Hid : groupIdAt this i
                  = if Js.ToBoolean (groupNumber item)
                    then requestedGroupId (groupNumber item) else "").
    { unfold groupIdAt. rewrite Hat. cbn [itemGroupId].
      destruct (groupNumber item); reflexivity. }
    split.
    + intros Hg. injection Hg as Hg. apply negb_true_iff, String.eqb_neq in Hg.
      eexists. split; [reflexivity |].
      destruct (Js.ToBoolean (groupNumber item)); [| congruence].
      rewrite <- Hid.
      destruct (String.eqb_spec (groupIdAt this i) ""); [contradiction |].
      apply (membersOf_grouped_In _ _ _ Hg). reflexivity.
    + intros (members & Hrun & Hin). injection Hrun as <-.
      destruct (String.eqb_spec (requestedGroupId (groupNumber item)) "") as [| Hne];
        [destruct Hin |].
      apply (membersOf_grouped_In _ _ _ Hne) in Hin. fold (groupIdAt this i) in Hin.
      rewrite Hin.
      destruct (String.eqb_spec (requestedGroupId (groupNumber item)) "");
        [contradiction | reflexivity].
  - intros i Hat. rewrite isGrouped_run. unfold groupIdAt. rewrite Hat. reflexivity.
Qed.

(** ** completeSet, composed *)

(** X7.  Completions of different exercises commute: completeSet(i)
    followed by completeSet(j) leaves the same engine as completeSet(j)
    followed by completeSet(i). *)
Theorem X7_completeSet_commutes (this : SupersetExecutorV3) (i j : Z) :
  snd (completeSet StringToNumber j (snd (completeSet StringToNumber i this)))
  = snd (completeSet StringToNumber i (snd (completeSet StringToNumber j this))).
Proof.
  destruct (Z.eq_dec i j) as [-> | Hne]; [reflexivity |].
  rewrite (completeSet_run StringToNumber j (snd (completeSet StringToNumber i this))).
  rewrite (completeSet_run StringToNumber i (snd (completeSet StringToNumber j this))).
  rewrite !completeSet_completedAt, !totalSetsAt_completeSet, !completeSet_planItems.
  repeat case_decide; try (exfalso; intuition congruence).
  rewrite !completeSet_run. cbn [snd].
  destruct (Z.ltb_spec (completedAt this i) (totalSetsAt StringToNumber this i));
    destruct (Z.ltb_spec (completedAt this j) (totalSetsAt StringToNumber this j));
    cbn [snd planItems completedSets]; try reflexivity.
  f_equal. apply insert_insert_ne. congruence.
Qed.

(** X8.  Calling completeSet(i) n times in a row counts sets of [i] until
    its counter is no longer below the item's total, and then does nothing:
    the counter c' after the calls is between the counter c before them and
    c + n; it stops short of c + n only when it has reached the total
    (total <= c'); and it has moved only if the set counted last was below
    the total (c' - 1 < total).  No other counter moves and the plan is not
    touched. *)
Theorem X8_completeSet_saturates (n : nat) (i : Z) (this : SupersetExecutorV3) :
  let this' := completeSet_times StringToNumber n i this in
  completedAt this i <= completedAt this' i <= completedAt this i + Z.of_nat n
  /\ (completedAt this' i < completedAt this i + Z.of_nat n ->
      totalSetsAt StringToNumber this i <= completedAt this' i)
  /\ (completedAt this i < completedAt this' i ->
      completedAt this' i - 1 < totalSetsAt StringToNumber this i)
  /\ (forall k, k <> i -> completedAt this' k = completedAt this k)
  /\ planItems this' = planItems this.
Proof.
  cbn zeta. revert this. induction n as [| n IH]; intros this;
    cbn [completeSet_times].
  - split; [lia |]. split; [lia |]. split; [lia |]. split; reflexivity.
  - destruct (IH (snd (completeSet StringToNumber i this)))
      as (Hrange & Hshort & Hmoved & Hother & Hplan).
    rewrite Hplan, completeSet_planItems.
    rewrite totalSetsAt_completeSet in Hshort, Hmoved.
    rewrite completeSet_completedAt in Hrange, Hshort, Hmoved.
    split; [| split; [| split; [| split; [| reflexivity]]]].
    + case_decide as Hd; lia.
    + case_decide as Hd; lia.
    + case_decide as Hd; lia.
    + clear Hrange Hshort Hmoved.
      intros k Hk. rewrite (Hother k Hk), completeSet_completedAt.
      case_decide as Hd; [destruct Hd; contradiction | reflexivity].
Qed.

(** ** getState *)

Lemma getState_from_run (suf pre : list PlanItem) (acc : list StateEntry)
    (this : SupersetExecutorV3) :
  planItems this = pre ++ suf ->
  exists entries : list StateEntry,
    getState_from StringToNumber (length suf) (Z.of_nat (length pre)) acc this
    = (Returns (acc ++ entries), this)
    /\ map s_index entries = zrange (length suf) (Z.of_nat (length pre))
    /\ Forall (fun e =>
                 s_totalSets e = totalSetsAt StringToNumber this (s_index e)
                 /\ s_completedSets e = completedAt this (s_index e)
                 /\ s_remainingSets e = s_totalSets e - s_completedSets e)
              entries.
Proof.
  revert pre acc. induction suf as [| x suf IH]; intros pre acc Hplan.
  - exists []. rewrite app_nil_r. repeat split. constructor.
  - cbn [length getState_from]. unfold bind at 1. unfold this_planItems at 1.
    cbn [fst snd]. unfold bind at 1. rewrite getTotalSets_run.
    unfold bind at 1. rewrite getCompletedSets_run.
    assert (Hat : at_ (planItems this) (Z.of_nat (length pre)) = Some x)
      by (rewrite Hplan; apply at_split_head).
    rewrite Hat.
    destruct (IH (pre ++ [x])
                (acc ++ [mkStateEntry (Z.of_nat (length pre))
                           (Js.or_ (name x) (Js.Str "Exercise"))
                           (Js.or_ (groupNumber x) Js.Null)
                           (totalSetsAt StringToNumber this (Z.of_nat (length pre)))
                           (completedAt this (Z.of_nat (length pre)))
                           (totalSetsAt StringToNumber this (Z.of_nat (length pre))
                            - completedAt this (Z.of_nat (length pre)))]))
      as (entries & Hrun & Hidx & Hall).
    { rewrite Hplan, <- app_assoc. reflexivity. }
    rewrite length_app in Hrun, Hidx. cbn [length] in Hrun, Hidx.
    replace (Z.of_nat (length pre + 1)) with (Z.of_nat (length pre) + 1)
      in Hrun, Hidx by lia.
    eexists (_ :: entries). split; [| split].
    + rewrite Hrun, <- app_assoc. reflexivity.
    + cbn [map s_index zrange]. rewrite Hidx. reflexivity.
    + constructor; [cbn; repeat split | exact Hall].
Qed.

(** X9.  getState returns one entry per plan item, in plan order, whose
    index is the item's position and whose totalSets and completedSets are
    what the getters return; its remainingSets is their plain difference,
    which getRemainingSets floors at 0.  The engine is unchanged and no
    TypeError is thrown. *)
Theorem X9_getState (this : SupersetExecutorV3) :
  exists state : list StateEntry,
    getState StringToNumber this = (Returns state, this)
    /\ map s_index state = zrange (length (planItems this)) 0
    /\ Forall (fun e =>
                 getTotalSets StringToNumber (s_index e) this
                 = (Returns (s_totalSets e), this)
                 /\ getCompletedSets (s_index e) this
                    = (Returns (s_completedSets e), this)
                 /\ s_remainingSets e = s_totalSets e - s_completedSets e
                 /\ getRemainingSets StringToNumber (s_index e) this
                    = (Returns (Z.max 0 (s_remainingSets e)), this))
              state.
Proof.
  destruct (getState_from_run (planItems this) [] [] this eq_refl)
    as (entries & Hrun & Hidx & Hall).
  exists entries. split; [exact Hrun |]. split; [exact Hidx |].
  eapply Forall_impl; [exact Hall |]. intros e (Ht & Hc & Hr). cbn beta.
  rewrite getTotalSets_run, getCompletedSets_run, getRemainingSets_run.
  unfold remainingAt. rewrite Hr, Ht, Hc. repeat split.
Qed.

End ExecutorMoreFacts.

(** ** More on the validator *)

(** X10.  The validator accepts a plan exactly when every group occupies a
    contiguous range of indices: between two items of a group there is no
    item of another group or of none. *)
Theorem X10_isValid_iff_contiguous (plan : list PlanItem) :
  isValid (validateGroupConfiguration plan) = true <-> contiguous plan.
Proof.
  assert (Hvalid : isValid (validateGroupConfiguration plan) = true
                   <-> issues (validateGroupConfiguration plan) = []).
  { rewrite (proj2 (issues_unfold plan)).
    destruct (issues (validateGroupConfiguration plan)); cbn; split; congruence. }
  split.
  - intros Hv. apply Hvalid in Hv. intros g i j k Hg Hijk Hi Hk.
    destruct (string_dec (itemGroupId (at_ plan j)) g) as [Heq | Hne]; [exact Heq |].
    exfalso. pose proof (foreign_interleaved plan g i k j Hg Hi Hk Hijk Hne) as Hint.
    destruct (validator_group plan g Hg) as [Hyes _]. specialize (Hyes Hint).
    rewrite Hv in Hyes. discriminate.
  - intros Hcontig. apply Hvalid.
    destruct (issues (validateGroupConfiguration plan)) as [| issue rest] eqn:E;
      [reflexivity |].
    destruct (validator_issue plan issue) as (g & Hg & Hint & _).
    { rewrite E. left. reflexivity. }
    exfalso. exact (contiguous_not_interleaved plan g Hg Hcontig Hint).
Qed.

Lemma includes_cons_ne (a : Z) (ms : list Z) (j : Z) :
  j <> a -> includes (a :: ms) j = includes ms j.
Proof.
  intros Hne. unfold includes. cbn [existsb].
  destruct (Z.eqb_spec j a); [contradiction | reflexivity].
Qed.

(* The positions of a range that a strictly increasing list inside the range
   leaves out, and the list, make up the range. *)
Lemma gaps_and_members (n : nat) (i : Z) (ms : list Z) :
  StronglySorted Z.lt ms ->
  (forall m, In m ms -> i <= m < i + Z.of_nat n) ->
  (length (List.filter (fun j => negb (includes ms j)) (zrange n i)) + length ms
   = n)%nat.
Proof.
  revert i ms. induction n as [| n IH]; intros i ms Hs Hin.
  - destruct ms as [| m ms]; [reflexivity |].
    specialize (Hin m (or_introl eq_refl)). lia.
  - cbn [zrange List.filter]. destruct ms as [| a ms].
    + pose proof (IH (i + 1) [] Hs ltac:(intros m [])) as Hrest.
      cbn [includes existsb negb length] in *. lia.
    + pose proof Hs as Hs0.
      apply StronglySorted_inv in Hs. destruct Hs as [Hs Hall].
      rewrite Forall_forall in Hall.
      pose proof (Hin a (or_introl eq_refl)) as Ha.
      destruct (Z.eq_dec a i) as [-> | Hne].
      * assert (Hhead : includes (i :: ms) i = true)
          by (apply includes_In; left; reflexivity).
        rewrite Hhead. cbn [negb length].
        rewrite (List.filter_ext_in _ (fun j => negb (includes ms j))).
        -- assert (Hrest : (length (List.filter (fun j => negb (includes ms j))
                                     (zrange n (i + 1))) + length ms = n)%nat).
           { apply IH; [exact Hs |]. intros m Hm. pose proof (Hin m (or_intror Hm)).
             apply list_elem_of_In, Hall in Hm. lia. }
           lia.
        -- intros j Hj. apply zrange_In in Hj. rewrite includes_cons_ne by lia.
           reflexivity.
      * assert (Hhead : includes (a :: ms) i = false).
        { apply not_true_iff_false. rewrite includes_In. intros [Heq | Hm];
            [congruence |].
          apply list_elem_of_In, Hall in Hm. lia. }
        rewrite Hhead. cbn [negb length].
        assert (Hrest : (length (List.filter (fun j => negb (includes (a :: ms) j))
                                  (zrange n (i + 1))) + length (a :: ms) = n)%nat).
        { apply IH; [exact Hs0 |]. intros m Hm. pose proof (Hin m Hm).
          destruct Hm as [<- | Hm]; [lia |].
          apply list_elem_of_In, Hall in Hm. lia. }
        cbn [length] in Hrest. lia.
Qed.

(** X11.  An issue accounts for its group's whole span: spaceOccupied is
    the distance from the group's lowest to its highest member plus one,
    groupItemCount is the number of members, and the interleaved items are
    exactly the positions in between that the group does not hold, so their
    number is spaceOccupied - groupItemCount, at least one.  The span text
    and the message name these indices and the group. *)
Theorem X11_issue_accounts_for_span (plan : list PlanItem) (issue : Issue) :
  In issue (issues (validateGroupConfiguration plan)) ->
  exists first last : Z,
    itemGroupId (at_ plan first) = groupId issue
    /\ itemGroupId (at_ plan last) = groupId issue
    /\ (forall m, itemGroupId (at_ plan m) = groupId issue -> first <= m <= last)
    /\ spaceOccupied (details issue) = last - first + 1
    /\ groupItemCount (details issue)
       = Z.of_nat (length (membersOf plan (groupId issue)))
    /\ Z.of_nat (length (interleavedItems (details issue)))
       = spaceOccupied (details issue) - groupItemCount (details issue)
    /\ 1 <= Z.of_nat (length (interleavedItems (details issue)))
    /\ span (details issue)
       = "Timeline indices " +:+ Js.NumberToString (Js.Int first)
         +:+ "-" +:+ Js.NumberToString (Js.Int last)
    /\ message issue
       = "Group " +:+ groupId issue
         +:+ " is interleaved with other items. Items must be contiguous.".
Proof.
  intros Hin. destruct (validator_issue plan issue Hin) as (g & Hg & Hint & ->).
  cbn [issueFor groupId details spaceOccupied groupItemCount interleavedItems
       span message].
  pose proof (membersFrom_sorted plan 0 g) as Hs. fold (membersOf plan g) in Hs.
  pose proof (membersOf_grouped_In plan g) as Hmem.
  unfold interleaved in Hint. unfold infoOf.
  cbn [firstIndex lastIndex indices].
  destruct (membersOf plan g) as [| a ms] eqn:Em; [destruct Hint |].
  cbn [List.hd]. rewrite last_cons_default.
  pose proof (sorted_last_ge a ms Hs) as Hlast.
  exists a, (List.last ms a).
  split; [apply (Hmem a Hg); left; reflexivity |].
  split; [apply (Hmem _ Hg), last_In |].
  split; [intros m Hm; apply (Hmem m Hg) in Hm; exact (sorted_bounds a ms m Hs Hm) |].
  split; [reflexivity |]. split; [reflexivity |].
  rewrite gapsFrom_filter, length_map.
  assert (Hcount :
            (length (List.filter (fun j => negb (includes (a :: ms) j))
                       (zrange (Z.to_nat (List.last ms a - a + 1)) a))
             + length (a :: ms)
             = Z.to_nat (List.last ms a - a + 1))%nat).
  { apply gaps_and_members; [exact Hs |]. intros m Hm.
    pose proof (sorted_bounds a ms m Hs Hm). lia. }
  split; [lia |]. split; [lia |]. split; reflexivity.
Qed.

Lemma groupMap_extend_firsts (m : GroupMap) (k : string) (i : Z) :
  map (fun e => firstIndex (snd e)) (groupMap_extend m k i)
  = map (fun e => firstIndex (snd e)) m.
Proof.
  induction m as [| [k' info] m IH]; cbn [groupMap_extend map]; [reflexivity |].
  destruct (String.eqb k' k); cbn [map snd firstIndex];
    [reflexivity | rewrite IH; reflexivity].
Qed.

Lemma sorted_snoc (l : list Z) (x : Z) :
  StronglySorted Z.lt l -> Forall (fun y => y < x) l ->
  StronglySorted Z.lt (l ++ [x]).
Proof.
  induction 1 as [| a l Hs IH Hall]; intros Hlt; cbn [app].
  - constructor; constructor.
  - apply Forall_cons in Hlt. destruct Hlt as [Ha Hlt].
    constructor; [exact (IH Hlt) |].
    apply Forall_app. split; [exact Hall | constructor; [exact Ha | constructor]].
Qed.

(* The group map lists the groups by their first index. *)
Lemma firstPass_ordered (suf pre : list PlanItem) (groupMap : GroupMap) :
  StronglySorted Z.lt (map (fun e => firstIndex (snd e)) groupMap) ->
  Forall (fun y => y < Z.of_nat (length pre))
         (map (fun e => firstIndex (snd e)) groupMap) ->
  StronglySorted Z.lt
    (map (fun e => firstIndex (snd e))
         (firstPass suf (Z.of_nat (length pre)) groupMap)).
Proof.
  revert pre groupMap. induction suf as [| x suf IH]; intros pre groupMap Hs Hlt;
    cbn [firstPass]; [exact Hs |].
  specialize (IH (pre ++ [x])). rewrite length_app in IH. cbn [length] in IH.
  replace (Z.of_nat (length pre + 1)) with (Z.of_nat (length pre) + 1) in IH by lia.
  assert (Hweak : forall l, Forall (fun y => y < Z.of_nat (length pre)) l ->
                            Forall (fun y => y < Z.of_nat (length pre) + 1) l).
  { intros l H. eapply Forall_impl; [exact H |]. cbn beta. intros y Hy. lia. }
  unfold recordItem. destruct (Js.ToBoolean (groupIdOf x)); [| apply IH; auto].
  destruct (groupMap_has groupMap (Js.ToString (groupIdOf x))); cbn [negb].
  - apply IH; rewrite groupMap_extend_firsts; auto.
  - unfold groupMap_set. apply IH; rewrite map_app; cbn [map snd firstIndex].
    + apply sorted_snoc; assumption.
    + apply Forall_app. split; [auto |]. constructor; [lia | constructor].
Qed.

Lemma secondPass_sorted (plan : list PlanItem) (groupMap : GroupMap)
    (key : string -> Z) :
  StronglySorted Z.lt (map (fun e => key (fst e)) groupMap) ->
  StronglySorted Z.lt
    (map (fun issue => key (groupId issue)) (secondPass plan groupMap [])).
Proof.
  induction groupMap as [| [g info] rest IH]; cbn [map fst]; [constructor |].
  intros Hs. apply StronglySorted_inv in Hs. destruct Hs as [Hs Hall].
  rewrite secondPass_cons. destruct (negb _); cbn [app map]; [| exact (IH Hs)].
  constructor; [exact (IH Hs) |]. cbn [issueFor groupId].
  apply Forall_forall. intros y Hy. apply list_elem_of_In, in_map_iff in Hy.
  destruct Hy as (issue & <- & Hin).
  destruct (secondPass_In plan rest issue Hin) as (g' & info' & Hentry & _ & ->).
  cbn [issueFor groupId]. rewrite Forall_forall in Hall. apply Hall.
  apply list_elem_of_In, in_map_iff. exists (g', info'). split; [reflexivity | exact Hentry].
Qed.

(** X12.  The issues come in the order in which their groups first occur
    in the plan: along the list, the index of the group's first member
    strictly increases.  In particular no group is reported twice. *)
Theorem X12_issues_in_plan_order (plan : list PlanItem) :
  StronglySorted Z.lt
    (map (fun issue => List.hd 0 (membersOf plan (groupId issue)))
         (issues (validateGroupConfiguration plan))).
Proof.
  rewrite (proj1 (issues_unfold plan)).
  apply (secondPass_sorted plan (firstPass plan 0 [])
           (fun g => List.hd 0 (membersOf plan g))).
  destruct (firstPass_plan plan) as (_ & Hentries & _).
  pose proof (firstPass_ordered plan [] [] ltac:(constructor) ltac:(constructor))
    as Hord. cbn [length] in Hord.
  erewrite map_ext_in; [exact Hord |].
  intros [g info] Hin. cbn [fst snd].
  destruct (Hentries g info Hin) as (_ & _ & ->). reflexivity.
Qed.

(** ** The report of the validator *)

Lemma append_String (a : ascii) (s t : string) :
  String a s +:+ t = String a (s +:+ t).
Proof. reflexivity. Qed.

Lemma append_empty_r (s : string) : s +:+ "" = s.
Proof.
  induction s as [| a s IH]; [reflexivity |]. rewrite append_String, IH. reflexivity.
Qed.

Lemma append_assoc (s t u : string) : (s +:+ t) +:+ u = s +:+ (t +:+ u).
Proof.
  induction s as [| a s IH]; [reflexivity |].
  rewrite !append_String, IH. reflexivity.
Qed.

Lemma occursIn_refl (x : string) : occursIn x x.
Proof. exists "", "". rewrite append_empty_r. reflexivity. Qed.

Lemma occursIn_trans (x y z : string) : occursIn x y -> occursIn y z -> occursIn x z.
Proof.
  intros (p1 & q1 & ->) (p2 & q2 & ->). exists (p2 +:+ p1), (q1 +:+ q2).
  rewrite !append_assoc. reflexivity.
Qed.

Lemma occursIn_append_l (x s t : string) : occursIn x s -> occursIn x (s +:+ t).
Proof.
  intros (p & q & ->). exists p, (q +:+ t). rewrite !append_assoc. reflexivity.
Qed.

Lemma occursIn_append_r (x s t : string) : occursIn x t -> occursIn x (s +:+ t).
Proof.
  intros (p & q & ->). exists (s +:+ p), q. rewrite !append_assoc. reflexivity.
Qed.

Lemma join_cons (sep x : string) (rest : list string) :
  join sep (x :: rest)
  = x +:+ match rest with [] => "" | _ => sep +:+ join sep rest end.
Proof.
  destruct rest; cbn [join]; [rewrite append_empty_r |]; reflexivity.
Qed.

Lemma join_In (sep x : string) (a : list string) :
  In x a -> occursIn x (join sep a).
Proof.
  induction a as [| y a IH]; [intros [] |]. rewrite join_cons.
  intros [-> | Hin]; [apply occursIn_append_l, occursIn_refl |].
  apply occursIn_append_r. destruct a as [| z a]; [destruct Hin |].
  apply occursIn_append_r, IH, Hin.
Qed.

Lemma pushIssues_lines (issues : list Issue) (lines : list string) :
  pushIssues issues lines = lines ++ List.flat_map issueLines issues.
Proof.
  revert lines. induction issues as [| issue rest IH]; intros lines;
    cbn [pushIssues List.flat_map]; [rewrite app_nil_r; reflexivity |].
  rewrite IH, <- app_assoc. reflexivity.
Qed.

Lemma warningHeader_not_success (t : string) : warningHeader +:+ t <> successText.
Proof.
  intros H. apply (f_equal (String.get 3)) in H. vm_compute in H. discriminate.
Qed.

(** X13.  formatGroupValidationMessage returns the success text exactly
    for a result whose isValid is true.  For any other result the text
    starts with the warning header and contains, for every issue of the
    result, the line "Group <id>:", the issue's message, its span and each
    of its interleaved-item lines. *)
Theorem X13_formatGroupValidationMessage (validationResult : ValidationResult) :
  (formatGroupValidationMessage validationResult = successText
   <-> isValid validationResult = true)
  /\ (isValid validationResult = false ->
      (exists rest, formatGroupValidationMessage validationResult
                    = warningHeader +:+ rest)
      /\ forall issue : Issue,
           In issue (issues validationResult) ->
           occursIn ("Group " +:+ groupId issue +:+ ":")
                    (formatGroupValidationMessage validationResult)
           /\ occursIn (message issue)
                       (formatGroupValidationMessage validationResult)
           /\ occursIn (span (details issue))
                       (formatGroupValidationMessage validationResult)
           /\ forall line, In line (interleavedItems (details issue)) ->
                occursIn line (formatGroupValidationMessage validationResult)).
Proof.
  unfold formatGroupValidationMessage.
  destruct (isValid validationResult) eqn:Ev.
  - split; [split; reflexivity | discriminate].
  - rewrite pushIssues_lines. cbn [app]. rewrite join_cons. split.
    + split; [| discriminate]. intros H. exfalso.
      exact (warningHeader_not_success _ H).
    + intros _. split; [eauto |]. intros issue Hin.
      assert (Hline : forall line, In line (issueLines issue) ->
                occursIn line
                  (warningHeader +:+
                   match List.flat_map issueLines (issues validationResult) with
                   | [] => ""
                   | _ :: _ =>
                       LF +:+ join LF (List.flat_map issueLines
                                         (issues validationResult))
                   end)).
      { intros line Hline.
        assert (Hall : In line (List.flat_map issueLines (issues validationResult)))
          by (apply in_flat_map; eauto).
        apply occursIn_append_r.
        destruct (List.flat_map issueLines (issues validationResult)) eqn:E;
          [destruct Hall |].
        apply occursIn_append_r, join_In, Hall. }
      split; [apply Hline; left; reflexivity |].
      split; [eapply occursIn_trans; [| apply Hline; right; left; reflexivity];
              apply occursIn_append_r, occursIn_refl |].
      split; [eapply occursIn_trans;
              [| apply Hline; right; right; left; reflexivity];
              apply occursIn_append_r, occursIn_refl |].
      intros line Hl. eapply occursIn_trans; [apply join_In; exact Hl |].
      apply Hline. do 5 right. left. reflexivity.
Qed.


(** ** The timeline *)

Lemma findIndex_from_range {A : Type} (p : A -> bool) (a : list A) (k : Z) :
  findIndex_from p a k = -1 \/ k <= findIndex_from p a k < k + Z.of_nat (length a).
Proof.
  revert k. induction a as [| x a IH]; intros k; cbn [findIndex_from length];
    [left; reflexivity |].
  destruct (p x); [right; lia |]. destruct (IH (k + 1)) as [-> | H]; [left | right];
    [reflexivity | lia].
Qed.

Lemma findIndex_from_none {A : Type} (p : A -> bool) (a : list A) (k : Z) :
  (forall x, In x a -> p x = false) -> findIndex_from p a k = -1.
Proof.
  revert k. induction a as [| x a IH]; intros k Hall; cbn [findIndex_from];
    [reflexivity |].
  rewrite (Hall x (or_introl eq_refl)). apply IH. intros y Hy. apply Hall.
  right. exact Hy.
Qed.

(* In a list where everything before position [q] fails the test and the
   element at [q] passes it, findIndex returns [q]. *)
Lemma findIndex_from_at {A : Type} (p : A -> bool) (a : list A) (k q : Z) (x : A) :
  at_ a q = Some x -> p x = true ->
  (forall q' y, 0 <= q' < q -> at_ a q' = Some y -> p y = false) ->
  findIndex_from p a k = k + q.
Proof.
  revert k q. induction a as [| y a IH]; intros k q Hat Hp Hbefore.
  - apply at_Some in Hat. cbn in Hat. lia.
  - pose proof (at_Some _ _ _ Hat) as Hq. cbn [findIndex_from].
    destruct (Z.eq_dec q 0) as [-> | Hne].
    + cbn in Hat. injection Hat as ->. rewrite Hp. lia.
    + rewrite (Hbefore 0 y ltac:(lia) eq_refl).
      replace (k + q) with (k + 1 + (q - 1)) by lia. apply IH.
      * rewrite <- (at_cons_succ y a (q - 1)) by lia.
        replace (q - 1 + 1) with q by lia. exact Hat.
      * exact Hp.
      * intros q' z Hq' Hz. apply (Hbefore (q' + 1) z ltac:(lia)).
        rewrite at_cons_succ by lia. exact Hz.
Qed.

Lemma at_In {A : Type} (a : list A) (q : Z) (x : A) : at_ a q = Some x -> In x a.
Proof.
  unfold at_. destruct (q <? 0); [discriminate |]. intros H.
  apply list_elem_of_In. eapply list_elem_of_lookup_2, H.
Qed.

Lemma In_at {A : Type} (a : list A) (x : A) :
  In x a -> exists q, at_ a q = Some x.
Proof.
  intros Hin. apply list_elem_of_In, list_elem_of_lookup in Hin.
  destruct Hin as [n Hn]. exists (Z.of_nat n). unfold at_.
  destruct (Z.ltb_spec (Z.of_nat n) 0); [lia |]. rewrite Nat2Z.id. exact Hn.
Qed.

(* Positions follow the order of a sorted list. *)
Lemma sorted_at {A : Type} (R : A -> A -> Prop) (a : list A) (q q' : Z) (x y : A) :
  StronglySorted R a -> at_ a q = Some x -> at_ a q' = Some y -> q < q' -> R x y.
Proof.
  intros Hs. revert q q'. induction Hs as [| z a Hs IH Hall]; intros q q' Hx Hy Hlt.
  - apply at_Some in Hx. cbn in Hx. lia.
  - pose proof (at_Some _ _ _ Hx) as Hq. pose proof (at_Some _ _ _ Hy) as Hq'.
    replace q' with (q' - 1 + 1) in Hy by lia. rewrite at_cons_succ in Hy by lia.
    destruct (Z.eq_dec q 0) as [-> | Hne].
    + cbn in Hx. injection Hx as ->. rewrite Forall_forall in Hall.
      apply Hall, list_elem_of_In. eapply at_In, Hy.
    + replace q with (q - 1 + 1) in Hx by lia. rewrite at_cons_succ in Hx by lia.
      apply (IH (q - 1) (q' - 1)); [assumption | assumption | lia].
Qed.

Lemma sorted_app {A : Type} (R : A -> A -> Prop) (a b : list A) :
  StronglySorted R a -> StronglySorted R b ->
  (forall x y, In x a -> In y b -> R x y) ->
  StronglySorted R (a ++ b).
Proof.
  induction 1 as [| z a Hs IH Hall]; intros Hb Hab; cbn [app]; [exact Hb |].
  constructor.
  - apply IH; [exact Hb |]. intros x y Hx Hy. apply Hab; [right |]; assumption.
  - apply Forall_app. split; [exact Hall |]. apply Forall_forall. intros y Hy.
    apply Hab; [left; reflexivity | apply list_elem_of_In; exact Hy].
Qed.

Section TimelineFacts.
Variable StringToNumber : string -> Js.number.

Lemma pushSets_run (i : Z) (n : nat) (s : Z) (timeline : list TimelineEntry) :
  pushSets i n s timeline = timeline ++ map (mkEntry i) (zrange n s).
Proof.
  revert s timeline. induction n as [| n IH]; intros s timeline;
    cbn [pushSets zrange map]; [rewrite app_nil_r; reflexivity |].
  rewrite IH, <- app_assoc. reflexivity.
Qed.

Lemma buildPlanTimeline_from_run (items : list PlanItem) (i : Z)
    (timeline : list TimelineEntry) :
  buildPlanTimeline_from StringToNumber items i timeline
  = timeline ++ timelineOf StringToNumber items i.
Proof.
  revert i timeline. induction items as [| it rest IH]; intros i timeline;
    cbn [buildPlanTimeline_from timelineOf]; [rewrite app_nil_r; reflexivity |].
  rewrite IH, pushSets_run, <- app_assoc. reflexivity.
Qed.

Lemma timelineOf_In (items : list PlanItem) (i : Z) (e : TimelineEntry) :
  In e (timelineOf StringToNumber items i)
  <-> exists it, i <= itemIndex e
                 /\ at_ items (itemIndex e - i) = Some it
                 /\ 1 <= set e <= timelineSets StringToNumber it.
Proof.
  revert i. induction items as [| it rest IH]; intros i; cbn [timelineOf].
  - split; [intros [] |]. intros (it & _ & Hat & _). apply at_Some in Hat.
    cbn in Hat. lia.
  - rewrite in_app_iff, in_map_iff, IH. split.
    + intros [(s & <- & Hs) | (it' & Hi & Hat & Hset)].
      * apply zrange_In in Hs. exists it. cbn [itemIndex set].
        replace (i - i) with 0 by lia. split; [lia |]. split; [reflexivity | lia].
      * exists it'. split; [lia |]. split; [| exact Hset].
        replace (itemIndex e - i) with (itemIndex e - (i + 1) + 1) by lia.
        rewrite at_cons_succ by lia. exact Hat.
    + intros (it' & Hi & Hat & Hset).
      destruct (Z.eq_dec (itemIndex e) i) as [Heq | Hne].
      * left. exists (set e). rewrite Heq in Hat. replace (i - i) with 0 in Hat by lia.
        cbn in Hat. injection Hat as ->.
        split; [destruct e; cbn in *; congruence | apply zrange_In; lia].
      * right. exists it'. split; [lia |]. split; [| exact Hset].
        replace (itemIndex e - i) with (itemIndex e - (i + 1) + 1) in Hat by lia.
        rewrite at_cons_succ in Hat by lia. exact Hat.
Qed.

Lemma timelineOf_sorted (items : list PlanItem) (i : Z) :
  StronglySorted entryLt (timelineOf StringToNumber items i).
Proof.
  revert i. induction items as [| it rest IH]; intros i; cbn [timelineOf];
    [constructor |].
  apply sorted_app; [| apply IH |].
  - generalize (Z.to_nat (timelineSets StringToNumber it)) 1.
    intros n. induction n as [| n IHn]; intros s; cbn [zrange map]; constructor.
    + apply IHn.
    + apply Forall_forall. intros e He. apply list_elem_of_In, in_map_iff in He.
      destruct He as (s' & <- & Hs'). apply zrange_In in Hs'.
      right. cbn. lia.
  - intros x y Hx Hy. apply in_map_iff in Hx. destruct Hx as (s & <- & _).
    apply timelineOf_In in Hy. destruct Hy as (_ & Hy & _). left. cbn. lia.
Qed.

Lemma entry_test (e : TimelineEntry) (i s : Z) :
  ((itemIndex e =? i) && (set e =? s))%bool = true <-> e = mkEntry i s.
Proof.
  rewrite andb_true_iff, !Z.eqb_eq. destruct e as [i' s']. cbn. split.
  - intros [-> ->]. reflexivity.
  - intros [= -> ->]. split; reflexivity.
Qed.

Lemma entryLt_irrefl (e : TimelineEntry) : ~ entryLt e e.
Proof. unfold entryLt. lia. Qed.

(** X15.  The timeline and findTimelineIndexFor are inverse to each other.
    Every plan item contributes its sets 1, 2, ..., n in order, where n is
    its number of sets and at least 1 even when sets is 0, negative or not a
    number; the entries are ordered by item and then by set.  Looking up the
    entry found at a position gives that position back, looking up a set of
    an item gives a position holding exactly that entry, and any other
    lookup gives -1. *)
Theorem X15_timeline_round_trip (items : list PlanItem) :
  let timeline := buildPlanTimeline StringToNumber items in
  (forall (q : Z) (e : TimelineEntry),
     at_ timeline q = Some e ->
     findTimelineIndexFor timeline (itemIndex e) (set e) = q
     /\ exists it, at_ items (itemIndex e) = Some it
                   /\ 1 <= set e <= timelineSets StringToNumber it)
  /\ (forall (i s : Z) (it : PlanItem),
        at_ items i = Some it ->
        1 <= s <= timelineSets StringToNumber it ->
        at_ timeline (findTimelineIndexFor timeline i s) = Some (mkEntry i s))
  /\ (forall i s : Z,
        (forall it, at_ items i = Some it ->
                    ~ 1 <= s <= timelineSets StringToNumber it) ->
        findTimelineIndexFor timeline i s = -1)
  /\ (forall it, In it items -> 1 <= timelineSets StringToNumber it)
  /\ StronglySorted entryLt timeline.
Proof.
  cbn zeta. unfold buildPlanTimeline. rewrite buildPlanTimeline_from_run.
  cbn [app]. set (timeline := timelineOf StringToNumber items 0).
  pose proof (timelineOf_sorted items 0) as Hsorted. fold timeline in Hsorted.
  assert (Hin : forall e, In e timeline
                <-> exists it, at_ items (itemIndex e) = Some it
                               /\ 1 <= set e <= timelineSets StringToNumber it).
  { intros e. unfold timeline. rewrite timelineOf_In.
    replace (itemIndex e - 0) with (itemIndex e) by lia.
    split; intros (it & H); exists it; [tauto |].
    split; [destruct H as [H _]; apply at_Some in H; lia | exact H]. }
  assert (Hround : forall q e, at_ timeline q = Some e ->
            findTimelineIndexFor timeline (itemIndex e) (set e) = q).
  { intros q e Hat. unfold findTimelineIndexFor.
    rewrite (findIndex_from_at _ timeline 0 q e Hat); [lia | |].
    - apply entry_test. destruct e. reflexivity.
    - intros q' y Hq' Hy. apply not_true_iff_false. intros Htest.
      apply entry_test in Htest.
      pose proof (sorted_at entryLt timeline q' q y e Hsorted Hy Hat ltac:(lia)) as Hlt.
      rewrite Htest in Hlt. destruct e. exact (entryLt_irrefl _ Hlt). }
  split; [| split; [| split; [| split]]].
  - intros q e Hat. split; [exact (Hround q e Hat) |]. apply Hin. eapply at_In, Hat.
  - intros i s it Hat Hs.
    assert (Hmem : In (mkEntry i s) timeline) by (apply Hin; exists it; auto).
    destruct (In_at timeline _ Hmem) as [q Hq].
    rewrite <- (Hround q _ Hq) in Hq. exact Hq.
  - intros i s Hnone. unfold findTimelineIndexFor. apply findIndex_from_none.
    intros e He. apply not_true_iff_false. intros Htest. apply entry_test in Htest.
    subst e. apply Hin in He. destruct He as (it & Hat & Hs).
    exact (Hnone it Hat Hs).
  - intros it _. unfold timelineSets. lia.
  - exact Hsorted.
Qed.

Lemma findTimelineIndexFor_at (items : list PlanItem) (q : Z) (e : TimelineEntry) :
  at_ (timelineOf StringToNumber items 0) q = Some e ->
  findTimelineIndexFor (timelineOf StringToNumber items 0) (itemIndex e) (set e) = q.
Proof.
  intros Hat. unfold findTimelineIndexFor.
  rewrite (findIndex_from_at _ _ 0 q e Hat); [lia | |].
  - apply entry_test. destruct e. reflexivity.
  - intros q' y Hq' Hy. apply not_true_iff_false. intros Htest.
    apply entry_test in Htest.
    pose proof (sorted_at entryLt _ q' q y e (timelineOf_sorted items 0) Hy Hat
                  ltac:(lia)) as Hlt.
    rewrite Htest in Hlt. destruct e. exact (entryLt_irrefl _ Hlt).
Qed.

Lemma at_zrange (n : nat) (a q : Z) :
  0 <= q < Z.of_nat n -> at_ (zrange n a) q = Some (a + q).
Proof.
  revert a q. induction n as [| n IH]; intros a q Hq; [lia |]. cbn [zrange].
  destruct (Z.eq_dec q 0) as [-> | Hne]; [rewrite Z.add_0_r; reflexivity |].
  replace q with (q - 1 + 1) at 1 by lia. rewrite at_cons_succ by lia.
  rewrite IH by lia. f_equal. lia.
Qed.

Lemma at_map {A B : Type} (f : A -> B) (a : list A) (q : Z) :
  at_ (map f a) q = option_map f (at_ a q).
Proof.
  unfold at_. destruct (q <? 0); [reflexivity |]. rewrite list_lookup_fmap.
  destruct (a !! Z.to_nat q); reflexivity.
Qed.

Lemma zrange_length (n : nat) (a : Z) : length (zrange n a) = n.
Proof.
  revert a. induction n as [| n IH]; intros a; cbn [zrange length];
    [| rewrite IH]; reflexivity.
Qed.

Lemma timelineSets_pos (it : PlanItem) : 1 <= timelineSets StringToNumber it.
Proof. unfold timelineSets. lia. Qed.

Lemma timelineOf_length (items : list PlanItem) (i : Z) :
  Z.of_nat (length (timelineOf StringToNumber items i))
  = timelineOffset StringToNumber items (length items).
Proof.
  revert i. induction items as [| it rest IH]; intros i;
    cbn [timelineOf timelineOffset length]; [reflexivity |].
  rewrite length_app, length_map, zrange_length, Nat2Z.inj_add, IH.
  pose proof (timelineSets_pos it). lia.
Qed.

Lemma timelineOf_at_offset (items : list PlanItem) (i0 i s : Z) (it : PlanItem) :
  i0 <= i -> at_ items (i - i0) = Some it ->
  1 <= s <= timelineSets StringToNumber it ->
  at_ (timelineOf StringToNumber items i0)
      (timelineOffset StringToNumber items (Z.to_nat (i - i0)) + s - 1)
  = Some (mkEntry i s).
Proof.
  revert i0. induction items as [| x rest IH]; intros i0 Hi Hat Hs.
  - apply at_Some in Hat. cbn in Hat. lia.
  - cbn [timelineOf]. pose proof (timelineSets_pos x) as Hx.
    destruct (Z.eq_dec i i0) as [-> | Hne].
    + replace (i0 - i0) with 0 in * by lia. cbn in Hat. injection Hat as ->.
      change (Z.to_nat 0) with 0%nat. cbn [timelineOffset]. rewrite at_app_l
        by (rewrite length_map, zrange_length; lia).
      rewrite at_map, at_zrange by lia. cbn [option_map]. do 2 f_equal. lia.
    + replace (Z.to_nat (i - i0)) with (S (Z.to_nat (i - (i0 + 1)))) by lia.
      cbn [timelineOffset].
      replace (i - i0) with (i - (i0 + 1) + 1) in Hat by lia.
      rewrite at_cons_succ in Hat by lia.
      replace (timelineSets StringToNumber x
               + timelineOffset StringToNumber rest (Z.to_nat (i - (i0 + 1))) + s - 1)
        with (Z.of_nat (length (map (mkEntry i0)
                                  (zrange (Z.to_nat (timelineSets StringToNumber x)) 1)))
              + (timelineOffset StringToNumber rest (Z.to_nat (i - (i0 + 1))) + s - 1))
        by (rewrite length_map, zrange_length; lia).
      rewrite at_app_shift.
      * apply IH; [lia | exact Hat | exact Hs].
      * assert (0 <= timelineOffset StringToNumber rest (Z.to_nat (i - (i0 + 1)))).
        { clear. generalize (Z.to_nat (i - (i0 + 1))). revert rest.
          induction rest as [| y rest IHr]; intros [| n]; cbn [timelineOffset];
            try lia.
          pose proof (timelineSets_pos y). specialize (IHr n). lia. }
        lia.
Qed.

(* Set [s] of item [i] is found after the entries of the items before it. *)
Lemma timeline_position (items : list PlanItem) (i s : Z) (it : PlanItem) :
  at_ items i = Some it ->
  1 <= s <= timelineSets StringToNumber it ->
  findTimelineIndexFor (buildPlanTimeline StringToNumber items) i s
  = timelineOffset StringToNumber items (Z.to_nat i) + s - 1.
Proof.
  intros Hat Hs. unfold buildPlanTimeline.
  rewrite buildPlanTimeline_from_run. cbn [app].
  pose proof (at_Some _ _ _ Hat) as Hi.
  pose proof (timelineOf_at_offset items 0 i s it ltac:(lia)) as Hpos.
  replace (i - 0) with i in Hpos by lia. specialize (Hpos Hat Hs).
  apply findTimelineIndexFor_at in Hpos. exact Hpos.
Qed.

Lemma timeline_length (items : list PlanItem) :
  Z.of_nat (length (buildPlanTimeline StringToNumber items))
  = timelineOffset StringToNumber items (length items).
Proof.
  unfold buildPlanTimeline. rewrite buildPlanTimeline_from_run. cbn [app].
  apply timelineOf_length.
Qed.

Lemma timelineOffset_succ (items : list PlanItem) (i : nat) (it : PlanItem) :
  at_ items (Z.of_nat i) = Some it ->
  timelineOffset StringToNumber items (S i)
  = timelineOffset StringToNumber items i + timelineSets StringToNumber it.
Proof.
  revert i. induction items as [| x rest IH]; intros i Hat.
  - apply at_Some in Hat. cbn in Hat. lia.
  - destruct i as [| i].
    + cbn in Hat. injection Hat as ->. cbn [timelineOffset].
      destruct rest; cbn [timelineOffset]; lia.
    + replace (Z.of_nat (S i)) with (Z.of_nat i + 1) in Hat by lia.
      rewrite at_cons_succ in Hat by lia.
      change (timelineOffset StringToNumber (x :: rest) (S (S i)))
        with (timelineSets StringToNumber x
              + timelineOffset StringToNumber rest (S i)).
      rewrite (IH i Hat). cbn [timelineOffset]. lia.
Qed.

(** X16.  The timeline has no holes and nothing but the sets of the
    plan: set 1 of the first item is at position 0; each further set of an
    item comes directly after the set before it; set 1 of the next item
    comes directly after the last set of an item; and the last set of the
    last item is the last entry.  Here the last set of an item is the set n
    with n <= max(1, Number(sets) || 1) < n + 1.  The timeline is at least as
    long as the plan. *)
Theorem X16_timeline_is_consecutive (items : list PlanItem) :
  let timeline := buildPlanTimeline StringToNumber items in
  let position := findTimelineIndexFor timeline in
  (items <> [] -> position 0 1 = 0)
  /\ (forall (i s : Z) (it : PlanItem),
        at_ items i = Some it ->
        1 <= s -> s + 1 <= timelineSets StringToNumber it ->
        position i (s + 1) = position i s + 1)
  /\ (forall (i n : Z) (it next : PlanItem),
        at_ items i = Some it -> at_ items (i + 1) = Some next ->
        1 <= n <= timelineSets StringToNumber it ->
        timelineSets StringToNumber it < n + 1 ->
        position (i + 1) 1 = position i n + 1)
  /\ (forall (i n : Z) (it : PlanItem),
        at_ items i = Some it -> i + 1 = Z.of_nat (length items) ->
        1 <= n <= timelineSets StringToNumber it ->
        timelineSets StringToNumber it < n + 1 ->
        Z.of_nat (length timeline) = position i n + 1)
  /\ Z.of_nat (length items) <= Z.of_nat (length timeline).
Proof.
  cbn zeta. split; [| split; [| split; [| split]]].
  - intros Hne. destruct items as [| it rest]; [contradiction |].
    rewrite (timeline_position (it :: rest) 0 1 it eq_refl).
    + reflexivity.
    + pose proof (timelineSets_pos it). lia.
  - intros i s it Hat Hs Hnext.
    rewrite (timeline_position items i (s + 1) it Hat) by lia.
    rewrite (timeline_position items i s it Hat) by lia. lia.
  - intros i n it next Hat Hat' Hn Hlast.
    pose proof (at_Some _ _ _ Hat) as Hi.
    rewrite (timeline_position items (i + 1) 1 next Hat')
      by (pose proof (timelineSets_pos next); lia).
    rewrite (timeline_position items i n it Hat Hn).
    replace (Z.to_nat (i + 1)) with (S (Z.to_nat i)) by lia.
    rewrite (timelineOffset_succ items (Z.to_nat i) it)
      by (rewrite Z2Nat.id by lia; exact Hat).
    lia.
  - intros i n it Hat Hend Hn Hlast.
    pose proof (at_Some _ _ _ Hat) as Hi.
    rewrite timeline_length, (timeline_position items i n it Hat Hn).
    replace (length items) with (S (Z.to_nat i)) by lia.
    rewrite (timelineOffset_succ items (Z.to_nat i) it)
      by (rewrite Z2Nat.id by lia; exact Hat).
    lia.
  - rewrite timeline_length. clear. induction items as [| x rest IH];
      cbn [length timelineOffset]; [lia |].
    pose proof (timelineSets_pos x). lia.
Qed.

End TimelineFacts.

(** ** Maps kept as lists of entries *)

Section Entries.
Context {K V : Type} (eqb : K -> K -> bool).
Hypothesis eqb_eq : forall a b, eqb a b = true <-> a = b.

Lemma eqb_refl_true (a : K) : eqb a a = true.
Proof. apply eqb_eq. reflexivity. Qed.

Lemma eqb_neq_false (a b : K) : a <> b -> eqb a b = false.
Proof.
  intros Hne. destruct (eqb a b) eqn:E; [| reflexivity].
  apply eqb_eq in E. contradiction.
Qed.

Lemma entries_get_In (m : list (K * V)) (k : K) (v : V) :
  entries_get eqb m k = Some v -> In (k, v) m.
Proof.
  induction m as [| [k' v'] m IH]; cbn [entries_get]; [discriminate |].
  destruct (eqb k' k) eqn:E.
  - intros [= ->]. apply eqb_eq in E. subst. left. reflexivity.
  - intros H. right. exact (IH H).
Qed.

Lemma entries_get_None (m : list (K * V)) (k : K) :
  entries_get eqb m k = None <-> ~ In k (map fst m).
Proof.
  induction m as [| [k' v'] m IH]; cbn [entries_get map fst In]; [tauto |].
  destruct (eqb k' k) eqn:E.
  - apply eqb_eq in E. split; [discriminate | tauto].
  - rewrite IH. split; [| tauto]. intros Hn [Heq | Hin]; [| tauto].
    rewrite Heq, eqb_refl_true in E. discriminate.
Qed.

Lemma In_entries_get (m : list (K * V)) (k : K) (v : V) :
  NoDup (map fst m) -> In (k, v) m -> entries_get eqb m k = Some v.
Proof.
  induction m as [| [k' v'] m IH]; cbn [map fst]; [intros _ [] |].
  intros Hnd Hin. apply NoDup_cons in Hnd. destruct Hnd as [Hfresh Hnd].
  cbn [entries_get]. destruct Hin as [[= -> ->] | Hin].
  - rewrite eqb_refl_true. reflexivity.
  - rewrite eqb_neq_false; [exact (IH Hnd Hin) |].
    intros ->. apply Hfresh, list_elem_of_In. exact (in_map fst m _ Hin).
Qed.

Lemma entries_get_set_eq (m : list (K * V)) (k : K) (v : V) :
  entries_get eqb (entries_set eqb m k v) k = Some v.
Proof.
  induction m as [| [k' v'] m IH]; cbn [entries_set entries_get].
  - rewrite eqb_refl_true. reflexivity.
  - destruct (eqb k' k) eqn:E; cbn [entries_get]; rewrite E; [reflexivity | exact IH].
Qed.

Lemma entries_get_set_ne (m : list (K * V)) (k k' : K) (v : V) :
  k <> k' -> entries_get eqb (entries_set eqb m k v) k' = entries_get eqb m k'.
Proof.
  intros Hne. induction m as [| [k0 v0] m IH]; cbn [entries_set entries_get].
  - rewrite eqb_neq_false by exact Hne. reflexivity.
  - destruct (eqb k0 k) eqn:E; cbn [entries_get].
    + apply eqb_eq in E. subst k0. rewrite eqb_neq_false by exact Hne. reflexivity.
    + rewrite IH. reflexivity.
Qed.

Lemma entries_set_keys_old (m : list (K * V)) (k : K) (v : V) :
  In k (map fst m) -> map fst (entries_set eqb m k v) = map fst m.
Proof.
  induction m as [| [k' v'] m IH]; cbn [map fst In entries_set]; [intros [] |].
  destruct (eqb k' k) eqn:E; cbn [map fst]; [reflexivity |].
  intros [Heq | Hin]; [rewrite Heq, eqb_refl_true in E; discriminate |].
  rewrite (IH Hin). reflexivity.
Qed.

Lemma entries_set_keys_new (m : list (K * V)) (k : K) (v : V) :
  ~ In k (map fst m) -> entries_set eqb m k v = m ++ [(k, v)].
Proof.
  induction m as [| [k' v'] m IH]; cbn [map fst In entries_set app]; [reflexivity |].
  intros Hn. rewrite eqb_neq_false by tauto. rewrite IH by tauto. reflexivity.
Qed.

End Entries.

(** ** buildGroups *)

Lemma memberItemsFrom_indices (plan : list PlanItem) (i : Z) (g : string) :
  map gi_index (memberItemsFrom plan i g) = membersFrom plan i g.
Proof.
  revert i. induction plan as [| x plan IH]; intros i;
    cbn [memberItemsFrom membersFrom]; [reflexivity |].
  destruct (String.eqb (itemGroupId (Some x)) g); cbn [map gi_index]; rewrite IH;
    reflexivity.
Qed.

Lemma memberItems_indices (plan : list PlanItem) (g : string) :
  map gi_index (memberItems plan g) = membersOf plan g.
Proof. apply memberItemsFrom_indices. Qed.

Lemma memberItemsFrom_app (a b : list PlanItem) (i : Z) (g : string) :
  memberItemsFrom (a ++ b) i g
  = memberItemsFrom a i g ++ memberItemsFrom b (i + Z.of_nat (length a)) g.
Proof.
  revert i. induction a as [| x a IH]; intros i; cbn [memberItemsFrom app length].
  - f_equal. lia.
  - rewrite IH.
    replace (i + 1 + Z.of_nat (length a)) with (i + Z.of_nat (S (length a))) by lia.
    destruct (String.eqb (itemGroupId (Some x)) g); reflexivity.
Qed.

Lemma memberItems_snoc (pre : list PlanItem) (x : PlanItem) (g : string) :
  memberItems (pre ++ [x]) g
  = memberItems pre g
    ++ (if String.eqb (itemGroupId (Some x)) g
        then [mkGroupItem (Z.of_nat (length pre)) x] else []).
Proof.
  unfold memberItems. rewrite memberItemsFrom_app. cbn [memberItemsFrom].
  replace (0 + Z.of_nat (length pre)) with (Z.of_nat (length pre)) by lia.
  destruct (String.eqb (itemGroupId (Some x)) g); reflexivity.
Qed.

Lemma memberItems_snoc_other (pre : list PlanItem) (x : PlanItem) (g : string) :
  itemGroupId (Some x) <> g -> memberItems (pre ++ [x]) g = memberItems pre g.
Proof.
  intros Hne. rewrite memberItems_snoc.
  destruct (String.eqb_spec (itemGroupId (Some x)) g); [contradiction |].
  apply app_nil_r.
Qed.

Lemma memberItemsFrom_at (plan : list PlanItem) (i : Z) (g : string) (e : GroupItem) :
  In e (memberItemsFrom plan i g) -> at_ plan (gi_index e - i) = Some (gi_item e).
Proof.
  revert i. induction plan as [| x plan IH]; intros i; cbn [memberItemsFrom];
    [intros [] |].
  assert (Hrest : In e (memberItemsFrom plan (i + 1) g) ->
                  at_ (x :: plan) (gi_index e - i) = Some (gi_item e)).
  { intros Hin. pose proof (IH (i + 1) Hin) as Hat.
    pose proof (at_Some _ _ _ Hat).
    replace (gi_index e - i) with (gi_index e - (i + 1) + 1) by lia.
    rewrite at_cons_succ by lia. exact Hat. }
  destruct (String.eqb (itemGroupId (Some x)) g); [| exact Hrest].
  intros [<- | Hin]; [| exact (Hrest Hin)].
  cbn [gi_index gi_item]. replace (i - i) with 0 by lia. reflexivity.
Qed.

Lemma memberItems_nil (plan : list PlanItem) (g : string) :
  membersOf plan g = [] -> memberItems plan g = [].
Proof.
  intros H. rewrite <- memberItems_indices in H.
  destruct (memberItems plan g); [reflexivity | discriminate].
Qed.

Lemma alter_snoc {A : Type} (f : A -> A) (l : list A) (x : A) :
  alter f (length l) (l ++ [x]) = l ++ [f x].
Proof. induction l as [| y l IH]; cbn; [reflexivity | f_equal; exact IH]. Qed.

Lemma built_nil : built [] (mkBuildState [] [] []).
Proof.
  split; [reflexivity |]. split; [constructor |]. split; [intros g a [] |].
  split; [intros g _ H; exfalso; apply H; reflexivity |].
  intros k r H. cbn in H. discriminate.
Qed.

(* An ungrouped item gets a group of its own. *)
Lemma built_step_standalone (pre : list PlanItem) (x : PlanItem) (st : BuildState) :
  built pre st -> itemGroupId (Some x) = "" ->
  built (pre ++ [x])
    (mkBuildState
       (b_arrays st ++ [[mkGroupItem (Z.of_nat (length pre)) x]])
       (b_groupMap st)
       (b_groups st
        ++ [mkGroupRef ("standalone-" +:+ Js.NumberToString (Js.Int (Z.of_nat (length pre))))
                       (length (b_arrays st)) false])).
Proof.
  intros (Hlen & Hnd & Hmap & Hall & Hgroups) Hx.
  split; [cbn [b_arrays b_groups]; rewrite !length_app; cbn [length]; lia |].
  split; [exact Hnd |]. cbn [b_arrays b_groupMap b_groups]. split; [| split].
  - intros g a Hin. destruct (Hmap g a Hin) as (Hg & Hgr & Har & Hms).
    split; [exact Hg |].
    split; [apply lookup_app_l_Some; exact Hgr |].
    split; [rewrite memberItems_snoc_other by congruence;
            apply lookup_app_l_Some; exact Har |].
    rewrite membersOf_snoc_other by congruence. exact Hms.
  - intros g Hg Hms. rewrite membersOf_snoc_other in Hms by congruence.
    exact (Hall g Hg Hms).
  - intros k r Hk. apply lookup_snoc_Some in Hk.
    destruct Hk as [[Hlt Hk] | [-> <-]].
    + destruct (Hgroups k r Hk) as [Hit Hkind]. split; [exact Hit |].
      destruct (r_isGroup r); [exact Hkind |].
      destruct Hkind as (i & item & Hat & Hid & Hname & Har).
      exists i, item. split; [rewrite at_app_l; [exact Hat |];
                              apply at_Some in Hat; lia |].
      split; [exact Hid |]. split; [exact Hname |].
      apply lookup_app_l_Some. exact Har.
    + cbn [r_items r_isGroup r_id]. split; [lia |].
      exists (Z.of_nat (length pre)), x.
      split; [apply at_split_head |]. split; [exact Hx |]. split; [reflexivity |].
      rewrite <- Hlen. apply list_lookup_middle. reflexivity.
Qed.

(* A further member of a known group is pushed on the group's array. *)
Lemma built_step_member (pre : list PlanItem) (x : PlanItem) (st : BuildState)
    (address : nat) :
  built pre st -> itemGroupId (Some x) <> "" ->
  In (itemGroupId (Some x), address) (b_groupMap st) ->
  built (pre ++ [x])
    (mkBuildState
       (array_push (b_arrays st) address (mkGroupItem (Z.of_nat (length pre)) x))
       (b_groupMap st) (b_groups st)).
Proof.
  intros (Hlen & Hnd & Hmap & Hall & Hgroups) Hx Hin.
  set (k := itemGroupId (Some x)) in *.
  destruct (Hmap k address Hin) as (_ & Hgr0 & Har0 & Hms0).
  unfold array_push.
  split; [cbn [b_arrays b_groups]; rewrite length_alter; exact Hlen |].
  split; [exact Hnd |]. cbn [b_arrays b_groupMap b_groups]. split; [| split].
  - intros g a Hga. destruct (Hmap g a Hga) as (Hg & Hgr & Har & Hms).
    split; [exact Hg |]. split; [exact Hgr |].
    destruct (String.eqb_spec k g) as [<- | Hne].
    + assert (a = address) as ->.
      { pose proof (In_entries_get String.eqb String.eqb_eq _ _ _ Hnd Hga) as H1.
        pose proof (In_entries_get String.eqb String.eqb_eq _ _ _ Hnd Hin) as H2.
        congruence. }
      split.
      * rewrite list_lookup_alter_eq, Har. cbn [fmap option_fmap option_map].
        subst k. rewrite memberItems_snoc, String.eqb_refl. reflexivity.
      * subst k. rewrite membersOf_snoc_same.
        intros Hnil. apply app_eq_nil in Hnil. destruct Hnil as [_ Hnil]. discriminate.
    + assert (Haddr : address <> a).
      { intros ->. rewrite Hgr0 in Hgr. injection Hgr as Heq. contradiction. }
      split.
      * rewrite list_lookup_alter_ne by exact Haddr.
        rewrite memberItems_snoc_other by exact Hne. exact Har.
      * rewrite membersOf_snoc_other by exact Hne. exact Hms.
  - intros g Hg Hms. destruct (String.eqb_spec k g) as [<- | Hne]; [eauto |].
    rewrite membersOf_snoc_other in Hms by exact Hne. exact (Hall g Hg Hms).
  - intros j r Hj. destruct (Hgroups j r Hj) as [Hit Hkind]. split; [exact Hit |].
    destruct (r_isGroup r) eqn:Er; [exact Hkind |].
    destruct Hkind as (i & item & Hat & Hid & Hname & Har).
    exists i, item. split; [rewrite at_app_l; [exact Hat |];
                            apply at_Some in Hat; lia |].
    split; [exact Hid |]. split; [exact Hname |].
    rewrite list_lookup_alter_ne; [exact Har |].
    intros ->. rewrite Hgr0 in Hj. injection Hj as <-. discriminate.
Qed.

(* The first member of a group allocates the group's array. *)
Lemma built_step_first (pre : list PlanItem) (x : PlanItem) (st : BuildState) :
  built pre st -> itemGroupId (Some x) <> "" ->
  ~ In (itemGroupId (Some x)) (map fst (b_groupMap st)) ->
  built (pre ++ [x])
    (mkBuildState
       (b_arrays st ++ [[mkGroupItem (Z.of_nat (length pre)) x]])
       (b_groupMap st ++ [(itemGroupId (Some x), length (b_arrays st))])
       (b_groups st
        ++ [mkGroupRef (itemGroupId (Some x)) (length (b_arrays st)) true])).
Proof.
  intros (Hlen & Hnd & Hmap & Hall & Hgroups) Hx Hfresh.
  set (k := itemGroupId (Some x)) in *.
  assert (Hnone : membersOf pre k = []).
  { destruct (membersOf pre k) eqn:Em; [reflexivity |].
    destruct (Hall k Hx) as [a Ha]; [rewrite Em; discriminate |].
    exfalso. apply Hfresh. exact (in_map fst _ _ Ha). }
  split; [cbn [b_arrays b_groups]; rewrite !length_app; cbn [length]; lia |].
  cbn [b_arrays b_groupMap b_groups]. split; [| split; [| split]].
  - rewrite map_app. cbn [map fst]. apply NoDup_app.
    split; [exact Hnd |]. split; [| apply NoDup_singleton].
    intros g Hg Hg'. apply list_elem_of_In in Hg, Hg'.
    destruct Hg' as [<- | []]. contradiction.
  - intros g a Hga. apply in_app_or in Hga.
    destruct Hga as [Hold | [[= <- <-] | []]].
    + destruct (Hmap g a Hold) as (Hg & Hgr & Har & Hms).
      assert (Hne : k <> g).
      { intros <-. apply Hfresh. exact (in_map fst _ _ Hold). }
      split; [exact Hg |]. split; [apply lookup_app_l_Some; exact Hgr |].
      split; [rewrite memberItems_snoc_other by exact Hne;
              apply lookup_app_l_Some; exact Har |].
      rewrite membersOf_snoc_other by exact Hne. exact Hms.
    + split; [exact Hx |].
      split; [rewrite Hlen; apply list_lookup_middle; reflexivity |].
      split.
      * subst k. rewrite memberItems_snoc, String.eqb_refl.
        rewrite (memberItems_nil pre _ Hnone). apply list_lookup_middle. reflexivity.
      * subst k. rewrite membersOf_snoc_same.
        intros Hnil. apply app_eq_nil in Hnil. destruct Hnil as [_ Hnil]. discriminate.
  - intros g Hg Hms. destruct (String.eqb_spec k g) as [<- | Hne].
    + eexists. apply in_or_app. right. left. reflexivity.
    + rewrite membersOf_snoc_other in Hms by exact Hne.
      destruct (Hall g Hg Hms) as [a Ha]. exists a. apply in_or_app. left. exact Ha.
  - intros j r Hj. apply lookup_snoc_Some in Hj.
    destruct Hj as [[Hlt Hj] | [-> <-]].
    + destruct (Hgroups j r Hj) as [Hit Hkind]. split; [exact Hit |].
      destruct (r_isGroup r).
      * apply in_or_app. left. exact Hkind.
      * destruct Hkind as (i & item & Hat & Hid & Hname & Har).
        exists i, item. split; [rewrite at_app_l; [exact Hat |];
                                apply at_Some in Hat; lia |].
        split; [exact Hid |]. split; [exact Hname |].
        apply lookup_app_l_Some. exact Har.
    + cbn [r_items r_isGroup r_id]. split; [lia |].
      apply in_or_app. right. left. rewrite Hlen. reflexivity.
Qed.

Lemma buildGroups_step_built (pre : list PlanItem) (x : PlanItem) (st : BuildState) :
  built pre st ->
  exists st', buildGroups_step st x (Z.of_nat (length pre)) = Some st'
              /\ built (pre ++ [x]) st'.
Proof.
  intros Hb. unfold buildGroups_step. rewrite groupIdOf_truthy.
  pose proof (groupIdOf_itemGroupId x) as Hkey. rewrite groupIdOf_truthy in Hkey.
  destruct (String.eqb_spec (itemGroupId (Some x)) "") as [Hblank | Hgrouped];
    cbn [negb] in *.
  - eexists. split; [reflexivity |]. apply built_step_standalone; assumption.
  - rewrite <- Hkey.
    destruct (entries_get String.eqb (b_groupMap st) (itemGroupId (Some x)))
      as [address |] eqn:Eget.
    + rewrite Eget. eexists. split; [reflexivity |].
      apply built_step_member; [exact Hb | exact Hgrouped |].
      apply (entries_get_In String.eqb String.eqb_eq). exact Eget.
    + cbn [b_groupMap b_arrays b_groups].
      rewrite (entries_get_set_eq String.eqb String.eqb_eq).
      eexists. split; [reflexivity |]. cbn [b_arrays b_groupMap b_groups].
      apply (entries_get_None String.eqb String.eqb_eq) in Eget.
      rewrite (entries_set_keys_new String.eqb String.eqb_eq) by exact Eget.
      unfold array_push. rewrite alter_snoc. cbn [app].
      apply built_step_first; assumption.
Qed.

Lemma buildGroups_from_built (suf pre : list PlanItem) (st : BuildState) :
  built pre st ->
  exists st', buildGroups_from suf (Z.of_nat (length pre)) st = Some st'
              /\ built (pre ++ suf) st'.
Proof.
  revert pre st. induction suf as [| x suf IH]; intros pre st Hb.
  - exists st. rewrite app_nil_r. split; [reflexivity | exact Hb].
  - cbn [buildGroups_from].
    destruct (buildGroups_step_built pre x st Hb) as (st1 & -> & Hb1).
    specialize (IH (pre ++ [x]) st1 Hb1). rewrite length_app in IH. cbn [length] in IH.
    replace (Z.of_nat (length pre + 1)) with (Z.of_nat (length pre) + 1) in IH by lia.
    rewrite <- app_assoc in IH. exact IH.
Qed.

Lemma buildGroups_built (plan : list PlanItem) :
  exists st, buildGroups_from plan 0 (mkBuildState [] [] []) = Some st
             /\ built plan st
             /\ buildGroups plan = Some (readGroups st).
Proof.
  destruct (buildGroups_from_built plan [] _ built_nil) as (st & Hrun & Hb).
  cbn [length app] in Hrun, Hb. exists st. split; [exact Hrun |]. split; [exact Hb |].
  unfold buildGroups. change (Z.of_nat 0) with 0 in Hrun. rewrite Hrun. reflexivity.
Qed.

(* What a group of [groups] is. *)
Lemma readGroups_group (plan : list PlanItem) (st : BuildState) (group : Group) :
  built plan st -> In group (readGroups st) ->
  if g_isGroup group
  then g_id group <> "" /\ membersOf plan (g_id group) <> []
       /\ g_items group = memberItems plan (g_id group)
  else exists i item,
         at_ plan i = Some item /\ itemGroupId (Some item) = ""
         /\ group = mkGroup ("standalone-" +:+ Js.NumberToString (Js.Int i))
                            [mkGroupItem i item] false.
Proof.
  intros (_ & _ & Hmap & _ & Hgroups) Hin. unfold readGroups in Hin.
  apply in_map_iff in Hin. destruct Hin as (r & <- & Hr).
  apply list_elem_of_In, list_elem_of_lookup in Hr. destruct Hr as [k Hk].
  destruct (Hgroups k r Hk) as [Hit Hkind]. cbn [g_isGroup g_id g_items].
  rewrite Hit. destruct (r_isGroup r).
  - destruct (Hmap _ _ Hkind) as (Hg & _ & Har & Hms). rewrite Har.
    split; [exact Hg |]. split; [exact Hms | reflexivity].
  - destruct Hkind as (i & item & Hat & Hid & Hname & Har).
    exists i, item. split; [exact Hat |]. split; [exact Hid |].
    rewrite Har, Hname. reflexivity.
Qed.

Lemma readGroups_has_group (plan : list PlanItem) (st : BuildState) (g : string) :
  built plan st -> g <> "" -> membersOf plan g <> [] ->
  In (mkGroup g (memberItems plan g) true) (readGroups st).
Proof.
  intros (_ & _ & Hmap & Hall & _) Hg Hms. destruct (Hall g Hg Hms) as [a Ha].
  destruct (Hmap g a Ha) as (_ & Hgr & Har & _). unfold readGroups.
  apply in_map_iff. exists (mkGroupRef g a true). cbn [r_id r_items r_isGroup].
  rewrite Har. split; [reflexivity |].
  apply list_elem_of_In. eapply list_elem_of_lookup_2, Hgr.
Qed.

Lemma holdsIndex_members (plan : list PlanItem) (g : string) (i : Z) (isGroup : bool) :
  holdsIndex (mkGroup g (memberItems plan g) isGroup) i = true
  <-> In i (membersOf plan g).
Proof.
  unfold holdsIndex. cbn [g_items]. rewrite existsb_exists, <- memberItems_indices.
  rewrite in_map_iff. split.
  - intros (e & He & Heq). apply Z.eqb_eq in Heq. eauto.
  - intros (e & Heq & He). exists e. split; [exact He | apply Z.eqb_eq; exact Heq].
Qed.

(* The test of findGroupForItem and isGrouped on a group of [groups]. *)
Lemma group_test (plan : list PlanItem) (st : BuildState) (group : Group) (i : Z) :
  built plan st -> In group (readGroups st) ->
  (g_isGroup group && holdsIndex group i)%bool = true ->
  itemGroupId (at_ plan i) <> ""
  /\ group = mkGroup (itemGroupId (at_ plan i))
                     (memberItems plan (itemGroupId (at_ plan i))) true.
Proof.
  intros Hb Hin Htest. apply andb_true_iff in Htest. destruct Htest as [Hg Hholds].
  pose proof (readGroups_group plan st group Hb Hin) as Hkind.
  rewrite Hg in Hkind. destruct Hkind as (Hid & _ & Hitems).
  destruct group as [id items isGroup]. cbn [g_id g_items g_isGroup] in *.
  subst items isGroup. apply holdsIndex_members in Hholds.
  apply (membersOf_grouped_In plan id i Hid) in Hholds. rewrite Hholds.
  split; [exact Hid | reflexivity].
Qed.

Lemma findGroupForItem_run (plan : list PlanItem) (st : BuildState)
    (gs : list (string * list (Z * Z))) (i : Z) :
  built plan st ->
  findGroupForItem (mkV2 plan (readGroups st) gs) i
  = if String.eqb (itemGroupId (at_ plan i)) "" then None
    else Some (mkGroup (itemGroupId (at_ plan i))
                       (memberItems plan (itemGroupId (at_ plan i))) true).
Proof.
  intros Hb. unfold findGroupForItem. cbn [v2_groups].
  destruct (List.find _ (readGroups st)) as [group |] eqn:Ef.
  - apply List.find_some in Ef. destruct Ef as [Hin Htest].
    destruct (group_test plan st group i Hb Hin Htest) as [Hne ->].
    destruct (String.eqb_spec (itemGroupId (at_ plan i)) ""); [contradiction |].
    reflexivity.
  - destruct (String.eqb_spec (itemGroupId (at_ plan i)) "") as [| Hne];
      [reflexivity |].
    exfalso.
    assert (Hms : membersOf plan (itemGroupId (at_ plan i)) <> []).
    { intros Hnil.
      assert (H : In i (membersOf plan (itemGroupId (at_ plan i))))
        by (apply (membersOf_grouped_In _ _ _ Hne); reflexivity).
      rewrite Hnil in H. destruct H. }
    pose proof (readGroups_has_group plan st _ Hb Hne Hms) as Hin.
    pose proof (List.find_none _ _ Ef _ Hin) as Hf. cbn beta in Hf.
    cbn [g_isGroup andb] in Hf.
    assert (Hh : holdsIndex (mkGroup (itemGroupId (at_ plan i))
                               (memberItems plan (itemGroupId (at_ plan i))) true) i
                 = true).
    { apply holdsIndex_members, (membersOf_grouped_In _ _ _ Hne). reflexivity. }
    congruence.
Qed.

Lemma v2_isGrouped_run (plan : list PlanItem) (st : BuildState)
    (gs : list (string * list (Z * Z))) (i : Z) :
  built plan st ->
  v2_isGrouped (mkV2 plan (readGroups st) gs) i
  = negb (String.eqb (itemGroupId (at_ plan i)) "").
Proof.
  intros Hb. pose proof (findGroupForItem_run plan st gs i Hb) as Hfind.
  unfold findGroupForItem in Hfind. unfold v2_isGrouped. cbn [v2_groups] in *.
  destruct (String.eqb (itemGroupId (at_ plan i)) ""); cbn [negb].
  - apply not_true_iff_false. intros Hex. apply existsb_exists in Hex.
    destruct Hex as (group & Hin & Htest).
    pose proof (List.find_none _ _ Hfind group Hin) as Hf. cbn beta in Hf. congruence.
  - apply List.find_some in Hfind. apply existsb_exists. eauto.
Qed.

(** X17.  buildGroups never throws, and the groups it builds are the
    groups of the plan: a group with isGroup holds exactly the items whose
    trimmed group identifier is its id, in plan order, which are the indices
    SupersetExecutorV3.getGroupExercises returns for that id; every other
    element is the standalone group of one ungrouped item; and every group
    identifier of the plan has its group. *)
Theorem X17_buildGroups (plan : list PlanItem) :
  exists groups : list Group,
    buildGroups plan = Some groups
    /\ (forall group, In group groups -> g_isGroup group = true ->
          g_id group <> ""
          /\ g_items group = memberItems plan (g_id group)
          /\ (forall e, In e (g_items group) ->
                at_ plan (gi_index e) = Some (gi_item e))
          /\ forall completed : gmap Z Z,
               getGroupExercises (Js.Str (g_id group)) (mkExecutor plan completed)
               = (Returns (map gi_index (g_items group)), mkExecutor plan completed))
    /\ (forall group, In group groups -> g_isGroup group = false ->
          exists i item,
            at_ plan i = Some item /\ itemGroupId (Some item) = ""
            /\ group = mkGroup ("standalone-" +:+ Js.NumberToString (Js.Int i))
                               [mkGroupItem i item] false)
    /\ (forall i, itemGroupId (at_ plan i) <> "" ->
          In (mkGroup (itemGroupId (at_ plan i))
                      (memberItems plan (itemGroupId (at_ plan i))) true) groups).
Proof.
  destruct (buildGroups_built plan) as (st & _ & Hb & Hrun).
  exists (readGroups st). split; [exact Hrun |]. split; [| split].
  - intros group Hin Hg. pose proof (readGroups_group plan st group Hb Hin) as Hkind.
    rewrite Hg in Hkind. destruct Hkind as (Hid & Hms & Hitems).
    split; [exact Hid |]. split; [exact Hitems |]. split.
    + intros e He. rewrite Hitems in He.
      pose proof (memberItemsFrom_at plan 0 _ e He) as Hat.
      replace (gi_index e - 0) with (gi_index e) in Hat by lia. exact Hat.
    + intros completed. rewrite getGroupExercises_run. cbn [planItems].
      assert (Htrim : requestedGroupId (Js.Str (g_id group)) = g_id group).
      { cbn [requestedGroupId Js.ToString].
        destruct (membersOf plan (g_id group)) as [| k ms] eqn:Em; [contradiction |].
        assert (Hk : In k (membersOf plan (g_id group))) by (rewrite Em; left; reflexivity).
        apply (membersOf_grouped_In _ _ _ Hid) in Hk. rewrite <- Hk.
        destruct (at_ plan k) as [item |]; cbn [itemGroupId]; [| reflexivity].
        destruct (Js.ToBoolean (groupNumber item)); [apply trim_idempotent | reflexivity]. }
      rewrite Htrim. destruct (String.eqb_spec (g_id group) ""); [contradiction |].
      rewrite Hitems, memberItems_indices. reflexivity.
  - intros group Hin Hg. pose proof (readGroups_group plan st group Hb Hin) as Hkind.
    rewrite Hg in Hkind. exact Hkind.
  - intros i Hne. apply (readGroups_has_group plan st _ Hb Hne).
    intros Hnil.
    assert (H : In i (membersOf plan (itemGroupId (at_ plan i))))
      by (apply (membersOf_grouped_In _ _ _ Hne); reflexivity).
    rewrite Hnil in H. destruct H.
Qed.

(** ** The state of a SupersetExecutorV2Sim *)

Lemma sorted_NoDup (l : list Z) : StronglySorted Z.lt l -> NoDup l.
Proof.
  induction 1 as [| a l Hs IH Hall]; constructor; [| exact IH].
  intros Hin. rewrite Forall_forall in Hall. apply Hall in Hin. lia.
Qed.

Section EntriesMore.
Context {K V : Type} (eqb : K -> K -> bool).
Hypothesis eqb_eq : forall a b, eqb a b = true <-> a = b.

Lemma entries_get_Some_key (m : list (K * V)) (k : K) (v : V) :
  entries_get eqb m k = Some v -> In k (map fst m).
Proof.
  intros H. apply (entries_get_In eqb eqb_eq) in H. exact (in_map fst m _ H).
Qed.

Lemma entries_key_get (m : list (K * V)) (k : K) :
  In k (map fst m) -> exists v, entries_get eqb m k = Some v.
Proof.
  intros Hin. destruct (entries_get eqb m k) as [v |] eqn:E; [eauto |].
  apply (entries_get_None eqb eqb_eq) in E. contradiction.
Qed.

Lemma entries_set_NoDup (m : list (K * V)) (k : K) (v : V) :
  NoDup (map fst m) -> NoDup (map fst (entries_set eqb m k v)).
Proof.
  intros Hnd. destruct (entries_get eqb m k) as [v0 |] eqn:E.
  - rewrite (entries_set_keys_old eqb eqb_eq); [exact Hnd |].
    eapply entries_get_Some_key, E.
  - apply (entries_get_None eqb eqb_eq) in E.
    rewrite (entries_set_keys_new eqb eqb_eq) by exact E.
    rewrite map_app. cbn [map fst]. apply NoDup_app.
    split; [exact Hnd |]. split; [| apply NoDup_singleton].
    intros x Hx Hx'. apply list_elem_of_In in Hx, Hx'. destruct Hx' as [<- | []].
    contradiction.
Qed.

Lemma entries_set_In_iff (m : list (K * V)) (k g : K) (v w : V) :
  NoDup (map fst m) ->
  In (g, w) (entries_set eqb m k v)
  <-> (g = k /\ w = v) \/ (g <> k /\ In (g, w) m).
Proof.
  intros Hnd. pose proof (entries_set_NoDup m k v Hnd) as Hnd'. split.
  - intros Hin. apply (In_entries_get eqb eqb_eq _ _ _ Hnd') in Hin.
    destruct (eqb k g) eqn:E.
    + apply eqb_eq in E. subst g. rewrite (entries_get_set_eq eqb eqb_eq) in Hin.
      left. split; congruence.
    + assert (Hne : k <> g) by (intros ->; rewrite (eqb_refl_true eqb eqb_eq) in E;
                               discriminate).
      rewrite (entries_get_set_ne eqb eqb_eq) in Hin by exact Hne.
      right. split; [congruence |]. apply (entries_get_In eqb eqb_eq). exact Hin.
  - intros [[-> ->] | [Hne Hin]]; apply (entries_get_In eqb eqb_eq).
    + apply (entries_get_set_eq eqb eqb_eq).
    + rewrite (entries_get_set_ne eqb eqb_eq) by congruence.
      apply (In_entries_get eqb eqb_eq); assumption.
Qed.

End EntriesMore.

Section V2State.
Variable StringToNumber : string -> Js.number.

(* The sets an item starts with in a setsRemaining map: Number(item.sets) || 1 *)
Lemma initialSets_run (items : list GroupItem) (acc : list (Z * Z)) :
  NoDup (map fst acc ++ map gi_index items) ->
  map fst (initialSets StringToNumber items acc) = map fst acc ++ map gi_index items
  /\ (forall e, In e items ->
        entries_get Z.eqb (initialSets StringToNumber items acc) (gi_index e)
        = Some (Js.numberOr (Js.ToNumber StringToNumber (sets (gi_item e))) 1))
  /\ (forall k v, entries_get Z.eqb acc k = Some v -> ~ In k (map gi_index items) ->
        entries_get Z.eqb (initialSets StringToNumber items acc) k = Some v).
Proof.
  revert acc. induction items as [| e items IH]; intros acc Hnd; cbn [initialSets map].
  - rewrite app_nil_r. split; [reflexivity |]. split; [intros e [] | auto].
  - cbn [map] in Hnd.
    assert (Hfresh : ~ In (gi_index e) (map fst acc)).
    { apply NoDup_app in Hnd. destruct Hnd as (_ & Hdisj & _).
      intros Hin. apply (Hdisj (gi_index e)); [apply list_elem_of_In; exact Hin |].
      left. }
    set (acc' := entries_set Z.eqb acc (gi_index e)
                   (Js.numberOr (Js.ToNumber StringToNumber (sets (gi_item e))) 1)).
    assert (Hacc' : acc' = acc ++ [(gi_index e,
                      Js.numberOr (Js.ToNumber StringToNumber (sets (gi_item e))) 1)])
      by (apply (entries_set_keys_new Z.eqb Z.eqb_eq); exact Hfresh).
    assert (Hnd' : NoDup (map fst acc' ++ map gi_index items)).
    { rewrite Hacc', map_app, <- app_assoc. exact Hnd. }
    destruct (IH acc' Hnd') as (Hkeys & Hvals & Hkeep).
    split; [rewrite Hkeys, Hacc', map_app, <- app_assoc; reflexivity |].
    assert (Hnew : ~ In (gi_index e) (map gi_index items)).
    { rewrite Hacc', map_app in Hnd'. cbn [map fst] in Hnd'.
      rewrite <- app_assoc in Hnd'. apply NoDup_app in Hnd'.
      destruct Hnd' as (_ & _ & Hnd'). cbn [app] in Hnd'.
      apply NoDup_cons in Hnd'. destruct Hnd' as [Hn _].
      rewrite list_elem_of_In in Hn. exact Hn. }
    split.
    + intros e' [<- | Hin]; [| exact (Hvals e' Hin)].
      apply Hkeep; [| exact Hnew]. apply (entries_get_set_eq Z.eqb Z.eqb_eq).
    + intros k v Hget Hnot. cbn [map In] in Hnot. apply Hkeep; [| tauto].
      unfold acc'. rewrite (entries_get_set_ne Z.eqb Z.eqb_eq) by tauto. exact Hget.
Qed.

Lemma initialSets_members (plan : list PlanItem) (g : string) :
  map fst (initialSets StringToNumber (memberItems plan g) []) = membersOf plan g
  /\ forall e, In e (memberItems plan g) ->
       entries_get Z.eqb (initialSets StringToNumber (memberItems plan g) [])
                   (gi_index e)
       = Some (Js.numberOr (Js.ToNumber StringToNumber (sets (gi_item e))) 1).
Proof.
  destruct (initialSets_run (memberItems plan g) []) as (Hkeys & Hvals & _).
  { cbn [map app]. rewrite memberItems_indices. apply sorted_NoDup, membersFrom_sorted. }
  cbn [map app] in Hkeys. rewrite memberItems_indices in Hkeys. split; assumption.
Qed.

(* The groupState the constructor builds. *)
Lemma initializeAllGroupStates_run (plan : list PlanItem) (groups : list Group)
    (groupState : list (string * list (Z * Z))) :
  (forall group, In group groups -> g_isGroup group = true ->
     g_id group <> "" /\ membersOf plan (g_id group) <> []
     /\ g_items group = memberItems plan (g_id group)) ->
  NoDup (map fst groupState) ->
  (forall g sr, In (g, sr) groupState ->
     g <> "" /\ membersOf plan g <> []
     /\ sr = initialSets StringToNumber (memberItems plan g) []) ->
  let result := initializeAllGroupStates StringToNumber groups groupState in
  NoDup (map fst result)
  /\ (forall g sr, In (g, sr) result ->
        g <> "" /\ membersOf plan g <> []
        /\ sr = initialSets StringToNumber (memberItems plan g) [])
  /\ (forall g, In g (map fst groupState) -> In g (map fst result))
  /\ (forall group, In group groups -> g_isGroup group = true ->
        In (g_id group) (map fst result)).
Proof.
  revert groupState. induction groups as [| group groups IH];
    intros groupState Hgroups Hnd Hentries; cbn [initializeAllGroupStates].
  - cbn zeta. split; [exact Hnd |]. split; [exact Hentries |].
    split; [auto | intros group []].
  - assert (Hrest : forall gr, In gr groups -> g_isGroup gr = true ->
              g_id gr <> "" /\ membersOf plan (g_id gr) <> []
              /\ g_items gr = memberItems plan (g_id gr)).
    { intros gr Hin. apply Hgroups. right. exact Hin. }
    destruct (g_isGroup group) eqn:Eg.
    + destruct (Hgroups group (or_introl eq_refl) Eg) as (Hid & Hms & Hitems).
      set (gs' := entries_set String.eqb groupState (g_id group)
                    (initialSets StringToNumber (g_items group) [])).
      assert (Hnd' : NoDup (map fst gs'))
        by (apply (entries_set_NoDup String.eqb String.eqb_eq); exact Hnd).
      assert (Hentries' : forall g sr, In (g, sr) gs' ->
                g <> "" /\ membersOf plan g <> []
                /\ sr = initialSets StringToNumber (memberItems plan g) []).
      { intros g sr Hin.
        apply (entries_set_In_iff String.eqb String.eqb_eq _ _ _ _ _ Hnd) in Hin.
        destruct Hin as [[-> ->] | [_ Hin]]; [| exact (Hentries g sr Hin)].
        rewrite Hitems. auto. }
      destruct (IH gs' Hrest Hnd' Hentries') as (H1 & H2 & H3 & H4).
      split; [exact H1 |]. split; [exact H2 |]. split.
      * intros g Hg. apply H3.
        destruct (entries_key_get String.eqb String.eqb_eq _ _ Hg) as [sr Hsr].
        apply (entries_get_In String.eqb String.eqb_eq) in Hsr.
        destruct (string_dec g (g_id group)) as [-> | Hne].
        -- eapply (entries_get_Some_key String.eqb String.eqb_eq).
           apply (entries_get_set_eq String.eqb String.eqb_eq).
        -- apply (in_map fst gs' (g, sr)).
           apply (entries_set_In_iff String.eqb String.eqb_eq _ _ _ _ _ Hnd).
           right. split; assumption.
      * intros gr [<- | Hin] Hgr; [| exact (H4 gr Hin Hgr)].
        apply H3. eapply (entries_get_Some_key String.eqb String.eqb_eq).
        apply (entries_get_set_eq String.eqb String.eqb_eq).
    + destruct (IH groupState Hrest Hnd Hentries) as (H1 & H2 & H3 & H4).
      split; [exact H1 |]. split; [exact H2 |]. split; [exact H3 |].
      intros gr [<- | Hin] Hgr; [congruence | exact (H4 gr Hin Hgr)].
Qed.

(* getRemainingSets finds the one setsRemaining map that knows the index. *)
Lemma getRemainingSets_in_member (plan : list PlanItem)
    (groupState : list (string * list (Z * Z))) (g : string) (sr : list (Z * Z))
    (i : Z) :
  NoDup (map fst groupState) ->
  (forall g' sr', In (g', sr') groupState ->
     g' <> "" /\ map fst sr' = membersOf plan g') ->
  In (g, sr) groupState -> In i (membersOf plan g) ->
  getRemainingSets_in groupState i = setsRemaining_get sr i.
Proof.
  intros Hnd Hkeys Hin Hi.
  assert (Hg : g <> "") by (apply (Hkeys g sr Hin)).
  pose proof (proj1 (membersOf_grouped_In plan g i Hg) Hi) as Hgi.
  induction groupState as [| [g' sr'] rest IH]; [destruct Hin |].
  cbn [map fst] in Hnd. apply NoDup_cons in Hnd. destruct Hnd as [Hfresh Hnd].
  rewrite list_elem_of_In in Hfresh.
  cbn [getRemainingSets_in].
  destruct (Hkeys g' sr' (or_introl eq_refl)) as [Hg' Hsr'].
  destruct (entries_get Z.eqb sr' i) as [v |] eqn:E.
  - assert (Hi' : In i (membersOf plan g')).
    { rewrite <- Hsr'. eapply (entries_get_Some_key Z.eqb Z.eqb_eq), E. }
    pose proof (proj1 (membersOf_grouped_In plan g' i Hg') Hi') as Hgi'.
    assert (Heq : g' = g) by congruence.
    destruct Hin as [Hhead | Hin].
    + injection Hhead as _ Hsr. subst sr'. unfold setsRemaining_get. rewrite E.
      reflexivity.
    + exfalso. apply Hfresh. rewrite Heq. exact (in_map fst rest _ Hin).
  - destruct Hin as [[= -> ->] | Hin].
    + exfalso. rewrite <- Hsr' in Hi.
      destruct (entries_key_get Z.eqb Z.eqb_eq _ _ Hi) as [v Hv]. congruence.
    + apply IH; [exact Hnd | | exact Hin].
      intros g0 sr0 H0. apply Hkeys. right. exact H0.
Qed.

Lemma getRemainingSets_in_ungrouped (plan : list PlanItem)
    (groupState : list (string * list (Z * Z))) (i : Z) :
  (forall g' sr', In (g', sr') groupState ->
     g' <> "" /\ map fst sr' = membersOf plan g') ->
  itemGroupId (at_ plan i) = "" ->
  getRemainingSets_in groupState i = 0.
Proof.
  intros Hkeys Hi. induction groupState as [| [g' sr'] rest IH]; [reflexivity |].
  cbn [getRemainingSets_in].
  destruct (Hkeys g' sr' (or_introl eq_refl)) as [Hg' Hsr'].
  destruct (entries_get Z.eqb sr' i) as [v |] eqn:E.
  - exfalso. apply (entries_get_Some_key Z.eqb Z.eqb_eq) in E. rewrite Hsr' in E.
    apply (membersOf_grouped_In plan g' i Hg') in E. congruence.
  - apply IH. intros g0 sr0 H0. apply Hkeys. right. exact H0.
Qed.

(* A fresh engine is a running engine whose maps hold the initial sets. *)
Lemma newV2_run (plan : list PlanItem) :
  exists this,
    newV2 StringToNumber plan = Some this
    /\ runningV2 plan this
    /\ (exists st, built plan st /\ v2_groups this = readGroups st)
    /\ forall g sr, In (g, sr) (v2_groupState this) ->
         sr = initialSets StringToNumber (memberItems plan g) [].
Proof.
  destruct (buildGroups_built plan) as (st & _ & Hb & Hrun).
  unfold newV2. rewrite Hrun. eexists. split; [reflexivity |].
  destruct (initializeAllGroupStates_run plan (readGroups st) [])
    as (Hnd & Hentries & _ & Hall).
  { intros group Hin Hg. pose proof (readGroups_group plan st group Hb Hin) as Hk.
    rewrite Hg in Hk. exact Hk. }
  { constructor. }
  { intros g sr []. }
  split; [| split; [eauto |]].
  - split; [reflexivity |]. split; [exact Hrun |]. cbn [v2_groupState].
    split; [exact Hnd |]. split.
    + intros g sr Hin. destruct (Hentries g sr Hin) as (Hg & Hms & ->).
      split; [exact Hg |]. split; [exact Hms |]. apply initialSets_members.
    + intros g Hg Hms.
      pose proof (Hall _ (readGroups_has_group plan st g Hb Hg Hms) eq_refl) as Hin.
      cbn [g_id] in Hin. apply in_map_iff in Hin.
      destruct Hin as ([g' sr] & Heq & Hin). cbn [fst] in Heq. subst g'. eauto.
  - cbn [v2_groupState]. intros g sr Hin. apply (Hentries g sr Hin).
Qed.

(** X18.  The constructor of SupersetExecutorV2Sim never throws.  The
    fresh engine holds the groups of the plan, calls an item grouped exactly
    when SupersetExecutorV3 does, and reports for a grouped item the sets it
    starts with, Number(item.sets) || 1, which is the total
    SupersetExecutorV3 counts for it; for an ungrouped item or an index
    outside the plan it reports 0, since only groups are tracked. *)
Theorem X18_newV2 (plan : list PlanItem) :
  exists this : SupersetExecutorV2Sim,
    newV2 StringToNumber plan = Some this
    /\ v2_planItems this = plan
    /\ buildGroups plan = Some (v2_groups this)
    /\ forall i : Z,
         isGrouped i (new plan) = (Returns (v2_isGrouped this i), new plan)
         /\ v2_getRemainingSets this i
            = if v2_isGrouped this i
              then totalSetsAt StringToNumber (new plan) i
              else 0.
Proof.
  destruct (newV2_run plan) as (this & Hnew & Hrun & (st & Hb & Hgroups) & Hinit).
  exists this. split; [exact Hnew |].
  destruct Hrun as (Hplan & Hbuild & Hnd & Hentries & Hall).
  split; [exact Hplan |]. split; [exact Hbuild |]. intros i.
  destruct this as [plan' groups gs]. cbn [v2_planItems v2_groups v2_groupState] in *.
  subst plan' groups.
  rewrite (v2_isGrouped_run plan st gs i Hb). rewrite isGrouped_run.
  unfold groupIdAt. rewrite new_planItems. split; [reflexivity |].
  unfold v2_getRemainingSets. cbn [v2_groupState].
  assert (Hkeys : forall g' sr', In (g', sr') gs ->
            g' <> "" /\ map fst sr' = membersOf plan g').
  { intros g' sr' Hin. destruct (Hentries g' sr' Hin) as (H1 & _ & H2). auto. }
  destruct (String.eqb_spec (itemGroupId (at_ plan i)) "") as [Hblank | Hne];
    cbn [negb].
  - apply (getRemainingSets_in_ungrouped plan gs i Hkeys Hblank).
  - assert (Hi : In i (membersOf plan (itemGroupId (at_ plan i))))
      by (apply (membersOf_grouped_In _ _ _ Hne); reflexivity).
    assert (Hms : membersOf plan (itemGroupId (at_ plan i)) <> []).
    { intros Hnil. rewrite Hnil in Hi. destruct Hi. }
    destruct (Hall _ Hne Hms) as [sr Hsr].
    rewrite (getRemainingSets_in_member plan gs _ sr i Hnd Hkeys Hsr Hi).
    rewrite (Hinit _ _ Hsr).
    rewrite <- memberItems_indices in Hi. apply in_map_iff in Hi.
    destruct Hi as (e & He & Hin).
    pose proof (memberItemsFrom_at plan 0 _ e Hin) as Hat.
    replace (gi_index e - 0) with i in Hat by lia.
    destruct (initialSets_members plan (itemGroupId (at_ plan i))) as [_ Hvals].
    unfold setsRemaining_get. rewrite <- He at 2. rewrite (Hvals e Hin).
    unfold totalSetsAt. rewrite new_planItems, Hat. reflexivity.
Qed.

End V2State.

(** ** getNextExercise of SupersetExecutorV2Sim *)

Lemma find_map {A B : Type} (g : A -> B) (f : B -> bool) (l : list A) :
  option_map g (List.find (fun x => f (g x)) l) = List.find f (map g l).
Proof.
  induction l as [| a l IH]; cbn [List.find map option_map]; [reflexivity |].
  destruct (f (g a)); [reflexivity | exact IH].
Qed.

Lemma findIndex_from_map {A B : Type} (g : A -> B) (p : B -> bool) (l : list A)
    (k : Z) :
  findIndex_from (fun x => p (g x)) l k = findIndex_from p (map g l) k.
Proof.
  revert k. induction l as [| a l IH]; intros k; cbn [findIndex_from map];
    [reflexivity |].
  destruct (p (g a)); [reflexivity | apply IH].
Qed.

Lemma findIndex_from_split {A : Type} (p : A -> bool) (l1 l2 : list A) (x : A)
    (k : Z) :
  (forall y, In y l1 -> p y = false) -> p x = true ->
  findIndex_from p (l1 ++ x :: l2) k = k + Z.of_nat (length l1).
Proof.
  revert k. induction l1 as [| y l1 IH]; intros k Hbefore Hx;
    cbn [app findIndex_from length].
  - rewrite Hx. lia.
  - rewrite (Hbefore y (or_introl eq_refl)). rewrite IH; [lia | | exact Hx].
    intros z Hz. apply Hbefore. right. exact Hz.
Qed.

(* A member splits its sorted group into the members before and after it. *)
Lemma sorted_split (l : list Z) (i : Z) :
  StronglySorted Z.lt l -> In i l ->
  exists l1 l2,
    l = l1 ++ i :: l2
    /\ (forall k, In k l1 -> k < i) /\ (forall k, In k l2 -> i < k)
    /\ StronglySorted Z.lt l2.
Proof.
  induction 1 as [| a l Hs IH Hall]; [intros [] |].
  rewrite Forall_forall in Hall. intros [-> | Hin].
  - exists [], l. split; [reflexivity |]. split; [intros k [] |].
    split; [| exact Hs]. intros k Hk. apply Hall, list_elem_of_In. exact Hk.
  - destruct (IH Hin) as (l1 & l2 & -> & Hl1 & Hl2 & Hs2).
    exists (a :: l1), l2. split; [reflexivity |]. split; [| split; assumption].
    intros k [<- | Hk]; [| exact (Hl1 k Hk)].
    apply Hall, list_elem_of_In. exact Hin.
Qed.

Lemma drop_past {A : Type} (l1 l2 : list A) (x : A) :
  drop (Z.to_nat (Z.of_nat (length l1) + 1)) (l1 ++ x :: l2) = l2.
Proof.
  replace (Z.to_nat (Z.of_nat (length l1) + 1)) with (length (l1 ++ [x]))
    by (rewrite length_app; cbn [length]; lia).
  change (x :: l2) with ([x] ++ l2). rewrite app_assoc. apply drop_app_length.
Qed.

Lemma firstRemaining_run (setsRemaining : list (Z * Z)) (items : list GroupItem) :
  firstRemaining setsRemaining items
  = List.find (fun k => 0 <? setsRemaining_get setsRemaining k)
              (map gi_index items).
Proof.
  unfold firstRemaining.
  apply (find_map gi_index (fun k => 0 <? setsRemaining_get setsRemaining k)).
Qed.

(* The counters after the bookkeeping step of getNextExercise. *)
Lemma setsRemaining_step (sr : list (Z * Z)) (i k : Z) :
  let cur := setsRemaining_get sr i in
  setsRemaining_get
    (if 0 <? cur then entries_set Z.eqb sr i (cur - 1) else sr) k
  = if ((k =? i) && (0 <? cur))%bool then cur - 1 else setsRemaining_get sr k.
Proof.
  intros cur. destruct (0 <? cur) eqn:Ec.
  - destruct (Z.eqb_spec k i) as [-> | Hki]; cbn [andb].
    + unfold setsRemaining_get at 1.
      rewrite (entries_get_set_eq Z.eqb Z.eqb_eq). reflexivity.
    + unfold setsRemaining_get at 1.
      rewrite (entries_get_set_ne Z.eqb Z.eqb_eq) by congruence. reflexivity.
  - rewrite andb_false_r. reflexivity.
Qed.

(* No value of the map is positive exactly when no key has sets left. *)
Lemma anyRemaining_run (sr : list (Z * Z)) :
  existsb (fun kv => 0 <? snd kv) sr = false ->
  forall k, setsRemaining_get sr k <= 0.
Proof.
  intros Hnone k. unfold setsRemaining_get.
  destruct (entries_get Z.eqb sr k) as [v |] eqn:E; simpl; [| lia].
  apply (entries_get_In Z.eqb Z.eqb_eq) in E.
  rewrite <- not_true_iff_false, existsb_exists in Hnone.
  destruct (Z.ltb_spec 0 v) as [Hpos |]; [| lia].
  exfalso. apply Hnone. exists (k, v). split; [exact E |]. cbn [snd].
  apply Z.ltb_lt. exact Hpos.
Qed.

(** X19.  getNextExercise called with the index of an ungrouped item, or
    with an index outside the plan, answers complete and changes nothing:
    SupersetExecutorV2Sim keeps no set counter for such an index. *)
Theorem X19_getNextExercise_ungrouped (plan : list PlanItem)
    (this : SupersetExecutorV2Sim) (i : Z) :
  runningV2 plan this ->
  itemGroupId (at_ plan i) = "" ->
  getNextExercise this i = Some (V2Complete, this)
  /\ v2_getRemainingSets this i = 0.
Proof.
  intros (Hplan & Hbuild & Hnd & Hentries & Hall) Hblank.
  destruct this as [plan' groups gs]. cbn [v2_planItems v2_groups v2_groupState] in *.
  subst plan'. destruct (buildGroups_built plan) as (st & _ & Hb & Hbg).
  rewrite Hbg in Hbuild. injection Hbuild as <-. split.
  - unfold getNextExercise. rewrite (findGroupForItem_run plan st gs i Hb).
    rewrite Hblank. reflexivity.
  - apply (getRemainingSets_in_ungrouped plan gs i); [| exact Hblank].
    intros g' sr' Hin. destruct (Hentries g' sr' Hin) as (H1 & _ & H2). auto.
Qed.

(** X20.  getNextExercise called with the index of a grouped item never
    throws and keeps the engine one for the plan.  It takes one set off that
    item when its counter is positive and changes no other counter.  Its
    answer is decided by the counters after that: next-exercise with the
    nearest later member of the group that has sets left, when there is one;
    otherwise rest-then-continue with the first member of the group that has
    sets left and restAfter the completed index, when there is one; and
    complete when no member of the group has sets left. *)
Theorem X20_getNextExercise_grouped (plan : list PlanItem)
    (this : SupersetExecutorV2Sim) (i : Z) :
  runningV2 plan this ->
  itemGroupId (at_ plan i) <> "" ->
  exists (action : V2Action) (this' : SupersetExecutorV2Sim),
    getNextExercise this i = Some (action, this')
    /\ runningV2 plan this'
    /\ (forall k,
          v2_getRemainingSets this' k
          = if ((k =? i) && (0 <? v2_getRemainingSets this i))%bool
            then v2_getRemainingSets this i - 1
            else v2_getRemainingSets this k)
    /\ let members := membersOf plan (itemGroupId (at_ plan i)) in
       let setsLeft k := 0 < v2_getRemainingSets this' k in
       match action with
       | V2NextExercise n =>
           In n members /\ i < n /\ setsLeft n
           /\ forall k, In k members -> i < k -> setsLeft k -> n <= k
       | V2RestThenContinue n restAfter =>
           restAfter = i /\ In n members /\ n <= i /\ setsLeft n
           /\ (forall k, In k members -> setsLeft k -> n <= k)
           /\ forall k, In k members -> i < k -> ~ setsLeft k
       | V2Complete => forall k, In k members -> ~ setsLeft k
       end.
Proof.
  intros (Hplan & Hbuild & Hnd & Hentries & Hall) Hne.
  destruct this as [plan' groups gs]. cbn [v2_planItems v2_groups v2_groupState] in *.
  subst plan'. destruct (buildGroups_built plan) as (st & _ & Hb & Hbg).
  rewrite Hbg in Hbuild. injection Hbuild as <-.
  set (g := itemGroupId (at_ plan i)) in *.
  assert (Hi : In i (membersOf plan g))
    by (apply (membersOf_grouped_In _ _ _ Hne); reflexivity).
  assert (Hms : membersOf plan g <> []).
  { intros Hnil. rewrite Hnil in Hi. destruct Hi. }
  destruct (Hall g Hne Hms) as [sr Hsr].
  destruct (Hentries g sr Hsr) as (_ & _ & Hkeys).
  assert (Hget : entries_get String.eqb gs g = Some sr)
    by (apply (In_entries_get String.eqb String.eqb_eq _ _ _ Hnd Hsr)).
  assert (Hkeysall : forall g' sr', In (g', sr') gs ->
            g' <> "" /\ map fst sr' = membersOf plan g').
  { intros g' sr' Hin. destruct (Hentries g' sr' Hin) as (H1 & _ & H2). auto. }
  set (cur := setsRemaining_get sr i).
  set (sr' := if 0 <? cur then entries_set Z.eqb sr i (cur - 1) else sr).
  set (gs' := entries_set String.eqb gs g sr').
  set (this' := mkV2 plan (readGroups st) gs').
  assert (Hcur : v2_getRemainingSets (mkV2 plan (readGroups st) gs) i = cur)
    by (apply (getRemainingSets_in_member plan gs g sr i Hnd Hkeysall Hsr Hi)).
  assert (Hkeys' : map fst sr' = membersOf plan g).
  { unfold sr'. destruct (0 <? cur); [| exact Hkeys].
    rewrite (entries_set_keys_old Z.eqb Z.eqb_eq); [exact Hkeys |].
    rewrite Hkeys. exact Hi. }
  assert (Hnd' : NoDup (map fst gs'))
    by (apply (entries_set_NoDup String.eqb String.eqb_eq), Hnd).
  assert (Hin' : forall g0 sr0,
            In (g0, sr0) gs' <-> (g0 = g /\ sr0 = sr') \/ (g0 <> g /\ In (g0, sr0) gs))
    by (intros g0 sr0; apply (entries_set_In_iff String.eqb String.eqb_eq), Hnd).
  assert (Hentries' : forall g0 sr0, In (g0, sr0) gs' ->
            g0 <> "" /\ membersOf plan g0 <> []
            /\ map fst sr0 = membersOf plan g0).
  { intros g0 sr0 Hin. apply Hin' in Hin. destruct Hin as [[-> ->] | [_ Hin]].
    - split; [exact Hne |]. split; [exact Hms | exact Hkeys'].
    - exact (Hentries g0 sr0 Hin). }
  assert (Hkeysall' : forall g0 sr0, In (g0, sr0) gs' ->
            g0 <> "" /\ map fst sr0 = membersOf plan g0).
  { intros g0 sr0 Hin. destruct (Hentries' g0 sr0 Hin) as (H1 & _ & H2). auto. }
  assert (Hrun' : runningV2 plan this').
  { split; [reflexivity |]. split; [exact Hbg |]. split; [exact Hnd' |].
    split; [exact Hentries' |].
    intros g0 Hg0 Hms0. destruct (String.eqb_spec g0 g) as [-> | Hother].
    - exists sr'. apply Hin'. left. split; reflexivity.
    - destruct (Hall g0 Hg0 Hms0) as [sr0 Hsr0]. exists sr0. apply Hin'.
      right. split; assumption. }
  assert (Hgroup : forall k, In k (membersOf plan g) ->
            v2_getRemainingSets this' k = setsRemaining_get sr' k).
  { intros k Hk.
    apply (getRemainingSets_in_member plan gs' g sr' k Hnd' Hkeysall'); [| exact Hk].
    apply Hin'. left. split; reflexivity. }
  assert (Hrem : forall k,
            v2_getRemainingSets this' k
            = if ((k =? i) && (0 <? cur))%bool then cur - 1
              else v2_getRemainingSets (mkV2 plan (readGroups st) gs) k).
  { intros k.
    destruct (String.eqb_spec (itemGroupId (at_ plan k)) "") as [Hblank | Hgk].
    - destruct (Z.eqb_spec k i) as [-> | _]; [contradiction |]. cbn [andb].
      unfold v2_getRemainingSets, this'. cbn [v2_groupState].
      rewrite (getRemainingSets_in_ungrouped plan gs' k Hkeysall' Hblank).
      rewrite (getRemainingSets_in_ungrouped plan gs k Hkeysall Hblank).
      reflexivity.
    - assert (Hk : In k (membersOf plan (itemGroupId (at_ plan k))))
        by (apply (membersOf_grouped_In _ _ _ Hgk); reflexivity).
      destruct (String.eqb_spec (itemGroupId (at_ plan k)) g) as [Hsame | Hother].
      + rewrite Hsame in Hk. rewrite (Hgroup k Hk). unfold sr', cur.
        rewrite (setsRemaining_step sr i k). fold cur.
        destruct ((k =? i) && (0 <? cur))%bool; [reflexivity |].
        symmetry.
        apply (getRemainingSets_in_member plan gs g sr k Hnd Hkeysall Hsr Hk).
      + destruct (Z.eqb_spec k i) as [-> | _]; [contradiction |]. cbn [andb].
        assert (Hmk : membersOf plan (itemGroupId (at_ plan k)) <> []).
        { intros Hnil. rewrite Hnil in Hk. destruct Hk. }
        destruct (Hall _ Hgk Hmk) as [srk Hsrk].
        unfold v2_getRemainingSets, this'. cbn [v2_groupState].
        rewrite (getRemainingSets_in_member plan gs (itemGroupId (at_ plan k)) srk k
                   Hnd Hkeysall Hsrk Hk).
        apply (getRemainingSets_in_member plan gs' (itemGroupId (at_ plan k)) srk k
                 Hnd' Hkeysall'); [| exact Hk].
        apply Hin'. right. split; assumption. }
  (* the position of the completed item in its group *)
  pose proof (membersFrom_sorted plan 0 g) as Hsorted. fold (membersOf plan g) in Hsorted.
  destruct (sorted_split _ i Hsorted Hi) as (l1 & l2 & Hsplit & Hl1 & Hl2 & Hs2).
  assert (Hpos : findIndex_from (fun e => gi_index e =? i) (memberItems plan g) 0
                 = Z.of_nat (length l1)).
  { rewrite (findIndex_from_map gi_index (fun k => k =? i)).
    rewrite memberItems_indices, Hsplit.
    rewrite findIndex_from_split; [lia | | apply Z.eqb_refl].
    intros y Hy. apply Z.eqb_neq. specialize (Hl1 y Hy). lia. }
  assert (Hlater : firstRemaining sr'
                     (drop (Z.to_nat (Z.of_nat (length l1) + 1)) (memberItems plan g))
                   = List.find (fun k => 0 <? setsRemaining_get sr' k) l2).
  { rewrite firstRemaining_run. rewrite <- skipn_map, memberItems_indices, Hsplit.
    rewrite drop_past. reflexivity. }
  assert (Hmember : forall k, In k (membersOf plan g) <-> In k l1 \/ k = i \/ In k l2).
  { intros k. rewrite Hsplit, in_app_iff. cbn [In]. intuition congruence. }
  assert (Hleft : forall k, In k (membersOf plan g) ->
            0 < v2_getRemainingSets this' k
            <-> (0 <? setsRemaining_get sr' k) = true).
  { intros k Hk. rewrite (Hgroup k Hk). symmetry. apply Z.ltb_lt. }
  unfold getNextExercise. rewrite (findGroupForItem_run plan st gs i Hb). fold g.
  destruct (String.eqb_spec g "") as [| _]; [contradiction |].
  cbn [g_id g_items v2_groupState v2_planItems v2_groups]. rewrite Hget.
  fold cur. fold sr'. fold gs'. fold this'. rewrite Hpos, Hlater.
  destruct (List.find _ l2) as [n |] eqn:Efind.
  - exists (V2NextExercise n), this'. split; [reflexivity |].
    split; [exact Hrun' |]. split; [rewrite Hcur; exact Hrem |].
    destruct (find_sorted_least _ _ _ Hs2 Efind) as (Hn & Hfn & Hleast).
    assert (Hnm : In n (membersOf plan g)) by (apply Hmember; auto).
    split; [exact Hnm |]. split; [exact (Hl2 n Hn) |].
    split; [apply (Hleft n Hnm); exact Hfn |].
    intros k Hk Hik Hsl. apply Hleast; [| apply (Hleft k Hk); exact Hsl].
    apply Hmember in Hk. destruct Hk as [Hk | [-> | Hk]]; [| lia | exact Hk].
    specialize (Hl1 k Hk). lia.
  - pose proof (List.find_none _ _ Efind) as Hafter. cbn beta in Hafter.
    destruct (existsb (fun kv => 0 <? snd kv) sr') eqn:Eany; cbn [negb].
    + destruct (memberItems plan g) as [| first rest] eqn:Eitems.
      { exfalso. apply Hms. rewrite <- memberItems_indices, Eitems. reflexivity. }
      assert (Hhead : membersOf plan g = gi_index first :: map gi_index rest)
        by (rewrite <- memberItems_indices, Eitems; reflexivity).
      assert (Hnone_after : forall k, In k (membersOf plan g) ->
                0 < v2_getRemainingSets this' k -> k <= i).
      { intros k Hk Hsl. apply (Hleft k Hk) in Hsl. apply Hmember in Hk.
        destruct Hk as [Hk | [-> | Hk]]; [specialize (Hl1 k Hk); lia | lia |].
        rewrite (Hafter k Hk) in Hsl. discriminate. }
      destruct (0 <? setsRemaining_get sr' (gi_index first)) eqn:Efirst.
      * exists (V2RestThenContinue (gi_index first) i), this'.
        split; [reflexivity |]. split; [exact Hrun' |].
        split; [rewrite Hcur; exact Hrem |].
        assert (Hfm : In (gi_index first) (membersOf plan g))
          by (rewrite Hhead; left; reflexivity).
        assert (Hsl : 0 < v2_getRemainingSets this' (gi_index first))
          by (apply (Hleft _ Hfm); exact Efirst).
        split; [reflexivity |]. split; [exact Hfm |].
        split; [exact (Hnone_after _ Hfm Hsl) |]. split; [exact Hsl |].
        split; [| intros k Hk Hik Hk'; specialize (Hnone_after k Hk Hk'); lia].
        intros k Hk _. rewrite Hhead in Hk, Hsorted.
        apply StronglySorted_inv in Hsorted. destruct Hsorted as [_ Hlt].
        rewrite Forall_forall in Hlt. destruct Hk as [<- | Hk]; [lia |].
        apply list_elem_of_In, Hlt in Hk. lia.
      * rewrite firstRemaining_run.
        change (map gi_index (first :: rest))
          with (gi_index first :: map gi_index rest).
        rewrite <- Hhead.
        destruct (List.find _ (membersOf plan g)) as [n |] eqn:Eall.
        -- exists (V2RestThenContinue n i), this'.
           split; [reflexivity |]. split; [exact Hrun' |].
           split; [rewrite Hcur; exact Hrem |].
           destruct (find_sorted_least _ _ _ Hsorted Eall) as (Hn & Hfn & Hleast).
           assert (Hsl : 0 < v2_getRemainingSets this' n)
             by (apply (Hleft n Hn); exact Hfn).
           split; [reflexivity |]. split; [exact Hn |].
           split; [exact (Hnone_after n Hn Hsl) |]. split; [exact Hsl |].
           split; [| intros k Hk Hik Hk'; specialize (Hnone_after k Hk Hk'); lia].
           intros k Hk Hk'. apply Hleast; [exact Hk |]. apply (Hleft k Hk). exact Hk'.
        -- exists V2Complete, this'.
           split; [reflexivity |]. split; [exact Hrun' |].
           split; [rewrite Hcur; exact Hrem |].
           intros k Hk Hsl. apply (Hleft k Hk) in Hsl.
           pose proof (List.find_none _ _ Eall k Hk) as Hk'. cbn beta in Hk'.
           congruence.
    + exists V2Complete, this'.
      split; [reflexivity |]. split; [exact Hrun' |].
      split; [rewrite Hcur; exact Hrem |].
      intros k Hk Hsl. rewrite (Hgroup k Hk) in Hsl.
      pose proof (anyRemaining_run sr' Eany k). lia.
Qed.

(** ** The further results on concrete plans *)

Lemma X1_witness :
  reachable Js.decimalToNumber interleavedPlan (new interleavedPlan)
  /\ 0 < remainingAt Js.decimalToNumber (new interleavedPlan) 0
  /\ fst (getRemainingSets Js.decimalToNumber 0
            (snd (completeSet Js.decimalToNumber 0 (new interleavedPlan))))
     = Returns 1.
Proof.
  assert (H : reachable Js.decimalToNumber interleavedPlan (new interleavedPlan))
    by apply reachable_new.
  assert (Hleft : 0 < remainingAt Js.decimalToNumber (new interleavedPlan) 0)
    by (vm_compute; reflexivity).
  split; [exact H |]. split; [exact Hleft |].
  destruct (X1_completeSet_takes_one_set Js.decimalToNumber
              interleavedPlan (new interleavedPlan) 0 H) as (_ & _ & Hstep & _).
  destruct (Hstep Hleft) as [_ Hall]. rewrite (Hall 0). reflexivity.
Defined.

Lemma X2_witness :
  let plan := [exercise "A" 3 30 Js.Undefined; exercise "B" 3 30 Js.Undefined] in
  let indices := [0; 0; 0; 0; 1; 1; 1] in
  1 <= 3
  /\ Forall (fun item => sets item = Js.Num (Js.Int 3)) plan
  /\ countedCompletions Js.decimalToNumber indices (new plan) = 2 * 3
  /\ fst (getNextAction Js.decimalToNumber
            (completeSet_each Js.decimalToNumber indices (new plan)))
     = Returns Complete.
Proof.
  cbn zeta.
  set (plan := [exercise "A" 3 30 Js.Undefined; exercise "B" 3 30 Js.Undefined]).
  assert (H1 : 1 <= 3) by lia.
  assert (H2 : Forall (fun item => sets item = Js.Num (Js.Int 3)) plan)
    by (repeat constructor).
  assert (H3 : countedCompletions Js.decimalToNumber [0; 0; 0; 0; 1; 1; 1] (new plan)
               = 2 * 3) by (vm_compute; reflexivity).
  split; [exact H1 |]. split; [exact H2 |]. split; [exact H3 |].
  pose proof (X2_uniform_plan_completions Js.decimalToNumber plan 3
                [0; 0; 0; 0; 1; 1; 1] 0 H1 H2) as H.
  cbn zeta in H. destruct H as (_ & _ & Hiff & _). apply Hiff. exact H3.
Defined.

Lemma X3_witness :
  reachable Js.decimalToNumber mixedSetsPlan (new mixedSetsPlan)
  /\ lowestIncomplete Js.decimalToNumber (new mixedSetsPlan) 0
  /\ fst (isGrouped 0 (new mixedSetsPlan)) = Returns false
  /\ exists setNumber : Z,
       getNextAction Js.decimalToNumber (new mixedSetsPlan)
       = (Returns (ExerciseStart 0 setNumber true 1), new mixedSetsPlan)
       /\ getCompletedSets 0 (new mixedSetsPlan)
          = (Returns (setNumber - 1), new mixedSetsPlan)
       /\ 1 <= setNumber.
Proof.
  assert (H0 : reachable Js.decimalToNumber mixedSetsPlan (new mixedSetsPlan))
    by apply reachable_new.
  assert (H1 : lowestIncomplete Js.decimalToNumber (new mixedSetsPlan) 0).
  { split; [vm_compute; split; [discriminate | reflexivity] |].
    split; [vm_compute; reflexivity | intros k Hk; lia]. }
  assert (H2 : fst (isGrouped 0 (new mixedSetsPlan)) = Returns false)
    by (vm_compute; reflexivity).
  split; [exact H0 |]. split; [exact H1 |]. split; [exact H2 |].
  destruct (X3_getNextAction_exercise_start Js.decimalToNumber
              mixedSetsPlan (new mixedSetsPlan) 0 H0 H1 H2)
    as (setNumber & Hrun & Hcompleted & Hrange & _).
  exists setNumber. split; [exact Hrun |]. split; [exact Hcompleted | exact Hrange].
Defined.

Lemma X5_witness :
  lowestIncomplete Js.decimalToNumber (new interleavedPlan) 0
  /\ fst (isGrouped 0 (new interleavedPlan)) = Returns true
  /\ exists (gid : string) (first restSeconds : Z),
       getNextGroupAction Js.decimalToNumber (Js.Str gid) (new interleavedPlan)
       = (Returns (NextExerciseInGroup 0 (completedAt (new interleavedPlan) 0 + 1)),
          new interleavedPlan)
       /\ completeGroupRound Js.decimalToNumber 2 (Js.Str gid) (new interleavedPlan)
          = (Returns (RestThenContinue (Some first) restSeconds 2),
             new interleavedPlan).
Proof.
  assert (H1 : lowestIncomplete Js.decimalToNumber (new interleavedPlan) 0).
  { split; [vm_compute; split; [discriminate | reflexivity] |].
    split; [vm_compute; reflexivity | intros k Hk; lia]. }
  assert (H2 : fst (isGrouped 0 (new interleavedPlan)) = Returns true)
    by (vm_compute; reflexivity).
  split; [exact H1 |]. split; [exact H2 |].
  destruct (X5_group_operations_agree Js.decimalToNumber
              (new interleavedPlan) 0 2 H1 H2)
    as (gid & members & first & restSeconds & _ & Hnext & Hround & _).
  exists gid, first, restSeconds. split; [exact Hnext | exact Hround].
Defined.

Lemma X11_witness :
  exists issue : Issue,
    In issue (issues (validateGroupConfiguration sandwichPlan))
    /\ Z.of_nat (length (interleavedItems (details issue)))
       = spaceOccupied (details issue) - groupItemCount (details issue)
    /\ 1 <= Z.of_nat (length (interleavedItems (details issue))).
Proof.
  assert (H : exists issue : Issue,
            In issue (issues (validateGroupConfiguration sandwichPlan))).
  { eexists. vm_compute. left. reflexivity. }
  destruct H as [issue Hin]. exists issue. split; [exact Hin |].
  destruct (X11_issue_accounts_for_span sandwichPlan issue Hin)
    as (first & last & _ & _ & _ & _ & _ & Hgaps & Hsome & _).
  split; [exact Hgaps | exact Hsome].
Defined.


Lemma X8_witness :
  completedAt (completeSet_times Js.decimalToNumber 3 0 (new interleavedPlan)) 0 = 2.
Proof.
  pose proof (X8_completeSet_saturates Js.decimalToNumber 3 0 (new interleavedPlan))
    as H.
  cbn zeta in H. destruct H as (Hrange & Hshort & Hmoved & _).
  assert (Hc : completedAt (new interleavedPlan) 0 = 0) by reflexivity.
  assert (Ht : totalSetsAt Js.decimalToNumber (new interleavedPlan) 0 = 2)
    by reflexivity.
  rewrite Hc in Hrange, Hshort, Hmoved. rewrite Ht in Hshort, Hmoved.
  change (Z.of_nat 3) with 3 in Hrange, Hshort. lia.
Defined.

Lemma X16_witness :
  let timeline := buildPlanTimeline Js.decimalToNumber interleavedPlan in
  findTimelineIndexFor timeline 0 1 = 0
  /\ findTimelineIndexFor timeline 0 2 = findTimelineIndexFor timeline 0 1 + 1
  /\ findTimelineIndexFor timeline 1 1 = findTimelineIndexFor timeline 0 2 + 1
  /\ Z.of_nat (length timeline) = findTimelineIndexFor timeline 2 2 + 1.
Proof.
  cbn zeta.
  pose proof (X16_timeline_is_consecutive Js.decimalToNumber interleavedPlan) as H.
  cbn zeta in H. destruct H as (Hfirst & Hnext & Hitem & Hlast & _).
  split; [apply Hfirst; discriminate |].
  split; [apply (Hnext 0 1 _ eq_refl); [lia | vm_compute; discriminate] |].
  split.
  - apply (Hitem 0 2 _ _ eq_refl eq_refl); [vm_compute; split; discriminate |].
    vm_compute. reflexivity.
  - apply (Hlast 2 2 _ eq_refl eq_refl); [vm_compute; split; discriminate |].
    vm_compute. reflexivity.
Defined.

Lemma X19_witness :
  exists this : SupersetExecutorV2Sim,
    newV2 Js.decimalToNumber interleavedPlan = Some this
    /\ runningV2 interleavedPlan this
    /\ itemGroupId (at_ interleavedPlan 1) = ""
    /\ getNextExercise this 1 = Some (V2Complete, this).
Proof.
  destruct (newV2_run Js.decimalToNumber interleavedPlan)
    as (this & Hnew & Hrun & _).
  assert (H : itemGroupId (at_ interleavedPlan 1) = "") by (vm_compute; reflexivity).
  exists this. split; [exact Hnew |]. split; [exact Hrun |]. split; [exact H |].
  apply (X19_getNextExercise_ungrouped interleavedPlan this 1 Hrun H).
Defined.

Lemma X20_witness :
  exists (this this' : SupersetExecutorV2Sim),
    newV2 Js.decimalToNumber interleavedPlan = Some this
    /\ runningV2 interleavedPlan this
    /\ itemGroupId (at_ interleavedPlan 0) <> ""
    /\ getNextExercise this 0 = Some (V2NextExercise 2, this')
    /\ runningV2 interleavedPlan this'
    /\ v2_getRemainingSets this' 0 = v2_getRemainingSets this 0 - 1.
Proof.
  destruct (newV2_run Js.decimalToNumber interleavedPlan)
    as (this & Hnew & Hrun & _).
  assert (H : itemGroupId (at_ interleavedPlan 0) <> "")
    by (vm_compute; discriminate).
  destruct (X20_getNextExercise_grouped interleavedPlan this 0 Hrun H)
    as (action & this' & Hnext & Hrun' & Hrem & Haction).
  assert (Hfresh0 : v2_getRemainingSets this 0 = 2).
  { vm_compute in Hnew. injection Hnew as <-. reflexivity. }
  assert (Hfresh2 : v2_getRemainingSets this 2 = 2).
  { vm_compute in Hnew. injection Hnew as <-. reflexivity. }
  assert (Hleft2 : 0 < v2_getRemainingSets this' 2).
  { rewrite (Hrem 2), Hfresh2. cbn. lia. }
  assert (Hmembers : membersOf interleavedPlan (itemGroupId (at_ interleavedPlan 0))
                     = [0; 2]) by (vm_compute; reflexivity).
  cbn zeta in Haction. rewrite Hmembers in Haction.
  assert (Hpinned : action = V2NextExercise 2).
  { destruct action as [| n | n restAfter].
    - exfalso. apply (Haction 2); [right; left; reflexivity | exact Hleft2].
    - destruct Haction as (Hn & Hlater & _).
      destruct Hn as [<- | [<- | []]]; [lia | reflexivity].
    - destruct Haction as (_ & _ & _ & _ & _ & Hnone). exfalso.
      apply (Hnone 2); [right; left; reflexivity | lia | exact Hleft2]. }
  subst action.
  exists this, this'. split; [exact Hnew |]. split; [exact Hrun |].
  split; [exact H |]. split; [exact Hnext |]. split; [exact Hrun' |].
  rewrite (Hrem 0), Hfresh0. reflexivity.
Defined.
